(** * OpenFixedPoint: a shallow embedding of [fixedpointlib.cpp]

    The library emulates fixed-point datapaths on top of C++ [double] and
    [int64_t].  This development transcribes the class [FXP] (bounds,
    quantizer, accessors) and the arithmetic operators, and proves the
    properties stated about them.

    Modelling conventions.
    - [int64_t] and [int] are integers of [Z] with the two's-complement
      wrap-around written out ([wrap64], [wrap32]).  A shift whose count is
      outside the width of the type, a remainder by zero and a conversion of
      a [double] that does not fit [int64_t] have no defined result in C++;
      they are reported as the fault [Undefined].
    - [double] is modelled by rationals extended with the two infinities
      and a not-a-number value; [fl] rounds a rational to binary64 (nearest,
      ties to even, overflow to an infinity, gradual underflow) and [cast]
      is the conversion of an [int64_t].  The rounding is written where the
      result of an operation on doubles need not be a double: every
      conversion of an [int64_t], the sums, differences and products of
      [_add], [_sub] and [_mul], and the scaling by [1 << b] of the shift
      operators.  It is not written where the result is always a double:
      the product and the quotient by [shift] (a power of two, of a value
      that neither overflows nor underflows without the conversion that
      follows being undefined), the unary minus, [fabs], [round], the
      truncation [(double)(int64_t)x] of [fastfloor], the conversion of an
      [int], and the sign test [tempval * _val >= 0], whose sign no rounding
      changes.  The sign of zero is not modelled.
    - [assert] under [#ifdef _DEBUG] is modelled by the fault [Abort]; the
      flag [DEBUG] says whether [_DEBUG] is defined (the file defines it).
    - The widths [intg], [frac] and the shift amounts are C++ [int]; they
      are kept as unbounded [Z], their arithmetic staying far from 2^31. *)

From Stdlib Require Import ZArith QArith Qround Qabs Qpower Bool Lia Lqa.
From Stdlib Require Import Ascii String.

Local Open Scope Z_scope.

(** ** Outcomes of a C++ evaluation *)

Inductive fault : Type :=
| Abort       (* a failed assert *)
| Undefined.  (* undefined behaviour *)

Inductive result (A : Type) : Type :=
| Ok (a : A)
| Err (e : fault).

Arguments Ok {A} a.
Arguments Err {A} e.

Definition bind {A B : Type} (m : result A) (k : A -> result B) : result B :=
  match m with
  | Ok a => k a
  | Err e => Err e
  end.

Notation "x <- m ;; k" := (bind m (fun x => k))
  (at level 61, m at next level, right associativity).
Notation "m ;;; k" := (bind m (fun _ => k))
  (at level 61, right associativity).

(** [assert(c)] inside [#ifdef _DEBUG]. *)
Definition assert_ (DEBUG : bool) (c : bool) : result unit :=
  if DEBUG then (if c then Ok tt else Err Abort) else Ok tt.

(** ** Machine integers *)

Definition wrap (w : Z) (x : Z) : Z := (x + 2 ^ (w - 1)) mod 2 ^ w - 2 ^ (w - 1).
Definition wrap64 : Z -> Z := wrap 64.
Definition wrap32 : Z -> Z := wrap 32.

Definition add64 (x y : Z) : Z := wrap64 (x + y).
Definition sub64 (x y : Z) : Z := wrap64 (x - y).

(** [x << n] on [int64_t]. *)
Definition shl64 (x n : Z) : result Z :=
  if (0 <=? n) && (n <? 64) then Ok (wrap64 (Z.shiftl x n)) else Err Undefined.

(** [x << n] on [int]. *)
Definition shl32 (x n : Z) : result Z :=
  if (0 <=? n) && (n <? 32) then Ok (wrap32 (Z.shiftl x n)) else Err Undefined.

(** [x % y] on [int64_t]: the remainder of the division truncated to zero. *)
Definition rem64 (x y : Z) : result Z :=
  if (y =? 0) || ((x =? - 2 ^ 63) && (y =? -1)) then Err Undefined
  else Ok (Z.rem x y).

(** ** Doubles *)

Inductive double : Type :=
| Fin (q : Q)
| PInf
| NInf
| NaN.

Definition inf : double := PInf.

Definition of_int (z : Z) : double := Fin (inject_Z z).

(** Sign of a double that is not NaN. *)
Definition dsign (x : double) : comparison :=
  match x with
  | Fin q => (q ?= 0)%Q
  | PInf => Gt
  | NInf => Lt
  | NaN => Eq
  end.

Definition cmul (a b : comparison) : comparison :=
  match a, b with
  | Eq, _ | _, Eq => Eq
  | Gt, Gt | Lt, Lt => Gt
  | _, _ => Lt
  end.

(** The infinity of a given sign; the sign [Eq] stands for the invalid
    operations (0 * inf, 0 / 0). *)
Definition inf_of (s : comparison) : double :=
  match s with
  | Gt => PInf
  | Lt => NInf
  | Eq => NaN
  end.

Definition dneg (x : double) : double :=
  match x with
  | Fin q => Fin (- q)%Q
  | PInf => NInf
  | NInf => PInf
  | NaN => NaN
  end.

Definition dadd (x y : double) : double :=
  match x, y with
  | NaN, _ | _, NaN => NaN
  | Fin a, Fin b => Fin (a + b)%Q
  | PInf, NInf | NInf, PInf => NaN
  | PInf, _ | _, PInf => PInf
  | NInf, _ | _, NInf => NInf
  end.

Definition dsub (x y : double) : double := dadd x (dneg y).

Definition dmul (x y : double) : double :=
  match x, y with
  | NaN, _ | _, NaN => NaN
  | Fin a, Fin b => Fin (a * b)%Q
  | _, _ => inf_of (cmul (dsign x) (dsign y))
  end.

Definition ddiv (x y : double) : double :=
  match x, y with
  | NaN, _ | _, NaN => NaN
  | Fin a, Fin b =>
      if Qeq_bool b 0 then inf_of (dsign x) else Fin (a / b)%Q
  | Fin _, _ => Fin 0%Q
  | _, Fin b => inf_of (cmul (dsign x) (if Qeq_bool b 0 then Gt else dsign y))
  | _, _ => NaN
  end.

(** Comparison; [None] when an operand is NaN (every test is then false). *)
Definition dcompare (x y : double) : option comparison :=
  match x, y with
  | NaN, _ | _, NaN => None
  | Fin a, Fin b => Some (a ?= b)%Q
  | PInf, PInf | NInf, NInf => Some Eq
  | PInf, _ | _, NInf => Some Gt
  | NInf, _ | _, PInf => Some Lt
  end.

Definition deq (x y : double) : bool :=
  match dcompare x y with Some Eq => true | _ => false end.
Definition dlt (x y : double) : bool :=
  match dcompare x y with Some Lt => true | _ => false end.
Definition dgt (x y : double) : bool :=
  match dcompare x y with Some Gt => true | _ => false end.
Definition dle (x y : double) : bool :=
  match dcompare x y with Some Lt | Some Eq => true | _ => false end.
Definition dge (x y : double) : bool :=
  match dcompare x y with Some Gt | Some Eq => true | _ => false end.

Definition dabs (x : double) : double :=
  match x with
  | Fin q => Fin (Qabs q)
  | PInf | NInf => PInf
  | NaN => NaN
  end.

(** ** Rounding to binary64 *)

(** [floor (log2 |q|)] for a rational that is not zero. *)
Definition Qlog2 (q : Q) : Z :=
  let k := Z.log2 (Z.abs (Qnum q)) - Z.log2 (Zpos (Qden q)) in
  if Qle_bool (2 ^ k) (Qabs q) then k else k - 1.

(** The nearest integer, a tie going to the even one. *)
Definition round_even (q : Q) : Z :=
  let f := Qfloor q in
  match (q - inject_Z f ?= 1 # 2)%Q with
  | Lt => f
  | Gt => f + 1
  | Eq => if Z.even f then f else f + 1
  end.

(** The binary64 nearest to [q]: 53 significant bits, the unit in the last
    place no smaller than 2^-1074, an infinity from 2^1024 on.  A rational
    that is a double already is returned as it is written. *)
Definition nearest (q : Q) : double :=
  if Qeq_bool q 0 then Fin q
  else
    let e := Z.max (Qlog2 q - 52) (-1074) in
    let r := (inject_Z (round_even (q / 2 ^ e)) * 2 ^ e)%Q in
    if Qle_bool (2 ^ 1024) (Qabs r) then inf_of (q ?= 0)%Q
    else if Qeq_bool r q then Fin q else Fin r.

Definition fl (x : double) : double :=
  match x with
  | Fin q => nearest q
  | _ => x
  end.

(** [(double)z] for an [int64_t] [z]. *)
Definition cast (z : Z) : double := fl (of_int z).

Arguments nearest : simpl never.
Arguments fl : simpl never.
Arguments cast : simpl never.

(** [round]: to the nearest integer, halves away from zero. *)
Definition round_half_away (q : Q) : Z :=
  if Qle_bool 0 q then Qfloor (q + (1 # 2)) else Qceiling (q - (1 # 2)).

Definition round (x : double) : double :=
  match x with
  | Fin q => of_int (round_half_away q)
  | _ => x
  end.

(** [(int64_t)x]: truncation toward zero. *)
Definition Qtrunc (q : Q) : Z := Z.quot (Qnum q) (Zpos (Qden q)).

Definition to_int64 (x : double) : result Z :=
  match x with
  | Fin q =>
      let z := Qtrunc q in
      if (- 2 ^ 63 <=? z) && (z <? 2 ^ 63) then Ok z else Err Undefined
  | _ => Err Undefined
  end.

(** [#define fastfloor(x) ((double)(int64_t)x - (x < (double)(int64_t)x))] *)
Definition fastfloor (x : double) : result double :=
  n <- to_int64 x ;;
  Ok (dsub (of_int n) (of_int (if dlt x (of_int n) then 1 else 0))).

(** [int(fastfloor(log2(b)))] and [int(log2(b))] for an [int] [b]: the
    base-two logarithm of a positive integer below 2^31, rounded down; the
    logarithm of a non-positive number is not a number and has no [int]. *)
Definition ilog2 (b : Z) : result Z :=
  if 0 <? b then Ok (Z.log2 b) else Err Undefined.

(** ** The data model *)

Inductive dtype : Type := d_INT | d_UINT | d_FXP | d_UFXP | d_FLOAT.
Inductive modes : Type := FULL | FIXEDFRAC | FIXEDWIDTH | MANUAL.

Definition dtype_eqb (a b : dtype) : bool :=
  match a, b with
  | d_INT, d_INT | d_UINT, d_UINT | d_FXP, d_FXP
  | d_UFXP, d_UFXP | d_FLOAT, d_FLOAT => true
  | _, _ => false
  end.

Definition modes_eqb (a b : modes) : bool :=
  match a, b with
  | FULL, FULL | FIXEDFRAC, FIXEDFRAC
  | FIXEDWIDTH, FIXEDWIDTH | MANUAL, MANUAL => true
  | _, _ => false
  end.

(** [class tuple]: a configuration. *)
Module Tuple.
Record tuple : Type := Build {
  intg : Z;
  frac : Z;
  type : dtype;
  opmode : modes;
  sat : bool;
  rounding : bool
}.
End Tuple.
Abbreviation tuple := Tuple.tuple.

(** [class FXP]. *)
Record FXP : Type := Build_FXP {
  _val : double;
  intg : Z;
  frac : Z;
  type : dtype;
  opmode : modes;
  sat : bool;
  rounding : bool;
  pinf : double;
  ninf : double;
  shift : double;
  full : Z;
  half : Z
}.

(** The six fields a template is read for, when the template is an [FXP]. *)
Definition as_tuple (a : FXP) : tuple :=
  Tuple.Build (intg a) (frac a) (type a) (opmode a) (sat a) (rounding a).

(** The members of a default-constructed object (never read before they
    are assigned). *)
Definition FXP_default : FXP :=
  Build_FXP (Fin 0) 0 0 d_INT FULL false false (Fin 0) (Fin 0) (Fin 0) 0 0.

Definition is_unsigned (t : dtype) : bool :=
  dtype_eqb t d_UINT || dtype_eqb t d_UFXP.

Definition is_int_kind (t : dtype) : bool :=
  dtype_eqb t d_UINT || dtype_eqb t d_INT.
Definition is_fxp_kind (t : dtype) : bool :=
  dtype_eqb t d_UFXP || dtype_eqb t d_FXP.

(** ** The class methods *)

Section Methods.

(** Whether [_DEBUG] is defined. *)
Variable DEBUG : bool.

Definition _read_template (this : FXP) (templ : tuple) : FXP :=
  Build_FXP (_val this)
            (Tuple.intg templ) (Tuple.frac templ) (Tuple.type templ)
            (Tuple.opmode templ) (Tuple.sat templ) (Tuple.rounding templ)
            (pinf this) (ninf this) (shift this) (full this) (half this).

Definition set_shift (this : FXP) (s : double) : FXP :=
  Build_FXP (_val this) (intg this) (frac this) (type this) (opmode this)
            (sat this) (rounding this) (pinf this) (ninf this) s
            (full this) (half this).

Definition set_full_half (this : FXP) (f h : Z) : FXP :=
  Build_FXP (_val this) (intg this) (frac this) (type this) (opmode this)
            (sat this) (rounding this) (pinf this) (ninf this) (shift this)
            f h.

Definition set_pinf_ninf (this : FXP) (p n : double) : FXP :=
  Build_FXP (_val this) (intg this) (frac this) (type this) (opmode this)
            (sat this) (rounding this) p n (shift this)
            (full this) (half this).

Definition set__val (this : FXP) (v : double) : FXP :=
  Build_FXP v (intg this) (frac this) (type this) (opmode this)
            (sat this) (rounding this) (pinf this) (ninf this) (shift this)
            (full this) (half this).

Definition _set_bounds (this : FXP) : result FXP :=
  s <- shl64 1 (frac this) ;;
  let this := set_shift this (cast s) in
  this <- (if is_unsigned (type this) then
             f <- shl64 1 (intg this + frac this) ;;
             Ok (set_full_half this f 0)
           else
             f <- shl64 1 (intg this + frac this + 1) ;;
             h <- shl64 1 (intg this + frac this) ;;
             Ok (set_full_half this f h)) ;;
  if dtype_eqb (type this) d_FLOAT then
    Ok (set_pinf_ninf this inf (dneg inf))
  else if (intg this <? 31) && (frac this <? 31) then
    p <- shl64 1 (intg this + frac this) ;;
    let pinf := ddiv (cast (sub64 p 1)) (shift this) in
    ninf <- (if is_unsigned (type this) then Ok (of_int 0)
             else
               n <- shl64 1 (intg this + frac this) ;;
               Ok (ddiv (dneg (cast n)) (shift this))) ;;
    Ok (set_pinf_ninf this pinf ninf)
  else
    p <- shl64 1 (intg this) ;;
    let pinf := cast (sub64 p 1) in
    ninf <- (if is_unsigned (type this) then Ok (of_int 0)
             else
               n <- shl64 1 (intg this) ;;
               Ok (dneg (cast n))) ;;
    Ok (set_pinf_ninf this pinf ninf).

(** The rounding step shared by [_to_signed] and [_to_unsigned]. *)
Definition round_or_floor (this : FXP) (temp : double) : result double :=
  if rounding this then Ok (round temp) else fastfloor temp.

Definition _to_signed (this : FXP) (val : double) : result FXP :=
  let temp := dmul val (shift this) in
  temp <- round_or_floor this temp ;;
  t <- to_int64 temp ;;
  tempint <- rem64 (add64 t (half this)) (full this) ;;
  let tempint := if tempint <? 0 then add64 tempint (full this) else tempint in
  Ok (set__val this (cast (sub64 tempint (half this)))).

Definition _to_unsigned (this : FXP) (val : double) : result FXP :=
  let temp := dmul val (shift this) in
  temp <- round_or_floor this temp ;;
  t <- to_int64 temp ;;
  tempint <- rem64 t (full this) ;;
  let tempint := if tempint <? 0 then add64 tempint (full this) else tempint in
  Ok (set__val this (cast tempint)).

Definition _set_val (this : FXP) (val : double) : result FXP :=
  let tempval := val in
  assert_ DEBUG (intg this + frac this <? 63) ;;;
  let val := if deq val inf then pinf this else val in
  let val := if deq val (dneg inf) then ninf this else val in
  let val :=
    if sat this then
      let val := if dgt val (pinf this) then pinf this else val in
      if dlt val (ninf this) then ninf this else val
    else val in
  this <- match type this with
          | d_FLOAT => Ok (set__val this val)
          | d_INT =>
              assert_ DEBUG (frac this =? 0) ;;;
              _to_signed this val
          | d_UINT =>
              assert_ DEBUG (frac this =? 0) ;;;
              assert_ DEBUG (dge val (of_int 0)) ;;;
              _to_unsigned this val
          | d_FXP => _to_signed this val
          | d_UFXP =>
              assert_ DEBUG (dge val (of_int 0)) ;;;
              _to_unsigned this val
          end ;;
  assert_ DEBUG (dge (dmul tempval (_val this)) (of_int 0)) ;;;
  Ok this.

(** The constructor [FXP(double val, TYPE templ)]. *)
Definition FXP_ctor (val : double) (templ : tuple) : result FXP :=
  let this := _read_template FXP_default templ in
  this <- _set_bounds this ;;
  _set_val this val.

(** [double val()] *)
Definition val (this : FXP) : double :=
  if dtype_eqb (type this) d_FLOAT then _val this
  else ddiv (_val this) (shift this).

Definition convert (this : FXP) (templ : tuple) : result FXP :=
  let tempval := val this in
  let this := _read_template this templ in
  this <- _set_bounds this ;;
  _set_val this tempval.

Definition copy (this : FXP) : result FXP :=
  FXP_ctor (val this) (as_tuple this).

Definition copy_templ (this : FXP) (templ : tuple) : result FXP :=
  FXP_ctor (val this) templ.

End Methods.

(** ** The operators *)

Section Operators.

Variable DEBUG : bool.

Definition operator_pos (a : FXP) : result FXP := copy DEBUG a.

Definition operator_neg (a : FXP) : result FXP :=
  FXP_ctor DEBUG (dneg (val a)) (as_tuple a).

Definition operator_lt (a b : FXP) : bool := dlt (val a) (val b).
Definition operator_le (a b : FXP) : bool := dle (val a) (val b).
Definition operator_gt (a b : FXP) : bool := dgt (val a) (val b).
Definition operator_ge (a b : FXP) : bool := dge (val a) (val b).
Definition operator_eq (a b : FXP) : bool := deq (val a) (val b).
Definition operator_ne (a b : FXP) : bool := negb (deq (val a) (val b)).

(** [operator>>(FXP a, int b)] *)
Definition operator_shr (a : FXP) (b : Z) : result FXP :=
  p <- shl32 1 b ;;
  FXP_ctor DEBUG (fl (ddiv (val a) (of_int p)))
    (Tuple.Build (Z.min (intg a - b) 0) (frac a + b)
                 (type a) (opmode a) (sat a) (rounding a)).

(** [operator<<(FXP a, int b)] *)
Definition operator_shl (a : FXP) (b : Z) : result FXP :=
  p <- shl32 1 b ;;
  FXP_ctor DEBUG (fl (dmul (val a) (of_int p)))
    (Tuple.Build (intg a + b) (Z.max (frac a - b) 0)
                 (type a) (opmode a) (sat a) (rounding a)).

Definition abs (a : FXP) : result FXP :=
  FXP_ctor DEBUG (dabs (val a)) (as_tuple a).

Definition max (a b : FXP) : result FXP :=
  if operator_gt a b then copy DEBUG a else copy DEBUG b.

Definition min (a b : FXP) : result FXP :=
  if operator_lt a b then copy DEBUG a else copy DEBUG b.

(** The fractional width chosen by the FIXEDFRAC and FIXEDWIDTH branches
    (the same three-way test in [_add], [_sub] and [_mul]). *)
Definition fixed_frac (a b : FXP) : Z :=
  if is_int_kind (type a) && is_fxp_kind (type b) then frac b
  else if is_int_kind (type b) && is_fxp_kind (type a) then frac a
  else Z.min (frac a) (frac b).

(** The kind of a sum or product of two operands that are not both
    FLOAT. *)
Definition add_type (ta tb : dtype) : dtype :=
  if dtype_eqb ta d_UINT && dtype_eqb tb d_UINT then d_UINT
  else if (dtype_eqb ta d_UINT && dtype_eqb tb d_INT)
          || (dtype_eqb ta d_INT && dtype_eqb tb d_UINT) then d_INT
  else if (dtype_eqb ta d_UINT && dtype_eqb tb d_UFXP)
          || (dtype_eqb ta d_UFXP && dtype_eqb tb d_UINT) then d_UFXP
  else d_FXP.

(** The kind of a difference. *)
Definition sub_type (ta tb : dtype) : dtype :=
  if dtype_eqb ta d_UINT && dtype_eqb tb d_UINT then d_INT
  else if (dtype_eqb ta d_UINT && dtype_eqb tb d_INT)
          || (dtype_eqb ta d_INT && dtype_eqb tb d_UINT) then d_INT
  else if (dtype_eqb ta d_UINT && dtype_eqb tb d_UFXP)
          || (dtype_eqb ta d_UFXP && dtype_eqb tb d_UINT) then d_FXP
  else d_FXP.

(** [double(((int64_t)x) << n)] *)
Definition shifted (x : double) (n : Z) : result double :=
  t <- to_int64 x ;;
  s <- shl64 t n ;;
  Ok (cast s).

(** Widths chosen for a sum or a difference; [intg] and [frac] start at 0
    and MANUAL assigns neither. *)
Definition add_widths (a b : FXP) (opmode : modes) : Z * Z :=
  match opmode with
  | FULL => (Z.max (intg a) (intg b) + 1, Z.max (frac a) (frac b))
  | FIXEDFRAC => (Z.max (intg a) (intg b) + 1, fixed_frac a b)
  | FIXEDWIDTH => (Z.max (intg a) (intg b), fixed_frac a b)
  | MANUAL => (0, 0)
  end.

Definition mul_widths (a b : FXP) (opmode : modes) : Z * Z :=
  match opmode with
  | FULL => (intg a + intg b, frac a + frac b)
  | FIXEDFRAC => (intg a + intg b, fixed_frac a b)
  | FIXEDWIDTH => (Z.max (intg a) (intg b), fixed_frac a b)
  | MANUAL => (0, 0)
  end.

Definition _add5 (a b : FXP) (opmode : modes) (sat rounding : bool)
  : result FXP :=
  tt <- (if dtype_eqb (type a) d_FLOAT && dtype_eqb (type b) d_FLOAT then
           Ok (d_FLOAT, fl (dadd (_val a) (_val b)))
         else
           let type := add_type (type a) (type b) in
           if frac b <=? frac a then
             s <- shifted (_val b) (frac a - frac b) ;;
             Ok (type, ddiv (fl (dadd (_val a) s)) (shift a))
           else
             s <- shifted (_val a) (frac b - frac a) ;;
             Ok (type, ddiv (fl (dadd (_val b) s)) (shift b))) ;;
  let '(type, tempval) := tt in
  let '(intg, frac) := add_widths a b opmode in
  FXP_ctor DEBUG tempval (Tuple.Build intg frac type opmode sat rounding).

(** The four asserts that open [_add(a,b)], [_sub(a,b)] and [_mul(a,b)]. *)
Definition assert_compatible (a b : FXP) : result unit :=
  assert_ DEBUG (modes_eqb (opmode a) (opmode b)) ;;;
  assert_ DEBUG (Bool.eqb (sat a) (sat b)) ;;;
  assert_ DEBUG (Bool.eqb (rounding a) (rounding b)) ;;;
  assert_ DEBUG
    ((dtype_eqb (type a) d_FLOAT && dtype_eqb (type b) d_FLOAT)
     || (negb (dtype_eqb (type a) d_FLOAT)
         && negb (dtype_eqb (type b) d_FLOAT))).

Definition _add (a b : FXP) : result FXP :=
  assert_compatible a b ;;;
  _add5 a b (opmode a) (sat a) (rounding a).

Definition _sub5 (a b : FXP) (opmode : modes) (sat rounding : bool)
  : result FXP :=
  tt <- (if dtype_eqb (type a) d_FLOAT && dtype_eqb (type b) d_FLOAT then
           Ok (d_FLOAT, fl (dsub (_val a) (_val b)))
         else
           let type := sub_type (type a) (type b) in
           if frac b <=? frac a then
             s <- shifted (_val b) (frac a - frac b) ;;
             Ok (type, ddiv (fl (dsub (_val a) s)) (shift a))
           else
             s <- shifted (_val a) (frac b - frac a) ;;
             Ok (type, ddiv (fl (dadd (dneg (_val b)) s)) (shift b))) ;;
  let '(type, tempval) := tt in
  let '(intg, frac) := add_widths a b opmode in
  FXP_ctor DEBUG tempval (Tuple.Build intg frac type opmode sat rounding).

Definition _sub (a b : FXP) : result FXP :=
  assert_compatible a b ;;;
  _sub5 a b (opmode a) (sat a) (rounding a).

Definition _mul5 (a b : FXP) (opmode : modes) (sat rounding : bool)
  : result FXP :=
  tt <- (if dtype_eqb (type a) d_FLOAT && dtype_eqb (type b) d_FLOAT then
           Ok (d_FLOAT, fl (dmul (_val a) (_val b)))
         else
           let type := add_type (type a) (type b) in
           one <- shl64 1 (frac a + frac b) ;;
           Ok (type, ddiv (fl (dmul (_val a) (_val b))) (cast one))) ;;
  let '(type, tempval) := tt in
  let '(intg, frac) := mul_widths a b opmode in
  FXP_ctor DEBUG tempval (Tuple.Build intg frac type opmode sat rounding).

Definition _mul (a b : FXP) : result FXP :=
  assert_compatible a b ;;;
  _mul5 a b (opmode a) (sat a) (rounding a).

Definition operator_add (a b : FXP) : result FXP := _add a b.
Definition operator_mul (a b : FXP) : result FXP := _mul a b.

(** [operator+(FXP a, int b)] *)
Definition operator_add_int (a : FXP) (b : Z) : result FXP :=
  if b =? 0 then copy DEBUG a
  else if 0 <? b then
    w <- ilog2 b ;;
    if dtype_eqb (type a) d_FLOAT then
      l <- FXP_ctor DEBUG (of_int b)
             (Tuple.Build (1 + w) 0 d_FLOAT (opmode a) (sat a) (rounding a)) ;;
      _add a l
    else
      l <- FXP_ctor DEBUG (of_int b)
             (Tuple.Build (1 + w) 0 d_UINT (opmode a) (sat a) (rounding a)) ;;
      _add a l
  else
    w <- ilog2 (wrap32 (- b)) ;;
    if dtype_eqb (type a) d_FLOAT then
      l <- FXP_ctor DEBUG (of_int b)
             (Tuple.Build (1 + w) 0 d_FLOAT (opmode a) (sat a) (rounding a)) ;;
      _add a l
    else
      l <- FXP_ctor DEBUG (of_int b)
             (Tuple.Build (1 + w) 0 d_INT (opmode a) (sat a) (rounding a)) ;;
      _add a l.


(** [operator-(FXP a, int b)] *)
Definition operator_sub_int (a : FXP) (b : Z) : result FXP :=
  if b =? 0 then copy DEBUG a
  else if 0 <? b then
    w <- ilog2 b ;;
    if dtype_eqb (type a) d_FLOAT then
      l <- FXP_ctor DEBUG (of_int b)
             (Tuple.Build (1 + w) 0 d_FLOAT (opmode a) (sat a) (rounding a)) ;;
      _sub a l
    else
      l <- FXP_ctor DEBUG (of_int b)
             (Tuple.Build (1 + w) 0 d_UINT (opmode a) (sat a) (rounding a)) ;;
      _sub a l
  else
    w <- ilog2 (wrap32 (- b)) ;;
    if dtype_eqb (type a) d_FLOAT then
      l <- FXP_ctor DEBUG (of_int b)
             (Tuple.Build (1 + w) 0 d_FLOAT (opmode a) (sat a) (rounding a)) ;;
      _sub a l
    else
      l <- FXP_ctor DEBUG (of_int b)
             (Tuple.Build (1 + w) 0 d_INT (opmode a) (sat a) (rounding a)) ;;
      _sub a l.


(** [operator*(FXP a, int b)] *)
Definition operator_mul_int (a : FXP) (b : Z) : result FXP :=
  if b =? 0 then FXP_ctor DEBUG (of_int 0) (as_tuple a)
  else if 0 <? b then
    if Z.land b (wrap32 (b - 1)) =? 0 then
      k <- ilog2 b ;;
      operator_shl a k
    else
      w <- ilog2 b ;;
      if dtype_eqb (type a) d_FLOAT then
        l <- FXP_ctor DEBUG (of_int b)
               (Tuple.Build (1 + w) 0 d_FLOAT (opmode a) (sat a) (rounding a)) ;;
        _mul a l
      else
        l <- FXP_ctor DEBUG (of_int b)
               (Tuple.Build (1 + w) 0 d_UINT (opmode a) (sat a) (rounding a)) ;;
        _mul a l
  else
    if Z.land (wrap32 (- b)) (wrap32 (wrap32 (- b) - 1)) =? 0 then
      k <- ilog2 (wrap32 (- b)) ;;
      operator_shl a k
    else
      w <- ilog2 (wrap32 (- b)) ;;
      if dtype_eqb (type a) d_FLOAT then
        l <- FXP_ctor DEBUG (of_int b)
               (Tuple.Build (1 + w) 0 d_FLOAT (opmode a) (sat a) (rounding a)) ;;
        _mul a l
      else
        l <- FXP_ctor DEBUG (of_int b)
               (Tuple.Build (1 + w) 0 d_FLOAT (opmode a) (sat a) (rounding a)) ;;
        _mul a l.


End Operators.

(** ** Presentation *)

(** [string int2bin(int64_t val, int n)]: the loop runs [n] times from the
    lowest bit, each digit being put in front; [mask <<= 1] wraps like the
    other 64-bit operations. *)
Fixpoint int2bin_loop (val mask : Z) (binary : string) (k : nat) : string :=
  match k with
  | O => binary
  | S k' =>
      let binary :=
        if 1 <=? Z.land mask val then String "1" binary
        else String "0" binary in
      int2bin_loop val (wrap64 (Z.shiftl mask 1)) binary k'
  end.

Definition int2bin (val n : Z) : string :=
  int2bin_loop val 1 EmptyString (Z.to_nat n).

(** [s.substr(pos, len)] with [int] arguments converted to [size_t]: a
    position after the end (or negative, hence huge) throws
    [std::out_of_range], which nothing catches, so the program is aborted; a
    length past the end (or negative) is cut at the end. *)
Definition substr (s : string) (pos len : Z) : result string :=
  if (pos <? 0) || (Z.of_nat (String.length s) <? pos) then Err Abort
  else Ok (String.substring (Z.to_nat pos)
             (if len <? 0 then String.length s else Z.to_nat len) s).

(** [string FXP::to_binary()] *)
Definition to_binary (this : FXP) : result string :=
  if dtype_eqb (type this) d_FLOAT then Ok "float"%string
  else if dtype_eqb (type this) d_INT || dtype_eqb (type this) d_FXP then
    v <- to_int64 (_val this) ;;
    let s := int2bin v (intg this + frac this + 1) in
    hd <- substr s 0 (intg this + 1) ;;
    tl <- substr s (intg this + 1) (frac this) ;;
    Ok (hd ++ "." ++ tl)%string
  else
    v <- to_int64 (_val this) ;;
    let s := int2bin v (intg this + frac this + 1) in
    hd <- substr s 1 (intg this) ;;
    tl <- substr s (intg this + 1) (frac this) ;;
    Ok (hd ++ "." ++ tl)%string.

(** * Vocabulary of the statements *)

(** The invariants of a configuration: non-negative widths below the
    63-bit ceiling, and no fraction on the integer kinds. *)
Definition valid_widths (t : tuple) : Prop :=
  0 <= Tuple.intg t /\ 0 <= Tuple.frac t /\ Tuple.intg t + Tuple.frac t < 63.

Definition valid_config (t : tuple) : Prop :=
  valid_widths t /\
  (Tuple.type t = d_INT \/ Tuple.type t = d_UINT -> Tuple.frac t = 0).

Definition exact_ninf (t : dtype) (i f : Z) : Q :=
  if is_unsigned t then 0%Q
  else (- inject_Z (2 ^ (i + f)) / inject_Z (2 ^ f))%Q.
Definition approx_ninf (t : dtype) (i : Z) : Q :=
  if is_unsigned t then 0%Q else (- inject_Z (2 ^ i))%Q.

(** The integer whose conversion to [double] gives the positive bound: the
    double nearest to 2^n - 1, which is 2^n - 1 up to 53 bits and 2^n from 54
    bits on. *)
Definition top_count (n : Z) : Z := if n <=? 53 then 2 ^ n - 1 else 2 ^ n.

(** The members [_set_bounds] assigns, in closed form. *)
Definition full_of (t : dtype) (i f : Z) : Z :=
  if is_unsigned t then 2 ^ (i + f) else wrap64 (2 ^ (i + f + 1)).
Definition half_of (t : dtype) (i f : Z) : Z :=
  if is_unsigned t then 0 else 2 ^ (i + f).
Definition pinf_of (t : dtype) (i f : Z) : double :=
  if dtype_eqb t d_FLOAT then PInf
  else if (i <? 31) && (f <? 31)
       then Fin (inject_Z (top_count (i + f)) / inject_Z (2 ^ f))
  else Fin (inject_Z (top_count i)).
Definition ninf_of (t : dtype) (i f : Z) : double :=
  if dtype_eqb t d_FLOAT then NInf
  else if (i <? 31) && (f <? 31) then Fin (exact_ninf t i f)
  else Fin (approx_ninf t i).

(** The object a constructor works on once the bounds are set. *)
Definition with_bounds (v : double) (t : tuple) : FXP :=
  Build_FXP v (Tuple.intg t) (Tuple.frac t) (Tuple.type t)
    (Tuple.opmode t) (Tuple.sat t) (Tuple.rounding t)
    (pinf_of (Tuple.type t) (Tuple.intg t) (Tuple.frac t))
    (ninf_of (Tuple.type t) (Tuple.intg t) (Tuple.frac t))
    (of_int (2 ^ Tuple.frac t))
    (full_of (Tuple.type t) (Tuple.intg t) (Tuple.frac t))
    (half_of (Tuple.type t) (Tuple.intg t) (Tuple.frac t)).


(** The promotion of an integer literal as the specification words it:
    width [1 + floor(log2 |b|)], no fraction, kind FLOAT beside a FLOAT
    operand, else UINT for a literal that is not negative and INT for a
    negative one. *)
Definition promote_tuple (a : FXP) (b : Z) : tuple :=
  Tuple.Build (1 + Z.log2 (Z.abs b)) 0
    (if dtype_eqb (type a) d_FLOAT then d_FLOAT
     else if 0 <=? b then d_UINT else d_INT)
    (opmode a) (sat a) (rounding a).

Definition promote (DEBUG : bool) (a : FXP) (b : Z) : result FXP :=
  FXP_ctor DEBUG (of_int b) (promote_tuple a b).

(** A literal whose magnitude is an exact power of two. *)
Definition is_pow2 (b : Z) : Prop := exists k, 0 <= k /\ Z.abs b = 2 ^ k.

(** Configurations and values of the worked examples. *)
Definition cfg_7_1 : tuple := Tuple.Build 7 1 d_FXP FIXEDFRAC false false.
Definition cfg_9_5 : tuple := Tuple.Build 9 5 d_FXP FIXEDFRAC false false.
Definition cfg_uint3 (s r : bool) : tuple := Tuple.Build 3 0 d_UINT FIXEDFRAC s r.
Definition cfg_int3 (s r : bool) : tuple := Tuple.Build 3 0 d_INT FIXEDFRAC s r.

(** The value -11.125 stored on the (9,5) grid: the raw count is -356. *)
Definition var_3 : FXP := with_bounds (of_int (-356)) cfg_9_5.

(** The integer count of a scaled real, as the specification words it:
    round to nearest (halves away from zero) or floor of [v * 2^frac]. *)
Definition count_of (rounding : bool) (q : Q) : Z :=
  if rounding then round_half_away q else Qfloor q.

Definition scaled_count (rounding : bool) (v : Q) (f : Z) : Z :=
  count_of rounding (v * inject_Z (2 ^ f))%Q.

(** The representable count of a configuration. *)
Definition representable_count (t : dtype) (i f : Z) : Z :=
  if is_unsigned t then 2 ^ (i + f) else 2 ^ (i + f + 1).

(** An integer a double holds: at most 53 significant bits. *)
Definition is_count (x : Z) : Prop :=
  exists m e, Z.abs m <= 2 ^ 53 /\ 0 <= e /\ x = m * 2 ^ e.

(** A rational a double holds: a 53-bit integer scaled by a power of two of
    the exponent range. *)
Definition representable (q : Q) : Prop :=
  exists m e, Z.abs m <= 2 ^ 53 /\ -1074 <= e <= 970 /\
              (q == inject_Z m * 2 ^ e)%Q.

(** The range of a configuration. *)
Definition in_range (t : dtype) (i f : Z) (x : Z) : Prop :=
  if is_unsigned t then 0 <= x < 2 ^ (i + f)
  else - 2 ^ (i + f) <= x < 2 ^ (i + f).

(** The counts a configuration stores: the member [_val] is a [double], so
    a stored count is an integer that a double holds, in the range of the
    configuration. *)
Definition count_in_range (t : dtype) (i f : Z) (x : Z) : Prop :=
  is_count x /\ in_range t i f x.

Definition fits_int64 (z : Z) : Prop := - 2 ^ 63 <= z < 2 ^ 63.

(** The bounds of a configuration that is not FLOAT, as rationals and as
    counts on its grid. *)
Definition pinf_Q (i f : Z) : Q :=
  if (i <? 31) && (f <? 31)
  then (inject_Z (top_count (i + f)) / inject_Z (2 ^ f))%Q
  else inject_Z (top_count i).
Definition ninf_Q (t : dtype) (i f : Z) : Q :=
  if (i <? 31) && (f <? 31) then exact_ninf t i f else approx_ninf t i.
Definition pinf_count (i f : Z) : Z :=
  if (i <? 31) && (f <? 31) then top_count (i + f) else top_count i * 2 ^ f.
Definition ninf_count (t : dtype) (i f : Z) : Z :=
  if is_unsigned t then 0 else - 2 ^ (i + f).

(** Clamping a rational into an interval, in the order of [_set_val]. *)
Definition clamp (lo hi v : Q) : Q :=
  let v := if Qlt_le_dec hi v then hi else v in
  if Qlt_le_dec v lo then lo else v.

(** The modular reductions of [_to_signed] and [_to_unsigned] on the
    integer count, and the count a configuration stores for a count [c]. *)
Definition reduce_signed (c H F : Z) : Z :=
  let r := Z.rem (add64 c H) F in
  let r' := if r <? 0 then add64 r F else r in
  sub64 r' H.

Definition reduce_unsigned (c F : Z) : Z :=
  let r := Z.rem c F in
  if r <? 0 then add64 r F else r.

Definition stored_count (t : dtype) (i f : Z) (c : Z) : Z :=
  if is_unsigned t then reduce_unsigned c (2 ^ (i + f))
  else reduce_signed c (2 ^ (i + f)) (wrap64 (2 ^ (i + f + 1))).

(** The value [_set_val] goes on with after the overflow policy. *)
Definition resolved (t : tuple) (v : Q) : Q :=
  if Tuple.sat t
  then clamp (ninf_Q (Tuple.type t) (Tuple.intg t) (Tuple.frac t))
             (pinf_Q (Tuple.intg t) (Tuple.frac t)) v
  else v.

(** The count [_set_val] stores for the finite input [v]. *)
Definition quantized_count (t : tuple) (v : Q) : Z :=
  stored_count (Tuple.type t) (Tuple.intg t) (Tuple.frac t)
    (scaled_count (Tuple.rounding t) (resolved t v) (Tuple.frac t)).

(** The asserts of [_set_val] that come before the conversion: no fraction
    on an integer kind, no negative value into an unsigned kind. *)
Definition pre_checks (t : tuple) (v : Q) : bool :=
  (if is_int_kind (Tuple.type t) then Tuple.frac t =? 0 else true)
  && (if is_unsigned (Tuple.type t) then Qle_bool 0 (resolved t v) else true).

(** The asserts of [_set_val] on a configuration that is not FLOAT, for
    the input [v]: no fraction on an integer kind, no negative value into an
    unsigned kind, no change of sign. *)
Definition checks (t : tuple) (v : Q) : bool :=
  (if is_int_kind (Tuple.type t) then Tuple.frac t =? 0 else true)
  && (if is_unsigned (Tuple.type t) then Qle_bool 0 (resolved t v) else true)
  && Qle_bool 0 (v * inject_Z (quantized_count t v)).

(** The inputs whose count the constructor stores as it computes it.  The
    conversion to [double] that ends [_to_signed] and [_to_unsigned] changes a
    count that no double holds; above 53 bits that happens for an input that
    is not a double itself, and for a negative input wrapped into an unsigned
    kind (which the assert on the sign, when compiled in, stops before). *)
Definition stores_exactly (DEBUG : bool) (t : tuple) (v : Q) : Prop :=
  Tuple.type t = d_FLOAT \/
  Tuple.intg t + Tuple.frac t <= 53 \/
  (representable v /\
   (is_unsigned (Tuple.type t) = true ->
    Tuple.sat t = true \/ (0 <= v)%Q \/ DEBUG = true)).

(** Two operands a binary operator accepts: same mode and policies, FLOAT
    only with FLOAT. *)
Definition compatible (a b : FXP) : Prop :=
  opmode a = opmode b /\ sat a = sat b /\ rounding a = rounding b /\
  (type a = d_FLOAT <-> type b = d_FLOAT).


(** An object as the constructor leaves it for a finite value: the bounds
    of a valid configuration, and a finite value, which is a count in range
    unless the kind is FLOAT. *)
Definition well_formed (a : FXP) : Prop :=
  exists t x,
    valid_config t /\ a = with_bounds x t /\
    (Tuple.type t = d_FLOAT -> exists q, x = Fin q) /\
    (Tuple.type t <> d_FLOAT ->
     exists z, x = of_int z /\
               count_in_range (Tuple.type t) (Tuple.intg t) (Tuple.frac t) z).

(** The operands of the subtraction examples: 0.5 on the (1,1) grid and 0
    on the (1,0) grid, signed, truncating, without saturation. *)
Definition cfg_1_1 (m : modes) : tuple := Tuple.Build 1 1 d_FXP m false false.
Definition half_1_1 (m : modes) : FXP := with_bounds (of_int 1) (cfg_1_1 m).


(** The number a string of binary digits writes, highest digit first. *)
Definition digit (c : ascii) : Z := if Ascii.eqb c "1" then 1 else 0.

Fixpoint bin_value (s : string) : Z :=
  match s with
  | EmptyString => 0
  | String c s' => digit c * 2 ^ Z.of_nat (String.length s') + bin_value s'
  end.

(** A string made of the digits 0 and 1 only. *)
Fixpoint binary_digits (s : string) : Prop :=
  match s with
  | EmptyString => True
  | String c s' => (c = "0"%char \/ c = "1"%char) /\ binary_digits s'
  end.

(** Inversion of a successful run through binds, tests and asserts. *)
Ltac invert_Ok :=
  repeat match goal with
         | H : bind ?m _ = Ok _ |- _ =>
             let E := fresh "E" in
             destruct m eqn:E; cbn [bind] in H; [|discriminate H]
         | H : (if ?c then _ else _) = Ok _ |- _ =>
             let E := fresh "E" in destruct c eqn:E
         | H : match ?c with d_INT => _ | _ => _ end = Ok _ |- _ =>
             let E := fresh "E" in destruct c eqn:E
         | H : Ok _ = Ok _ |- _ => injection H as H; try subst
         | H : Err _ = Ok _ |- _ => discriminate H
         end.

(** * Facts about the machine integers *)

Lemma wrap64_small (x : Z) :
  - 2 ^ 63 <= x < 2 ^ 63 -> wrap64 x = x.
Proof.
  intros H. unfold wrap64, wrap.
  change (2 ^ (64 - 1)) with (2 ^ 63).
  rewrite Z.mod_small; lia.
Qed.

Lemma wrap64_range (x : Z) : - 2 ^ 63 <= wrap64 x < 2 ^ 63.
Proof.
  unfold wrap64, wrap. change (2 ^ (64 - 1)) with (2 ^ 63).
  pose proof (Z.mod_pos_bound (x + 2 ^ 63) (2 ^ 64) ltac:(lia)). lia.
Qed.

Lemma wrap64_congr (x : Z) : exists k, wrap64 x = x + k * 2 ^ 64.
Proof.
  unfold wrap64, wrap. change (2 ^ (64 - 1)) with (2 ^ 63).
  exists (- ((x + 2 ^ 63) / 2 ^ 64)).
  pose proof (Z.div_mod (x + 2 ^ 63) (2 ^ 64) ltac:(lia)). lia.
Qed.

Lemma wrap32_small (x : Z) :
  - 2 ^ 31 <= x < 2 ^ 31 -> wrap32 x = x.
Proof.
  intros H. unfold wrap32, wrap.
  change (2 ^ (32 - 1)) with (2 ^ 31).
  rewrite Z.mod_small; lia.
Qed.

Lemma pow2_pos (n : Z) : 0 <= n -> 0 < 2 ^ n.
Proof. intros. apply Z.pow_pos_nonneg; lia. Qed.

Lemma pow2_le (n m : Z) : 0 <= n <= m -> 2 ^ n <= 2 ^ m.
Proof. intros. apply Z.pow_le_mono_r; lia. Qed.

Lemma pow2_lt (n m : Z) : 0 <= n < m -> 2 ^ n < 2 ^ m.
Proof. intros. apply Z.pow_lt_mono_r; lia. Qed.

Lemma shl64_one (n : Z) :
  0 <= n < 63 -> shl64 1 n = Ok (2 ^ n).
Proof.
  intros H. unfold shl64.
  replace ((0 <=? n) && (n <? 64)) with true
    by (symmetry; apply andb_true_iff; split; [apply Z.leb_le | apply Z.ltb_lt]; lia).
  rewrite Z.shiftl_1_l, wrap64_small; [reflexivity|].
  pose proof (pow2_pos n ltac:(lia)).
  pose proof (pow2_lt n 63 ltac:(lia)). lia.
Qed.

Lemma shl64_one_63 : shl64 1 63 = Ok (- 2 ^ 63).
Proof. reflexivity. Qed.

Lemma shl64_Ok (x n r : Z) :
  shl64 x n = Ok r -> 0 <= n < 64 /\ r = wrap64 (x * 2 ^ n).
Proof.
  unfold shl64. destruct (0 <=? n) eqn:E1; destruct (n <? 64) eqn:E2;
    simpl; try discriminate.
  intros [= <-]. apply Z.leb_le in E1. apply Z.ltb_lt in E2.
  rewrite Z.shiftl_mul_pow2 by lia. split; [lia | reflexivity].
Qed.

Lemma sub64_small (x y : Z) :
  - 2 ^ 63 <= x - y < 2 ^ 63 -> sub64 x y = x - y.
Proof. intros. unfold sub64. now apply wrap64_small. Qed.

Lemma add64_small (x y : Z) :
  - 2 ^ 63 <= x + y < 2 ^ 63 -> add64 x y = x + y.
Proof. intros. unfold add64. now apply wrap64_small. Qed.

(** * Facts about the doubles *)

Lemma Qeq_bool_inject_pow2 (n : Z) :
  0 <= n -> Qeq_bool (inject_Z (2 ^ n)) 0 = false.
Proof.
  intros H. pose proof (pow2_pos n H).
  unfold Qeq_bool, inject_Z. simpl.
  apply Z.eqb_neq. lia.
Qed.

Lemma ddiv_pow2 (a : Q) (n : Z) :
  0 <= n -> ddiv (Fin a) (of_int (2 ^ n)) = Fin (a / inject_Z (2 ^ n)).
Proof.
  intros H. unfold ddiv, of_int. now rewrite Qeq_bool_inject_pow2.
Qed.

Lemma shl64_one_wrap (n : Z) :
  0 <= n < 64 -> shl64 1 n = Ok (wrap64 (2 ^ n)).
Proof.
  intros H. unfold shl64.
  replace ((0 <=? n) && (n <? 64)) with true
    by (symmetry; apply andb_true_iff; split; [apply Z.leb_le | apply Z.ltb_lt]; lia).
  now rewrite Z.shiftl_1_l.
Qed.

Lemma sub64_pow2_one (n : Z) : 0 <= n < 63 -> sub64 (2 ^ n) 1 = 2 ^ n - 1.
Proof.
  intros H. apply sub64_small.
  pose proof (pow2_pos n ltac:(lia)).
  pose proof (pow2_lt n 63 ltac:(lia)). lia.
Qed.

(** * Rounding to binary64 *)

Lemma Qpow2_pos (e : Z) : (0 < 2 ^ e)%Q.
Proof. apply Qpower_0_lt. reflexivity. Qed.

Lemma Qpow2_add (a b : Z) : (2 ^ (a + b) == 2 ^ a * 2 ^ b)%Q.
Proof. apply Qpower_plus. discriminate. Qed.

Lemma Qpow2_inject (n : Z) : 0 <= n -> (2 ^ n == inject_Z (2 ^ n))%Q.
Proof. intros H. now rewrite Zpower_Qpower. Qed.

Lemma Qpow2_le (a b : Z) : a <= b -> (2 ^ a <= 2 ^ b)%Q.
Proof. intros H. apply Qpower_le_compat_l; [exact H | discriminate]. Qed.

Lemma Qpow2_lt (a b : Z) : a < b -> (2 ^ a < 2 ^ b)%Q.
Proof. intros H. apply Qpower_lt_compat_l; [exact H | reflexivity]. Qed.

Lemma Qpow2_lt_inv (a b : Z) : (2 ^ a < 2 ^ b)%Q -> a < b.
Proof. intros H. apply (Qpower_lt_compat_l_inv 2); [exact H | reflexivity]. Qed.

Lemma Qabs_num_den (q : Q) :
  (Qabs q == inject_Z (Z.abs (Qnum q)) / inject_Z (Zpos (Qden q)))%Q.
Proof.
  destruct q as [n d]. unfold Qabs, Qeq, Qdiv, Qmult, Qinv, inject_Z. simpl.
  lia.
Qed.

Lemma Qlog2_spec (q : Q) :
  ~ (q == 0)%Q -> (2 ^ Qlog2 q <= Qabs q /\ Qabs q < 2 ^ (Qlog2 q + 1))%Q.
Proof.
  intros Hq.
  set (n := Z.abs (Qnum q)). set (d := Zpos (Qden q)).
  assert (Hn : 0 < n).
  { subst n. destruct q as [[|p|p] dd]; simpl; try lia.
    exfalso. apply Hq. reflexivity. }
  assert (Hd : 0 < d) by (subst d; lia).
  pose proof (Z.log2_spec n Hn) as [Hn1 Hn2].
  pose proof (Z.log2_spec d Hd) as [Hd1 Hd2].
  pose proof (Z.log2_nonneg n) as Ha. pose proof (Z.log2_nonneg d) as Hb.
  set (a := Z.log2 n) in *. set (b := Z.log2 d) in *.
  replace (Z.succ a) with (a + 1) in Hn2 by lia.
  replace (Z.succ b) with (b + 1) in Hd2 by lia.
  assert (Habs : (Qabs q == inject_Z n / inject_Z d)%Q) by apply Qabs_num_den.
  assert (HdQ : (0 < inject_Z d)%Q)
    by (change 0%Q with (inject_Z 0); rewrite <- Zlt_Qlt; lia).
  rewrite Zle_Qle, <- Qpow2_inject in Hn1, Hd1 by lia.
  rewrite Zlt_Qlt, <- Qpow2_inject in Hn2, Hd2 by lia.
  pose proof (Qpow2_pos a) as Pa. pose proof (Qpow2_pos b) as Pb.
  pose proof (Qpow2_pos (a - b)) as Pk.
  assert (E1 : (2 ^ (a + 1) == 2 ^ (a - b + 1) * 2 ^ b)%Q)
    by (rewrite <- Qpow2_add; f_equiv; lia).
  assert (E2 : (2 ^ a == 2 ^ (a - b - 1) * 2 ^ (b + 1))%Q)
    by (rewrite <- Qpow2_add; f_equiv; lia).
  pose proof (Qpow2_pos (a - b + 1)) as Pk1.
  pose proof (Qpow2_pos (a - b - 1)) as Pk0.
  pose proof (Qpow2_pos (b + 1)) as Pb1.
  pose proof (Qpow2_pos (a + 1)) as Pa1.
  assert (Hup : (inject_Z n / inject_Z d < 2 ^ (a - b + 1))%Q).
  { apply Qlt_shift_div_r; [exact HdQ|].
    set (N := inject_Z n) in *. set (D := inject_Z d) in *.
    set (X := (2 ^ (a - b + 1))%Q) in *. set (B := (2 ^ b)%Q) in *.
    set (A1 := (2 ^ (a + 1))%Q) in *. nra. }
  assert (Hlo : (2 ^ (a - b - 1) <= inject_Z n / inject_Z d)%Q).
  { apply Qle_shift_div_l; [exact HdQ|].
    set (N := inject_Z n) in *. set (D := inject_Z d) in *.
    set (X := (2 ^ (a - b - 1))%Q) in *. set (B := (2 ^ (b + 1))%Q) in *.
    set (A1 := (2 ^ a)%Q) in *. nra. }
  unfold Qlog2. fold n d a b.
  destruct (Qle_bool (2 ^ (a - b)) (Qabs q)) eqn:E.
  - apply Qle_bool_iff in E. split; [exact E|]. now rewrite Habs.
  - assert (Hlt : (Qabs q < 2 ^ (a - b))%Q).
    { apply Qnot_le_lt. intros H. apply Qle_bool_iff in H. congruence. }
    replace (a - b - 1 + 1) with (a - b) by lia. split; [|exact Hlt].
    now rewrite Habs.
Qed.

Lemma round_even_integer (q : Q) (k : Z) :
  (q == inject_Z k)%Q -> round_even q = k.
Proof.
  intros H. unfold round_even.
  assert (Hf : Qfloor q = k) by (rewrite H; apply Qfloor_Z).
  rewrite Hf.
  assert (Hc : (q - inject_Z k ?= 1 # 2)%Q = Lt).
  { rewrite H. apply -> Qlt_alt. lra. }
  now rewrite Hc.
Qed.


Lemma nearest_exact_strict (q : Q) (m e : Z) :
  Z.abs m < 2 ^ 53 -> -1074 <= e <= 971 ->
  (q == inject_Z m * 2 ^ e)%Q -> nearest q = Fin q.
Proof.
  intros Hm He Hq. unfold nearest.
  destruct (Qeq_bool q 0) eqn:E0; [reflexivity|].
  assert (Hq0 : ~ (q == 0)%Q).
  { intros H. apply Qeq_bool_iff in H. congruence. }
  destruct (Qlog2_spec q Hq0) as [Hlo Hhi].
  set (L := Qlog2 q) in *. set (E := Z.max (L - 52) (-1074)).
  pose proof (Qpow2_pos e) as Pe. pose proof (Qpow2_pos E) as PE.
  assert (HmQ : (Qabs (inject_Z m) < 2 ^ 53)%Q).
  { rewrite Qpow2_inject by lia.
    change (Qabs (inject_Z m)) with (inject_Z (Z.abs m)).
    rewrite <- Zlt_Qlt. exact Hm. }
  assert (Habs : (Qabs q == Qabs (inject_Z m) * 2 ^ e)%Q).
  { rewrite Hq, Qabs_Qmult. f_equiv. apply Qabs_pos. lra. }
  assert (HLe : L - 52 <= e).
  { assert (H : (2 ^ L < 2 ^ (53 + e))%Q).
    { rewrite (Qpow2_add 53 e). rewrite Habs in Hlo.
      set (M := Qabs (inject_Z m)) in *. set (P := (2 ^ e)%Q) in *.
      set (X := (2 ^ L)%Q) in *. set (Y := (2 ^ 53)%Q) in *. nra. }
    apply Qpow2_lt_inv in H. lia. }
  assert (HEe : E <= e) by (subst E; lia).
  assert (Hint : (q / 2 ^ E == inject_Z (m * 2 ^ (e - E)))%Q).
  { rewrite Hq, inject_Z_mult, <- Qpow2_inject by lia.
    replace e with ((e - E) + E) at 1 by lia. rewrite Qpow2_add.
    field. lra. }
  rewrite (round_even_integer _ _ Hint).
  set (r := (inject_Z (m * 2 ^ (e - E)) * 2 ^ E)%Q).
  assert (Hr : (r == q)%Q).
  { subst r. rewrite <- Hint. field. lra. }
  assert (Hov : Qle_bool (2 ^ 1024) (Qabs r) = false).
  { destruct (Qle_bool (2 ^ 1024) (Qabs r)) eqn:Eo; [|reflexivity].
    exfalso. apply Qle_bool_iff in Eo. rewrite Hr, Habs in Eo.
    assert (H1 : (2 ^ e <= 2 ^ 971)%Q) by (apply Qpow2_le; lia).
    assert (H2 : (2 ^ 1024 == 2 ^ 53 * 2 ^ 971)%Q)
      by (rewrite <- Qpow2_add; reflexivity).
    pose proof (Qabs_nonneg (inject_Z m)) as H3.
    set (M := Qabs (inject_Z m)) in *. set (P := (2 ^ e)%Q) in *.
    set (T := (2 ^ 1024)%Q) in *. set (Y := (2 ^ 53)%Q) in *.
    set (Z9 := (2 ^ 971)%Q) in *. nra. }
  rewrite Hov.
  replace (Qeq_bool r q) with true; [reflexivity|].
  symmetry. now apply Qeq_bool_iff.
Qed.

Lemma nearest_exact (q : Q) : representable q -> nearest q = Fin q.
Proof.
  intros (m & e & Hm & He & Hq).
  destruct (Z.eq_dec (Z.abs m) (2 ^ 53)) as [Heq | Hne].
  - assert (Hcases : m = 2 ^ 53 \/ m = - 2 ^ 53) by lia.
    apply (nearest_exact_strict q (m / 2) (e + 1)); [| lia |].
    + destruct Hcases as [-> | ->]; reflexivity.
    + rewrite Hq, Qpow2_add. change (2 ^ 1)%Q with 2%Q.
      destruct Hcases as [-> | ->].
      * change (inject_Z (2 ^ 53)) with (inject_Z (2 ^ 53 / 2) * 2)%Q at 1.
        ring.
      * change (inject_Z (- 2 ^ 53)) with (inject_Z (- 2 ^ 53 / 2) * 2)%Q at 1.
        ring.
  - apply (nearest_exact_strict q m e); [lia | lia | exact Hq].
Qed.


Lemma fl_exact (q : Q) : representable q -> fl (Fin q) = Fin q.
Proof. apply nearest_exact. Qed.

(** ** The integers a double holds *)

Lemma is_count_small (x : Z) : Z.abs x <= 2 ^ 53 -> is_count x.
Proof. intros H. exists x, 0. repeat split; [exact H | lia | change (2 ^ 0) with 1; lia]. Qed.

Lemma is_count_opp (x : Z) : is_count x -> is_count (- x).
Proof.
  intros (m & e & Hm & He & ->). exists (- m), e.
  repeat split; [lia | exact He | ring].
Qed.

Lemma is_count_abs (x : Z) : is_count x -> is_count (Z.abs x).
Proof.
  intros H. destruct (Z.abs_spec x) as [[_ ->] | [_ ->]];
    [exact H | now apply is_count_opp].
Qed.

Lemma is_count_shift (x k : Z) : is_count x -> 0 <= k -> is_count (x * 2 ^ k).
Proof.
  intros (m & e & Hm & He & ->) Hk. exists m, (e + k).
  repeat split; [exact Hm | lia |]. rewrite Z.pow_add_r by lia. ring.
Qed.

Lemma is_count_pow2 (k : Z) : 0 <= k -> is_count (2 ^ k).
Proof.
  intros Hk. exists 1, k.
  repeat split; [change (2 ^ 53) with 9007199254740992; lia | exact Hk | lia].
Qed.

Lemma small_count_in_range (t : dtype) (i f x : Z) :
  Z.abs x <= 2 ^ 53 -> in_range t i f x -> count_in_range t i f x.
Proof. intros H Hr. split; [now apply is_count_small | exact Hr]. Qed.

Ltac small_count :=
  apply small_count_in_range;
  [vm_compute; discriminate | unfold in_range; simpl; lia].

(** A count of at most 200 bits on a grid of the exponent range is a
    double. *)
Lemma representable_grid (x s : Z) (q : Q) :
  is_count x -> Z.abs x < 2 ^ 200 -> -200 <= s <= 200 ->
  (q == inject_Z x * 2 ^ s)%Q -> representable q.
Proof.
  intros (m & e & Hm & He & ->) Hx Hs Hq.
  destruct (Z.eq_dec m 0) as [-> | Hm0].
  - exists 0, 0. repeat split; try lia.
    rewrite Hq. rewrite Z.mul_0_l. change (inject_Z 0) with 0%Q. ring.
  - assert (He' : e < 200).
    { destruct (Z.lt_ge_cases e 200) as [H | H]; [exact H | exfalso].
      pose proof (pow2_le 200 e ltac:(lia)) as Hle.
      pose proof (pow2_pos 200 ltac:(lia)) as Hp.
      rewrite Z.abs_mul, (Z.abs_eq (2 ^ e)) in Hx by lia. nia. }
    exists m, (e + s). repeat split; try lia.
    rewrite Hq, inject_Z_mult, <- Qpow2_inject, Qpow2_add by lia. ring.
Qed.

Lemma is_count_representable (x : Z) :
  is_count x -> Z.abs x < 2 ^ 200 -> representable (inject_Z x).
Proof.
  intros Hc Hx. apply (representable_grid x 0); try assumption; [lia|].
  change (2 ^ 0)%Q with 1%Q. ring.
Qed.

Lemma cast_exact (x : Z) : is_count x -> Z.abs x < 2 ^ 200 -> cast x = of_int x.
Proof.
  intros Hc Hx. unfold cast, of_int. apply fl_exact.
  now apply is_count_representable.
Qed.

Lemma cast_small (x : Z) : Z.abs x <= 2 ^ 53 -> cast x = of_int x.
Proof.
  intros H. apply cast_exact; [now apply is_count_small|].
  pose proof (pow2_lt 53 200 ltac:(lia)). lia.
Qed.

Lemma cast_pow2 (k : Z) : 0 <= k <= 128 -> cast (2 ^ k) = of_int (2 ^ k).
Proof.
  intros H. apply cast_exact; [apply is_count_pow2; lia|].
  pose proof (pow2_pos k ltac:(lia)). pose proof (pow2_lt k 200 ltac:(lia)).
  lia.
Qed.

Lemma cast_opp_pow2 (k : Z) : 0 <= k <= 128 -> cast (- 2 ^ k) = of_int (- 2 ^ k).
Proof.
  intros H. apply cast_exact; [apply is_count_opp, is_count_pow2; lia|].
  pose proof (pow2_pos k ltac:(lia)). pose proof (pow2_lt k 200 ltac:(lia)).
  lia.
Qed.

Lemma top_count_narrow (n : Z) : n <= 53 -> top_count n = 2 ^ n - 1.
Proof.
  intros H. unfold top_count.
  now replace (n <=? 53) with true by (symmetry; apply Z.leb_le; lia).
Qed.

Lemma top_count_wide (n : Z) : 53 < n -> top_count n = 2 ^ n.
Proof.
  intros H. unfold top_count.
  now replace (n <=? 53) with false by (symmetry; apply Z.leb_gt; lia).
Qed.

(** The conversion behind the positive bound. *)
Lemma cast_top (n : Z) : 0 <= n <= 62 -> cast (2 ^ n - 1) = of_int (top_count n).
Proof.
  intros H. destruct (Z.le_gt_cases n 53) as [Hn | Hn].
  - rewrite top_count_narrow by exact Hn. apply cast_small.
    pose proof (pow2_pos n ltac:(lia)). pose proof (pow2_le n 53 ltac:(lia)).
    lia.
  - assert (Hc : n = 54 \/ n = 55 \/ n = 56 \/ n = 57 \/ n = 58 \/ n = 59
                 \/ n = 60 \/ n = 61 \/ n = 62) by lia.
    repeat (destruct Hc as [-> | Hc]); try subst n; vm_compute; reflexivity.
Qed.

Lemma top_count_bounds (n : Z) :
  0 <= n -> 0 <= top_count n <= 2 ^ n /\ is_count (top_count n).
Proof.
  intros H. pose proof (pow2_pos n H) as Hp.
  destruct (Z.le_gt_cases n 53) as [Hn | Hn].
  - rewrite top_count_narrow by exact Hn. split; [lia|].
    apply is_count_small. pose proof (pow2_le n 53 ltac:(lia)). lia.
  - rewrite top_count_wide by exact Hn. split; [lia|].
    now apply is_count_pow2.
Qed.

(** A count that leaves the range keeps its 53 bits through the modular
    reduction: the bits above the modulus go, those below stay. *)
Lemma reduce_is_count (c x n L k : Z) :
  0 <= n <= L -> is_count c ->
  x = c + k * 2 ^ L -> Z.abs x <= 2 ^ n ->
  x = c \/ 2 ^ n <= Z.abs c ->
  is_count x.
Proof.
  intros Hn Hc Hx Hr [-> | Hout]; [exact Hc|].
  destruct Hc as (m & e & Hm & He & Hce).
  pose proof (pow2_pos n ltac:(lia)) as Hpn.
  pose proof (pow2_pos e He) as Hpe.
  pose proof (pow2_pos L ltac:(lia)) as HpL.
  pose proof (pow2_le n L Hn) as HnL.
  destruct (Z.le_gt_cases L e) as [HLe | HLe].
  - (* the whole count is a multiple of the modulus *)
    assert (E : 2 ^ e = 2 ^ (e - L) * 2 ^ L)
      by (rewrite <- Z.pow_add_r by lia; f_equal; lia).
    set (j := m * 2 ^ (e - L) + k).
    assert (Hxj : x = j * 2 ^ L) by (subst j; rewrite Hx, Hce, E; ring).
    exists j, L. repeat split; [|lia|exact Hxj].
    assert (Z.abs j <= 1).
    { rewrite Hxj, Z.abs_mul, (Z.abs_eq (2 ^ L)) in Hr by lia. nia. }
    change (2 ^ 53) with 9007199254740992. lia.
  - assert (E : 2 ^ L = 2 ^ (L - e) * 2 ^ e)
      by (rewrite <- Z.pow_add_r by lia; f_equal; lia).
    set (j := m + k * 2 ^ (L - e)).
    assert (Hxj : x = j * 2 ^ e) by (subst j; rewrite Hx, Hce, E; ring).
    exists j, e. repeat split; [|lia|exact Hxj].
    (* 2^n <= |m| 2^e <= 2^53 2^e, so n <= 53 + e *)
    assert (Hne : n <= 53 + e).
    { destruct (Z.le_gt_cases n (53 + e)) as [H | H]; [exact H | exfalso].
      pose proof (pow2_lt (53 + e) n ltac:(lia)) as Hlt.
      rewrite Z.pow_add_r in Hlt by lia.
      rewrite Hce, Z.abs_mul, (Z.abs_eq (2 ^ e)) in Hout by lia. nia. }
    rewrite Hxj, Z.abs_mul, (Z.abs_eq (2 ^ e)) in Hr by lia.
    destruct (Z.le_gt_cases e n) as [Hen | Hen].
    + assert (E2 : 2 ^ n = 2 ^ (n - e) * 2 ^ e)
        by (rewrite <- Z.pow_add_r by lia; f_equal; lia).
      pose proof (pow2_le (n - e) 53 ltac:(lia)) as H53.
      pose proof (pow2_pos (n - e) ltac:(lia)) as Hpne.
      nia.
    + pose proof (pow2_lt n e ltac:(lia)) as Hlt.
      assert (Z.abs j < 1) by nia.
      change (2 ^ 53) with 9007199254740992. lia.
Qed.

(** ** Rounding keeps the order *)

Lemma Qpow2_int (e : Z) : 0 <= e -> (2 ^ e)%Q = inject_Z (2 ^ e).
Proof.
  intros He. destruct e as [|p|p]; [reflexivity | | lia].
  assert (H : exists z, Qpower_positive 2 p = inject_Z z).
  { clear He. unfold Qpower_positive.
    induction p as [p IH | p IH |]; simpl.
    - destruct IH as [z IH]. rewrite IH. eexists. reflexivity.
    - destruct IH as [z IH]. rewrite IH. eexists. reflexivity.
    - exists 2. reflexivity. }
  destruct H as [z Hz].
  change ((2 ^ Z.pos p)%Q) with (Qpower_positive 2 p). rewrite Hz. f_equal.
  apply (proj1 (inject_Z_injective _ _)).
  rewrite <- Hz. apply (Qpow2_inject (Z.pos p)). lia.
Qed.

Lemma round_even_between (q : Q) (lo hi : Z) :
  (inject_Z lo <= q)%Q -> (q <= inject_Z hi)%Q -> lo <= round_even q <= hi.
Proof.
  intros Hlo Hhi. unfold round_even.
  pose proof (Qfloor_le q) as Hf1. pose proof (Qlt_floor q) as Hf2.
  set (f := Qfloor q) in *.
  assert (Hlf : lo <= f).
  { assert (H : (inject_Z lo < inject_Z (f + 1))%Q) by lra.
    rewrite <- Zlt_Qlt in H. lia. }
  assert (Hfh : f <= hi).
  { assert (H : (inject_Z f <= inject_Z hi)%Q) by lra.
    rewrite <- Zle_Qle in H. exact H. }
  assert (Hup : (inject_Z f < q)%Q -> f + 1 <= hi).
  { intros H. assert (H' : (inject_Z f < inject_Z hi)%Q) by lra.
    rewrite <- Zlt_Qlt in H'. lia. }
  destruct (q - inject_Z f ?= 1 # 2)%Q eqn:E.
  - apply Qeq_alt in E. destruct (Z.even f); [lia|].
    assert (f + 1 <= hi) by (apply Hup; lra). lia.
  - lia.
  - apply Qgt_alt in E. assert (f + 1 <= hi) by (apply Hup; lra). lia.
Qed.

Lemma div_pow2_le (c h e : Z) :
  0 <= e -> c <= h * 2 ^ e -> (inject_Z c / 2 ^ e <= inject_Z h)%Q.
Proof.
  intros He H. apply Qle_shift_div_r; [apply Qpow2_pos|].
  rewrite Qpow2_inject, <- inject_Z_mult, <- Zle_Qle by exact He. exact H.
Qed.

Lemma div_pow2_ge (c l e : Z) :
  0 <= e -> l * 2 ^ e <= c -> (inject_Z l <= inject_Z c / 2 ^ e)%Q.
Proof.
  intros He H. apply Qle_shift_div_l; [apply Qpow2_pos|].
  rewrite Qpow2_inject, <- inject_Z_mult, <- Zle_Qle by exact He. exact H.
Qed.

(** A double of magnitude 2^k or more is a multiple of 2^(k-52). *)
Lemma is_count_grid (h k : Z) :
  is_count h -> 52 <= k -> 2 ^ k <= Z.abs h ->
  exists j, h = j * 2 ^ (k - 52).
Proof.
  intros (m & e & Hm & He & ->) Hk Hh.
  pose proof (pow2_pos e He) as Hpe.
  rewrite Z.abs_mul, (Z.abs_eq (2 ^ e)) in Hh by lia.
  destruct (Z.le_gt_cases (k - 52) e) as [Hle | Hgt].
  - exists (m * 2 ^ (e - (k - 52))).
    rewrite <- Z.mul_assoc, <- Z.pow_add_r by lia. do 2 f_equal. lia.
  - assert (E : 2 ^ k = 2 ^ (k - 53 - e) * 2 ^ 53 * 2 ^ e).
    { rewrite <- !Z.pow_add_r by lia. f_equal. lia. }
    pose proof (pow2_pos (k - 53 - e) ltac:(lia)) as Hp.
    assert (Hone : 2 ^ (k - 53 - e) = 1) by nia.
    assert (Habs : Z.abs m = 2 ^ 53) by nia.
    assert (Hke : k - 52 = e + 1).
    { destruct (Z.eq_dec (k - 53 - e) 0) as [H0 | H0]; [lia|].
      pose proof (pow2_lt 0 (k - 53 - e) ltac:(lia)) as Hlt.
      change (2 ^ 0) with 1 in Hlt. lia. }
    rewrite Hke, Z.pow_add_r by lia. change (2 ^ 1) with 2.
    exists (m / 2).
    assert (Hm2 : m = m / 2 * 2).
    { assert (Hc : m = 2 ^ 53 \/ m = - 2 ^ 53) by lia.
      destruct Hc as [-> | ->]; reflexivity. }
    rewrite Hm2 at 1. ring.
Qed.

(** The conversion of a 64-bit integer to [double] gives an integer that a
    double holds, on the same side of every double as the integer was. *)
Lemma cast_round (c : Z) :
  Z.abs c < 2 ^ 200 ->
  exists c',
    cast c = of_int c' /\ is_count c' /\
    forall lo hi, is_count lo -> is_count hi -> lo <= c <= hi -> lo <= c' <= hi.
Proof.
  intros Hc.
  destruct (Z.le_gt_cases (Z.abs c) (2 ^ 53)) as [Hsmall | Hbig].
  { exists c. split; [now apply cast_small|].
    split; [now apply is_count_small | auto]. }
  assert (Hpos : 0 < Z.abs c) by (change (2 ^ 53) with 9007199254740992 in Hbig; lia).
  pose proof (Z.log2_spec (Z.abs c) Hpos) as [Hk1 Hk2].
  pose proof (Z.log2_nonneg (Z.abs c)) as Hk0.
  set (k := Z.log2 (Z.abs c)) in *.
  replace (Z.succ k) with (k + 1) in Hk2 by lia.
  assert (Hk : 53 <= k).
  { destruct (Z.le_gt_cases 53 k) as [H | H]; [exact H | exfalso].
    pose proof (pow2_le (k + 1) 53 ltac:(lia)). lia. }
  assert (Hk200 : k < 200).
  { destruct (Z.lt_ge_cases k 200) as [H | H]; [exact H | exfalso].
    pose proof (pow2_le 200 k ltac:(lia)). lia. }
  set (e := k - 52).
  assert (He : 1 <= e) by (subst e; lia).
  pose proof (pow2_pos e ltac:(lia)) as Hpe.
  assert (E52 : 2 ^ k = 2 ^ 52 * 2 ^ e)
    by (rewrite <- Z.pow_add_r by lia; f_equal; subst e; lia).
  assert (E53 : 2 ^ (k + 1) = 2 ^ 53 * 2 ^ e)
    by (rewrite <- Z.pow_add_r by lia; f_equal; subst e; lia).
  set (m := round_even (inject_Z c / 2 ^ e)).
  change (2 ^ 53) with 9007199254740992 in *.
  change (2 ^ 52) with 4503599627370496 in *.
  assert (Hm : - 9007199254740992 <= m <= 9007199254740992).
  { apply round_even_between; [apply div_pow2_ge | apply div_pow2_le]; lia. }
  assert (Hbetween :
            forall lo hi, is_count lo -> is_count hi -> lo <= c <= hi ->
                          lo <= m * 2 ^ e <= hi).
  { intros lo hi Clo Chi [Hlo Hhi]. split.
    - destruct (Z.le_gt_cases (2 ^ k) (Z.abs lo)) as [Hg | Hs].
      + destruct (is_count_grid lo k Clo ltac:(lia) Hg) as [j Hj].
        fold e in Hj.
        assert (j <= m); [|nia].
        apply round_even_between with (hi := 9007199254740992);
          [apply div_pow2_ge | apply div_pow2_le]; lia.
      + assert (4503599627370496 <= m); [|nia].
        apply round_even_between with (hi := 9007199254740992);
          [apply div_pow2_ge | apply div_pow2_le]; lia.
    - destruct (Z.le_gt_cases (2 ^ k) (Z.abs hi)) as [Hg | Hs].
      + destruct (is_count_grid hi k Chi ltac:(lia) Hg) as [j Hj].
        fold e in Hj.
        assert (m <= j); [|nia].
        apply round_even_between with (lo := - 9007199254740992);
          [apply div_pow2_ge | apply div_pow2_le]; lia.
      + assert (m <= - 4503599627370496); [|nia].
        apply round_even_between with (lo := - 9007199254740992);
          [apply div_pow2_ge | apply div_pow2_le]; lia. }
  exists (m * 2 ^ e).
  split; [|split; [exists m, e; repeat split; lia | exact Hbetween]].
  unfold cast, fl, of_int, nearest.
  assert (Hc0 : Qeq_bool (inject_Z c) 0 = false).
  { destruct (Qeq_bool (inject_Z c) 0) eqn:E0; [exfalso | reflexivity].
    apply Qeq_bool_iff in E0. change 0%Q with (inject_Z 0) in E0.
    apply (proj1 (inject_Z_injective _ _)) in E0. lia. }
  rewrite Hc0.
  assert (Hlog : Qlog2 (inject_Z c) = k).
  { unfold Qlog2. cbn [Qnum Qden inject_Z].
    change (Z.log2 1) with 0. rewrite Z.sub_0_r. fold k.
    replace (Qle_bool (2 ^ k) (Qabs (inject_Z c))) with true; [reflexivity|].
    symmetry. apply Qle_bool_iff. rewrite Qpow2_inject by lia.
    change (Qabs (inject_Z c)) with (inject_Z (Z.abs c)).
    rewrite <- Zle_Qle. exact Hk1. }
  rewrite Hlog. rewrite Z.max_l by lia. fold e. fold m.
  rewrite (Qpow2_int e) by lia.
  change (inject_Z m * inject_Z (2 ^ e))%Q with (inject_Z (m * 2 ^ e)).
  assert (Hov : Qle_bool (2 ^ 1024) (Qabs (inject_Z (m * 2 ^ e))) = false).
  { destruct (Qle_bool (2 ^ 1024) (Qabs (inject_Z (m * 2 ^ e)))) eqn:Eo;
      [exfalso | reflexivity].
    apply Qle_bool_iff in Eo. rewrite Qpow2_inject in Eo by lia.
    change (Qabs (inject_Z (m * 2 ^ e))) with (inject_Z (Z.abs (m * 2 ^ e))) in Eo.
    rewrite <- Zle_Qle in Eo.
    pose proof (pow2_lt (k + 1) 1024 ltac:(lia)) as Hlt.
    rewrite Z.abs_mul, (Z.abs_eq (2 ^ e)) in Eo by lia. nia. }
  rewrite Hov.
  destruct (Qeq_bool (inject_Z (m * 2 ^ e)) (inject_Z c)) eqn:Eq; [|reflexivity].
  apply Qeq_bool_iff in Eq. apply (proj1 (inject_Z_injective _ _)) in Eq.
  now rewrite Eq.
Qed.

(** * The bounds calculator *)

Lemma set_bounds_closed (this : FXP) (t : tuple) :
  valid_widths t ->
  _set_bounds (_read_template this t) = Ok (with_bounds (_val this) t).
Proof.
  intros (Hi & Hf & Hs).
  destruct t as [i f ty om s r]; simpl in *.
  unfold _set_bounds, with_bounds, pinf_of, ninf_of, full_of, half_of; simpl.
  rewrite (shl64_one f) by lia; simpl. rewrite (cast_pow2 f) by lia.
  destruct ty; simpl;
    rewrite ?(shl64_one_wrap (i + f + 1)) by lia;
    rewrite ?(shl64_one (i + f)) by lia; simpl;
    try reflexivity;
    (destruct ((i <? 31) && (f <? 31)) eqn:E; simpl;
     [ rewrite ?(shl64_one (i + f)) by lia; simpl;
       rewrite sub64_pow2_one by lia;
       rewrite cast_top, ?(cast_pow2 (i + f)) by lia; simpl;
       rewrite ?Qeq_bool_inject_pow2 by lia; reflexivity
     | rewrite ?(shl64_one i) by lia; simpl;
       rewrite sub64_pow2_one by lia;
       rewrite cast_top, ?(cast_pow2 i) by lia; reflexivity ]).
Qed.




(** C1. The code of [operator>>] takes the minimum where the claim has a
    maximum: shifting the (7,1) value 39.5 right by 3 gives integerWidth 0
    instead of max(7 - 3, 0) = 4, and the real value 15/16 instead of
    39.5 / 8. *)
Theorem shr_takes_minimum :
  exists a r,
    FXP_ctor true (Fin (79 # 2)) cfg_7_1 = Ok a /\
    operator_shr true a 3 = Ok r /\
    intg r = 0 /\ Z.max (intg a - 3) 0 = 4 /\
    frac r = frac a + 3 /\
    deq (val r) (Fin (15 # 16)) = true /\
    deq (val r) (ddiv (val a) (of_int (2 ^ 3))) = false.
Proof.
  do 2 eexists. split; [vm_compute; reflexivity|].
  split; [vm_compute; reflexivity|].
  repeat split; vm_compute; reflexivity.
Qed.

(** C5. A 3-bit unsigned integer holding 3 plus a 3-bit signed integer
    holding -3, both FIXEDFRAC with the same policies, is a SignedInt of
    integerWidth 4 and fractionalWidth 0 with real value 0, in either operand
    order; UINT with INT promotes to INT both ways. *)
Theorem add_uint3_int3 (DEBUG s r : bool) :
  exists u i c,
    FXP_ctor DEBUG (of_int 3) (cfg_uint3 s r) = Ok u /\
    FXP_ctor DEBUG (of_int (-3)) (cfg_int3 s r) = Ok i /\
    operator_add DEBUG u i = Ok c /\
    operator_add DEBUG i u = Ok c /\
    type c = d_INT /\ intg c = 4 /\ frac c = 0 /\
    deq (val c) (of_int 0) = true /\
    add_type d_UINT d_INT = d_INT /\ add_type d_INT d_UINT = d_INT.
Proof.
  destruct DEBUG, s, r;
    (do 3 eexists; split; [vm_compute; reflexivity|];
     split; [vm_compute; reflexivity|];
     split; [vm_compute; reflexivity|];
     repeat split; vm_compute; reflexivity).
Qed.

(** * Integer literals *)

Lemma land_pow2_pred (k : Z) : 0 <= k -> Z.land (2 ^ k) (2 ^ k - 1) = 0.
Proof.
  intros H.
  replace (2 ^ k - 1) with (Z.ones k) by (rewrite Z.ones_equiv; lia).
  rewrite Z.land_ones by lia.
  apply Z.mod_same. pose proof (pow2_pos k H). lia.
Qed.

Lemma ilog2_pow2 (k : Z) : 0 <= k -> ilog2 (2 ^ k) = Ok k.
Proof.
  intros H. unfold ilog2. pose proof (pow2_pos k H).
  replace (0 <? 2 ^ k) with true by (symmetry; apply Z.ltb_lt; lia).
  now rewrite Z.log2_pow2.
Qed.

Lemma ilog2_pos (b : Z) : 0 < b -> ilog2 b = Ok (Z.log2 b).
Proof.
  intros H. unfold ilog2.
  now replace (0 <? b) with true by (symmetry; apply Z.ltb_lt; lia).
Qed.

Lemma mul_int_pow2_pos (DEBUG : bool) (a : FXP) (k : Z) :
  0 <= k <= 30 -> operator_mul_int DEBUG a (2 ^ k) = operator_shl DEBUG a k.
Proof.
  intros H. unfold operator_mul_int.
  pose proof (pow2_pos k ltac:(lia)).
  pose proof (pow2_lt k 31 ltac:(lia)).
  replace (2 ^ k =? 0) with false by (symmetry; apply Z.eqb_neq; lia).
  replace (0 <? 2 ^ k) with true by (symmetry; apply Z.ltb_lt; lia).
  rewrite wrap32_small by lia.
  rewrite land_pow2_pred by lia. simpl.
  now rewrite ilog2_pow2 by lia.
Qed.

Lemma mul_int_pow2_neg (DEBUG : bool) (a : FXP) (k : Z) :
  0 <= k <= 30 -> operator_mul_int DEBUG a (- 2 ^ k) = operator_shl DEBUG a k.
Proof.
  intros H. unfold operator_mul_int.
  pose proof (pow2_pos k ltac:(lia)).
  pose proof (pow2_lt k 31 ltac:(lia)).
  replace (- 2 ^ k =? 0) with false by (symmetry; apply Z.eqb_neq; lia).
  replace (0 <? - 2 ^ k) with false by (symmetry; apply Z.ltb_ge; lia).
  rewrite Z.opp_involutive.
  rewrite (wrap32_small (2 ^ k)) by lia.
  rewrite wrap32_small by lia.
  rewrite land_pow2_pred by lia. simpl.
  now rewrite ilog2_pow2 by lia.
Qed.

Lemma mul_negative_pow2_sign_helper (DEBUG : bool) (a : FXP) (b : Z) :
  - 2 ^ 31 < b < 0 ->
  is_pow2 b ->
  operator_mul_int DEBUG a b = operator_shl DEBUG a (Z.log2 (- b)) /\
  operator_mul_int DEBUG a b = operator_mul_int DEBUG a (- b).
Proof.
  intros Hb (k & Hk & Habs).
  rewrite Z.abs_neq in Habs by lia.
  assert (Hk30 : k <= 30).
  { destruct (Z.le_gt_cases k 30) as [|Hgt]; [assumption|].
    pose proof (pow2_le 31 k ltac:(lia)). lia. }
  replace b with (- 2 ^ k) by lia.
  rewrite Z.opp_involutive, Z.log2_pow2 by lia.
  rewrite mul_int_pow2_neg, mul_int_pow2_pos by lia. now split.
Qed.



Lemma land_pred_zero_pow2 (b : Z) :
  0 < b -> Z.land b (b - 1) = 0 -> b = 2 ^ Z.log2 b.
Proof.
  intros Hb Hl.
  destruct (Z.log2_spec b Hb) as [Hlo Hhi].
  destruct (Z.eq_dec b (2 ^ Z.log2 b)) as [|Hne]; [assumption|exfalso].
  assert (Hk : 0 <= Z.log2 b) by apply Z.log2_nonneg.
  pose proof (pow2_pos _ Hk) as Hp.
  assert (Hlog : Z.log2 (b - 1) = Z.log2 b).
  { apply Z.log2_unique; [assumption|].
    rewrite <- Z.add_1_r in Hhi |- *. lia. }
  assert (Hbit : Z.testbit (Z.land b (b - 1)) (Z.log2 b) = true).
  { rewrite Z.land_spec, (Z.bit_log2 b Hb).
    pose proof (Z.bit_log2 (b - 1) ltac:(lia)) as Hb1.
    rewrite Hlog in Hb1. now rewrite Hb1. }
  rewrite Hl, Z.bits_0 in Hbit. discriminate.
Qed.

Lemma mul_int_test_pos (b : Z) :
  0 < b < 2 ^ 31 -> ~ is_pow2 b -> (Z.land b (wrap32 (b - 1)) =? 0) = false.
Proof.
  intros Hb Hn. rewrite wrap32_small by lia.
  apply Z.eqb_neq. intros Hl. apply Hn.
  exists (Z.log2 b). split; [apply Z.log2_nonneg|].
  rewrite Z.abs_eq by lia. apply land_pred_zero_pow2; [lia | assumption].
Qed.

Lemma mul_int_test_neg (b : Z) :
  - 2 ^ 31 < b < 0 -> ~ is_pow2 b ->
  (Z.land (wrap32 (- b)) (wrap32 (wrap32 (- b) - 1)) =? 0) = false.
Proof.
  intros Hb Hn. rewrite (wrap32_small (- b)) by lia.
  rewrite wrap32_small by lia.
  apply Z.eqb_neq. intros Hl. apply Hn.
  exists (Z.log2 (- b)). split; [apply Z.log2_nonneg|].
  rewrite Z.abs_neq by lia. apply land_pred_zero_pow2; [lia | assumption].
Qed.

(** C4 (as amended). For a nonzero literal, add and subtract promote the
    literal (width 1 + floor(log2 |b|), no fraction, kind FLOAT beside a
    FLOAT operand, else UINT when b >= 0 and INT when b < 0) and dispatch
    through the value-by-value operator; multiply does the same for a literal
    that is not a power of two and is positive or meets a FLOAT operand; a
    literal whose magnitude is a power of two is multiplied by a left shift
    of log2 |b| instead. *)
Theorem scalar_literal_promotion (DEBUG : bool) (a : FXP) (b : Z) :
  b <> 0 ->
  - 2 ^ 31 < b < 2 ^ 31 ->
  operator_add_int DEBUG a b = (l <- promote DEBUG a b ;; _add DEBUG a l) /\
  operator_sub_int DEBUG a b = (l <- promote DEBUG a b ;; _sub DEBUG a l) /\
  (is_pow2 b ->
   operator_mul_int DEBUG a b = operator_shl DEBUG a (Z.log2 (Z.abs b))) /\
  (~ is_pow2 b -> 0 < b \/ type a = d_FLOAT ->
   operator_mul_int DEBUG a b = (l <- promote DEBUG a b ;; _mul DEBUG a l)).
Proof.
  intros Hnz Hr.
  assert (Hz : (b =? 0) = false) by (apply Z.eqb_neq; lia).
  destruct (Z.ltb_spec 0 b) as [Hpos | Hneg].
  - (* positive literal *)
    assert (Hle : (0 <=? b) = true) by (apply Z.leb_le; lia).
    assert (Hlt : (0 <? b) = true) by (apply Z.ltb_lt; lia).
    unfold operator_add_int, operator_sub_int, promote, promote_tuple.
    rewrite Hz, Hlt, Hle, Z.abs_eq, ilog2_pos by lia. simpl.
    repeat split.
    + destruct (dtype_eqb (type a) d_FLOAT); reflexivity.
    + destruct (dtype_eqb (type a) d_FLOAT); reflexivity.
    + intros (k & Hk & Habs). rewrite Z.abs_eq in Habs by lia. subst b.
      assert (k <= 30).
      { destruct (Z.le_gt_cases k 30) as [|Hgt]; [assumption|].
        pose proof (pow2_le 31 k ltac:(lia)). lia. }
      rewrite Z.log2_pow2 by lia. apply mul_int_pow2_pos. lia.
    + intros Hn _. unfold operator_mul_int.
      rewrite Hz, Hlt, mul_int_test_pos, ilog2_pos by (assumption || lia).
      simpl. destruct (dtype_eqb (type a) d_FLOAT); reflexivity.
  - (* negative literal *)
    assert (Hle : (0 <=? b) = false) by (apply Z.leb_gt; lia).
    assert (Hlt : (0 <? b) = false) by (apply Z.ltb_ge; lia).
    unfold operator_add_int, operator_sub_int, promote, promote_tuple.
    rewrite Hz, Hlt, Hle, Z.abs_neq, (wrap32_small (- b)), ilog2_pos by lia.
    simpl. repeat split.
    + destruct (dtype_eqb (type a) d_FLOAT); reflexivity.
    + destruct (dtype_eqb (type a) d_FLOAT); reflexivity.
    + intros Hp.
      destruct (mul_negative_pow2_sign_helper DEBUG a b) as [H _];
        [lia | assumption | exact H].
    + intros Hn [Hb | Hfl]; [lia|]. unfold operator_mul_int.
      rewrite Hz, Hlt, mul_int_test_neg by (assumption || lia).
      rewrite (wrap32_small (- b)), ilog2_pos by lia. simpl.
      rewrite Hfl. reflexivity.
Qed.

Lemma scalar_literal_promotion_witness :
  operator_add_int true var_3 5 = (l <- promote true var_3 5 ;; _add true var_3 l) /\
  operator_sub_int true var_3 5 = (l <- promote true var_3 5 ;; _sub true var_3 l) /\
  (is_pow2 5 ->
   operator_mul_int true var_3 5 = operator_shl true var_3 (Z.log2 (Z.abs 5))) /\
  (~ is_pow2 5 -> 0 < 5 \/ type var_3 = d_FLOAT ->
   operator_mul_int true var_3 5 = (l <- promote true var_3 5 ;; _mul true var_3 l)).
Proof.
  apply (scalar_literal_promotion true var_3 5); lia.
Defined.

(** C4 (as stated) fails for multiplication: the literal 4 is not promoted
    but turned into a left shift by 2, whose result (widths 11 and 3) is not
    the one of the value-by-value product with the promoted literal (widths
    12 and 5). *)
Lemma scalar_mul_pow2_counterexample :
  FXP_ctor true (Fin (-11123456789 # 1000000000)) cfg_9_5 = Ok var_3 /\
  operator_mul_int true var_3 4 = operator_shl true var_3 2 /\
  operator_mul_int true var_3 4
  <> (l <- promote true var_3 4 ;; _mul true var_3 l).
Proof.
  split; [vm_compute; reflexivity|].
  split; [vm_compute; reflexivity|].
  intros H. vm_compute in H. congruence.
Qed.

(** * Rounding and flooring *)

Lemma Qtrunc_floor (q : Q) :
  Qtrunc q - (if Qlt_le_dec q (inject_Z (Qtrunc q)) then 1 else 0) = Qfloor q.
Proof.
  destruct q as [a d]. unfold Qtrunc, Qfloor. simpl Qnum. simpl Qden.
  destruct (Qlt_le_dec (a # d) (inject_Z (a ÷ Z.pos d))) as [H | H];
    unfold Qlt, Qle, inject_Z in H; simpl in H;
    Z.to_euclidean_division_equations; nia.
Qed.

Lemma Qtrunc_inject_Z (z : Z) : Qtrunc (inject_Z z) = z.
Proof. unfold Qtrunc, inject_Z. simpl. apply Z.quot_1_r. Qed.

Lemma Qtrunc_between (q : Q) :
  Qfloor q <= Qtrunc q <= Qfloor q + 1 /\ (0 < Qtrunc q -> Qtrunc q = Qfloor q).
Proof.
  destruct q as [a d]. unfold Qtrunc, Qfloor. simpl Qnum. simpl Qden.
  split; [|intros H]; Z.to_euclidean_division_equations; nia.
Qed.

Lemma dlt_Fin (a b : Q) :
  dlt (Fin a) (Fin b) = if Qlt_le_dec a b then true else false.
Proof.
  unfold dlt, dcompare.
  destruct (Qlt_le_dec a b) as [H | H]; destruct (Qcompare_spec a b) as [E | E | E];
    try reflexivity; exfalso; lra.
Qed.

Lemma dgt_Fin (a b : Q) :
  dgt (Fin a) (Fin b) = if Qlt_le_dec b a then true else false.
Proof.
  unfold dgt, dcompare.
  destruct (Qlt_le_dec b a) as [H | H]; destruct (Qcompare_spec a b) as [E | E | E];
    try reflexivity; exfalso; lra.
Qed.

Lemma dge_Fin (a b : Q) : dge (Fin a) (Fin b) = true <-> (b <= a)%Q.
Proof.
  unfold dge, dcompare.
  destruct (Qcompare_spec a b) as [E | E | E]; split; intros H;
    try reflexivity; try discriminate; lra.
Qed.


Lemma deq_Fin (a b : Q) : deq (Fin a) (Fin b) = true <-> (a == b)%Q.
Proof.
  unfold deq, dcompare.
  destruct (Qcompare_spec a b) as [E | E | E]; split; intros H;
    try reflexivity; try discriminate; lra.
Qed.

Lemma dsub_of_int (a b : Z) : dsub (of_int a) (of_int b) = of_int (a - b).
Proof.
  unfold dsub, dadd, dneg, of_int, inject_Z, Qplus, Qopp. simpl.
  f_equal. f_equal. lia.
Qed.


(** [fastfloor] is the floor wherever the conversion to [int64_t] is
    defined. *)
Lemma fastfloor_floor (q : Q) :
  fits_int64 (Qtrunc q) ->
  fastfloor (Fin q) = Ok (of_int (Qfloor q)).
Proof.
  intros [Hlo Hhi]. unfold fastfloor, to_int64.
  replace ((- 2 ^ 63 <=? Qtrunc q) && (Qtrunc q <? 2 ^ 63)) with true
    by (symmetry; apply andb_true_iff; split; [apply Z.leb_le | apply Z.ltb_lt]; lia).
  cbn [bind]. unfold of_int at 3. rewrite dlt_Fin, dsub_of_int.
  rewrite <- (Qtrunc_floor q).
  destruct (Qlt_le_dec q (inject_Z (Qtrunc q))); reflexivity.
Qed.

Lemma to_int64_of_int (z : Z) : fits_int64 z -> to_int64 (of_int z) = Ok z.
Proof.
  intros [Hlo Hhi]. unfold to_int64, of_int. rewrite Qtrunc_inject_Z.
  now replace ((- 2 ^ 63 <=? z) && (z <? 2 ^ 63)) with true
    by (symmetry; apply andb_true_iff; split; [apply Z.leb_le | apply Z.ltb_lt]; lia).
Qed.

Lemma fits_floor_trunc (q : Q) : fits_int64 (Qfloor q) -> fits_int64 (Qtrunc q).
Proof.
  unfold fits_int64. pose proof (Qtrunc_between q) as [H1 H2]. lia.
Qed.

(** The rounding step followed by the conversion to [int64_t]. *)
Lemma round_or_floor_count {A : Type} (this : FXP) (q : Q) (K : Z -> result A) :
  fits_int64 (count_of (rounding this) q) ->
  (temp <- round_or_floor this (Fin q) ;; t <- to_int64 temp ;; K t)
  = K (count_of (rounding this) q).
Proof.
  unfold round_or_floor, count_of. destruct (rounding this); intros H.
  - cbn [bind round]. now rewrite to_int64_of_int.
  - rewrite fastfloor_floor by now apply fits_floor_trunc.
    cbn [bind]. now rewrite to_int64_of_int.
Qed.

Lemma count_of_between (r : bool) (q : Q) (lo hi : Z) :
  (inject_Z lo <= q)%Q -> (q <= inject_Z hi)%Q ->
  lo <= count_of r q <= hi.
Proof.
  intros Hlo Hhi. unfold count_of, round_half_away.
  destruct r; [destruct (Qle_bool 0 q)|].
  - split.
    + rewrite <- (Qfloor_Z lo). apply Qfloor_resp_le. lra.
    + apply Z.lt_succ_r. rewrite Zlt_Qlt.
      eapply Qle_lt_trans; [apply Qfloor_le|].
      unfold Z.succ. rewrite inject_Z_plus. change (inject_Z 1) with 1%Q. lra.
  - split.
    + assert (H : lo - 1 < Qceiling (q - (1 # 2))); [|lia].
      rewrite Zlt_Qlt. eapply Qlt_le_trans; [|apply Qle_ceiling].
      replace (lo - 1) with (lo + -1) by lia.
      rewrite inject_Z_plus. change (inject_Z (-1)) with (-1 # 1)%Q. lra.
    + rewrite <- (Qceiling_Z hi). apply Qceiling_resp_le. lra.
  - split.
    + rewrite <- (Qfloor_Z lo). now apply Qfloor_resp_le.
    + rewrite <- (Qfloor_Z hi). now apply Qfloor_resp_le.
Qed.

Lemma count_of_integer (r : bool) (q : Q) (z : Z) :
  (q == inject_Z z)%Q -> count_of r q = z.
Proof.
  intros H. pose proof (count_of_between r q z z) as Hb.
  assert (z <= count_of r q <= z) by (apply Hb; rewrite H; apply Qle_refl).
  lia.
Qed.

(** * The modular reduction of [_to_signed] and [_to_unsigned] *)

Lemma signed_core (c n : Z) :
  0 <= n <= 62 -> fits_int64 c ->
  let H := 2 ^ n in
  let F := wrap64 (2 ^ (n + 1)) in
  let r := Z.rem (add64 c H) F in
  let r' := if r <? 0 then add64 r F else r in
  let x := sub64 r' H in
  F <> 0 /\ F <> -1 /\ - H <= x < H /\ exists k, x = c + k * 2 ^ (n + 1).
Proof.
  intros Hn Hc. unfold fits_int64 in Hc.
  destruct (Z.eq_dec n 62) as [-> | Hne].
  - (* the modulus 2^63 wraps to the most negative integer *)
    change (2 ^ 62) with 4611686018427387904.
    change (wrap64 (2 ^ (62 + 1))) with (-9223372036854775808).
    change (2 ^ (62 + 1)) with 9223372036854775808.
    cbv zeta. unfold add64, sub64.
    pose proof (wrap64_range (c + 4611686018427387904)) as Hy.
    destruct (wrap64_congr (c + 4611686018427387904)) as [k1 Hk1].
    set (y := wrap64 (c + 4611686018427387904)) in *.
    change (2 ^ 64) with 18446744073709551616 in Hk1.
    change (2 ^ 63) with 9223372036854775808 in Hy, Hc.
    assert (Hr : (y = -9223372036854775808 /\ Z.rem y (-9223372036854775808) = 0)
                 \/ (y <> -9223372036854775808 /\ Z.rem y (-9223372036854775808) = y)).
    { destruct (Z.eq_dec y (-9223372036854775808)) as [-> | Hy'].
      - left. split; reflexivity.
      - right. split; [assumption|]. apply Z.rem_small_iff; lia. }
    split; [lia|]. split; [lia|].
    destruct Hr as [[Hy0 ->] | [Hy0 ->]].
    + change (0 <? 0) with false. cbv iota.
      rewrite wrap64_small
        by (change (2 ^ 63) with 9223372036854775808; lia).
      split; [lia|]. exists (2 * k1 + 1). lia.
    + destruct (Z.ltb_spec y 0) as [Hneg | Hpos].
      * destruct (wrap64_congr (y + -9223372036854775808)) as [k2 Hk2].
        pose proof (wrap64_range (y + -9223372036854775808)) as Hw.
        change (2 ^ 64) with 18446744073709551616 in Hk2.
        change (2 ^ 63) with 9223372036854775808 in Hw.
        assert (k2 = 1) by lia. subst k2.
        rewrite Hk2.
        rewrite wrap64_small
          by (change (2 ^ 63) with 9223372036854775808; lia).
        split; [lia|]. exists (2 * k1 + 1). lia.
      * rewrite wrap64_small
          by (change (2 ^ 63) with 9223372036854775808; lia).
        split; [lia|]. exists (2 * k1). lia.
  - (* the modulus is 2^(n+1), at most 2^62 *)
    assert (Hn' : 0 <= n <= 61) by lia. clear Hn Hne.
    pose proof (pow2_pos n ltac:(lia)) as Hp.
    pose proof (pow2_le n 61 ltac:(lia)) as Hle.
    assert (HM : 2 ^ (n + 1) = 2 * 2 ^ n)
      by (rewrite Z.pow_add_r by lia; change (2 ^ 1) with 2; lia).
    assert (H64 : 2 ^ 64 = 2 ^ (n + 1) * 2 ^ (63 - n)).
    { rewrite <- Z.pow_add_r by lia. f_equal. lia. }
    change (2 ^ 61) with 2305843009213693952 in Hle.
    change (2 ^ 63) with 9223372036854775808 in Hc.
    cbv zeta. rewrite (wrap64_small (2 ^ (n + 1)))
      by (change (2 ^ 63) with 9223372036854775808; lia).
    unfold add64, sub64.
    pose proof (wrap64_range (c + 2 ^ n)) as Hy.
    destruct (wrap64_congr (c + 2 ^ n)) as [k1 Hk1].
    set (y := wrap64 (c + 2 ^ n)) in *.
    change (2 ^ 63) with 9223372036854775808 in Hy.
    set (M := 2 ^ (n + 1)) in *.
    pose proof (Z.quot_rem' y M) as Hqr.
    assert (Hrb : - M < Z.rem y M < M).
    { pose proof (Z.rem_bound_abs y M ltac:(lia)). lia. }
    set (r := Z.rem y M) in *. set (q := Z.quot y M) in *.
    split; [lia|]. split; [lia|].
    destruct (Z.ltb_spec r 0) as [Hneg | Hpos].
    + rewrite (wrap64_small (r + M))
        by (change (2 ^ 63) with 9223372036854775808; lia).
      rewrite wrap64_small
        by (change (2 ^ 63) with 9223372036854775808; lia).
      split; [lia|]. exists (k1 * 2 ^ (63 - n) + 1 - q). nia.
    + rewrite wrap64_small
        by (change (2 ^ 63) with 9223372036854775808; lia).
      split; [lia|]. exists (k1 * 2 ^ (63 - n) - q). nia.
Qed.

Lemma unsigned_core (c n : Z) :
  0 <= n <= 62 -> fits_int64 c ->
  let F := 2 ^ n in
  let x := reduce_unsigned c F in
  F <> 0 /\ F <> -1 /\ 0 <= x < F /\ exists k, x = c + k * F.
Proof.
  intros Hn Hc. unfold fits_int64 in Hc.
  pose proof (pow2_pos n ltac:(lia)) as Hp.
  pose proof (pow2_le n 62 ltac:(lia)) as Hle.
  change (2 ^ 62) with 4611686018427387904 in Hle.
  change (2 ^ 63) with 9223372036854775808 in Hc.
  cbv zeta. unfold reduce_unsigned, add64.
  set (M := 2 ^ n) in *.
  pose proof (Z.quot_rem' c M) as Hqr.
  pose proof (Z.rem_bound_abs c M ltac:(lia)) as Hrb.
  set (r := Z.rem c M) in *. set (q := Z.quot c M) in *.
  split; [lia|]. split; [lia|].
  destruct (Z.ltb_spec r 0) as [Hneg | Hpos].
  - rewrite wrap64_small by (change (2 ^ 63) with 9223372036854775808; lia).
    split; [lia|]. exists (1 - q). lia.
  - split; [lia|]. exists (- q). lia.
Qed.

Lemma stored_count_spec (t : dtype) (i f c : Z) :
  0 <= i + f <= 62 -> fits_int64 c ->
  in_range t i f (stored_count t i f c) /\
  exists k, stored_count t i f c = c + k * representable_count t i f.
Proof.
  intros Hn Hc. unfold in_range, stored_count, representable_count.
  destruct (is_unsigned t).
  - destruct (unsigned_core c (i + f) Hn Hc) as (_ & _ & Hr & Hk). now split.
  - destruct (signed_core c (i + f) Hn Hc) as (_ & _ & Hr & Hk). now split.
Qed.

Lemma stored_count_id (t : dtype) (i f c : Z) :
  0 <= i + f <= 62 -> in_range t i f c -> stored_count t i f c = c.
Proof.
  intros Hn Hc.
  pose proof (pow2_pos (i + f) ltac:(lia)) as Hp.
  pose proof (pow2_le (i + f) 62 ltac:(lia)) as Hle.
  change (2 ^ 62) with 4611686018427387904 in Hle.
  assert (Hfit : fits_int64 c).
  { unfold fits_int64. change (2 ^ 63) with 9223372036854775808.
    unfold in_range in Hc. destruct (is_unsigned t); lia. }
  destruct (stored_count_spec t i f c Hn Hfit) as [Hr [k Hk]].
  unfold in_range, representable_count in *.
  assert (HM : 2 ^ (i + f + 1) = 2 * 2 ^ (i + f))
    by (rewrite Z.pow_add_r by lia; change (2 ^ 1) with 2; lia).
  set (x := stored_count t i f c) in *.
  set (M := 2 ^ (i + f)) in *.
  destruct (Z.eq_dec k 0) as [-> | Hk0]; [lia | exfalso].
  assert (Hcases : k <= -1 \/ 1 <= k) by lia.
  destruct (is_unsigned t); destruct Hcases;
    [ assert (k * M <= - M) by nia | assert (M <= k * M) by nia
    | assert (k * (2 * M) <= - (2 * M)) by nia
    | assert (2 * M <= k * (2 * M)) by nia ]; lia.
Qed.

Lemma count_fits (t : dtype) (i f z : Z) :
  0 <= i + f < 63 -> in_range t i f z -> fits_int64 z.
Proof.
  intros Hn Hr. unfold fits_int64, in_range in *.
  pose proof (pow2_pos (i + f) ltac:(lia)).
  pose proof (pow2_le (i + f) 62 ltac:(lia)) as Hle.
  change (2 ^ 62) with 4611686018427387904 in Hle.
  change (2 ^ 63) with 9223372036854775808.
  destruct (is_unsigned t); lia.
Qed.

Lemma cast_fits (x : Z) : is_count x -> fits_int64 x -> cast x = of_int x.
Proof.
  intros Hc [Hlo Hhi]. apply cast_exact; [exact Hc|].
  pose proof (pow2_lt 63 200 ltac:(lia)). lia.
Qed.

(** Up to 53 bits every count of the range is a double. *)
Lemma narrow_is_count (t : dtype) (i f x : Z) :
  0 <= i + f <= 53 -> in_range t i f x -> is_count x.
Proof.
  intros Hn Hr. apply is_count_small.
  pose proof (pow2_pos (i + f) ltac:(lia)).
  pose proof (pow2_le (i + f) 53 ltac:(lia)).
  unfold in_range in Hr. destruct (is_unsigned t); lia.
Qed.

Lemma cast_stored (t : dtype) (i f c : Z) :
  0 <= i + f <= 62 -> fits_int64 c ->
  is_count (stored_count t i f c) ->
  cast (stored_count t i f c) = of_int (stored_count t i f c).
Proof.
  intros Hn Hc Hs. apply cast_fits; [exact Hs|].
  destruct (stored_count_spec t i f c Hn Hc) as [Hr _].
  apply (count_fits t i f); [lia | exact Hr].
Qed.

Lemma rem64_Ok (x y : Z) : y <> 0 -> y <> -1 -> rem64 x y = Ok (Z.rem x y).
Proof.
  intros H0 H1. unfold rem64.
  replace (y =? 0) with false by (symmetry; apply Z.eqb_neq; lia).
  replace (y =? -1) with false by (symmetry; apply Z.eqb_neq; lia).
  now rewrite andb_false_r.
Qed.

Lemma to_signed_closed (v0 : double) (t : tuple) (q : Q) :
  valid_widths t ->
  is_unsigned (Tuple.type t) = false ->
  fits_int64 (scaled_count (Tuple.rounding t) q (Tuple.frac t)) ->
  _to_signed (with_bounds v0 t) (Fin q)
  = Ok (set__val (with_bounds v0 t)
          (cast (stored_count (Tuple.type t) (Tuple.intg t) (Tuple.frac t)
                     (scaled_count (Tuple.rounding t) q (Tuple.frac t))))).
Proof.
  intros (Hi & Hf & Hs) Hu Hc.
  destruct (signed_core _ (Tuple.intg t + Tuple.frac t) ltac:(lia) Hc)
    as (HF0 & HF1 & _).
  unfold _to_signed, stored_count, reduce_signed.
  cbn [shift half full rounding with_bounds].
  unfold full_of, half_of. rewrite Hu.
  change (dmul (Fin q) (of_int (2 ^ Tuple.frac t)))
    with (Fin (q * inject_Z (2 ^ Tuple.frac t))).
  change (rounding (with_bounds v0 t)) with (Tuple.rounding t).
  rewrite (round_or_floor_count (with_bounds v0 t)) by exact Hc.
  change (count_of (rounding (with_bounds v0 t))
            (q * inject_Z (2 ^ Tuple.frac t)))
    with (scaled_count (Tuple.rounding t) q (Tuple.frac t)).
  rewrite rem64_Ok by assumption. reflexivity.
Qed.

Lemma to_unsigned_closed (v0 : double) (t : tuple) (q : Q) :
  valid_widths t ->
  is_unsigned (Tuple.type t) = true ->
  fits_int64 (scaled_count (Tuple.rounding t) q (Tuple.frac t)) ->
  _to_unsigned (with_bounds v0 t) (Fin q)
  = Ok (set__val (with_bounds v0 t)
          (cast (stored_count (Tuple.type t) (Tuple.intg t) (Tuple.frac t)
                     (scaled_count (Tuple.rounding t) q (Tuple.frac t))))).
Proof.
  intros (Hi & Hf & Hs) Hu Hc.
  destruct (unsigned_core _ (Tuple.intg t + Tuple.frac t) ltac:(lia) Hc)
    as (HF0 & HF1 & _).
  unfold _to_unsigned, stored_count, reduce_unsigned.
  cbn [shift half full rounding with_bounds].
  unfold full_of, half_of. rewrite Hu.
  change (dmul (Fin q) (of_int (2 ^ Tuple.frac t)))
    with (Fin (q * inject_Z (2 ^ Tuple.frac t))).
  rewrite (round_or_floor_count (with_bounds v0 t)) by exact Hc.
  change (count_of (rounding (with_bounds v0 t))
            (q * inject_Z (2 ^ Tuple.frac t)))
    with (scaled_count (Tuple.rounding t) q (Tuple.frac t)).
  rewrite rem64_Ok by assumption. reflexivity.
Qed.

(** * The quantizer in closed form *)

Lemma dge_zero (a : Q) : dge (Fin a) (of_int 0) = Qle_bool 0 a.
Proof.
  apply eq_true_iff_eq. unfold of_int. rewrite dge_Fin, Qle_bool_iff.
  reflexivity.
Qed.

Lemma sign_check (v : Q) (x : Z) :
  dge (dmul (Fin v) (of_int x)) (of_int 0) = Qle_bool 0 (v * inject_Z x).
Proof. apply dge_zero. Qed.

Lemma pinf_of_Fin (t : dtype) (i f : Z) :
  t <> d_FLOAT -> pinf_of t i f = Fin (pinf_Q i f).
Proof.
  intros H. unfold pinf_of, pinf_Q.
  replace (dtype_eqb t d_FLOAT) with false
    by (destruct t; try reflexivity; congruence).
  now destruct ((i <? 31) && (f <? 31)).
Qed.

Lemma ninf_of_Fin (t : dtype) (i f : Z) :
  t <> d_FLOAT -> ninf_of t i f = Fin (ninf_Q t i f).
Proof.
  intros H. unfold ninf_of, ninf_Q.
  replace (dtype_eqb t d_FLOAT) with false
    by (destruct t; try reflexivity; congruence).
  now destruct ((i <? 31) && (f <? 31)).
Qed.

(** The value left by the treatment of the infinities and of the overflow
    policy. *)
Lemma resolve_Fin (s : bool) (lo hi v : Q) :
  (let val := if deq (Fin v) inf then Fin hi else Fin v in
   let val := if deq val (dneg inf) then Fin lo else val in
   if s then
     let val := if dgt val (Fin hi) then Fin hi else val in
     if dlt val (Fin lo) then Fin lo else val
   else val)
  = Fin (if s then clamp lo hi v else v).
Proof.
  cbv zeta. change (deq (Fin v) inf) with false. cbv iota.
  change (deq (Fin v) (dneg inf)) with false. cbv iota.
  destruct s; [|reflexivity].
  unfold clamp. rewrite dgt_Fin.
  destruct (Qlt_le_dec hi v); rewrite dlt_Fin;
    match goal with |- context [Qlt_le_dec ?a ?b] => destruct (Qlt_le_dec a b) end;
    reflexivity.
Qed.

Lemma set_val_general (DEBUG : bool) (v0 : double) (t : tuple) (v : Q) :
  valid_widths t ->
  Tuple.type t <> d_FLOAT ->
  fits_int64 (scaled_count (Tuple.rounding t) (resolved t v) (Tuple.frac t)) ->
  _set_val DEBUG (with_bounds v0 t) (Fin v)
  = if DEBUG && negb (pre_checks t v) then Err Abort
    else if DEBUG
            && negb (dge (dmul (Fin v) (cast (quantized_count t v))) (of_int 0))
    then Err Abort
    else Ok (set__val (with_bounds v0 t) (cast (quantized_count t v))).
Proof.
  intros Hw Hty Hfit.
  pose proof Hw as (Hi & Hf & Hs).
  unfold _set_val.
  cbn [intg frac type sat pinf ninf with_bounds].
  replace (Tuple.intg t + Tuple.frac t <? 63) with true
    by (symmetry; apply Z.ltb_lt; lia).
  rewrite pinf_of_Fin, ninf_of_Fin by assumption.
  rewrite resolve_Fin. fold (resolved t v).
  unfold pre_checks, quantized_count.
  destruct (Tuple.type t) eqn:Ety; try congruence;
    cbn [is_int_kind is_unsigned dtype_eqb orb];
    rewrite ?dge_zero;
    rewrite <- ?Ety;
    rewrite ?to_signed_closed, ?to_unsigned_closed
      by (assumption || (rewrite Ety; reflexivity));
    rewrite ?Ety;
    destruct DEBUG;
    repeat match goal with
           | |- context [Z.eqb ?a ?b] => destruct (Z.eqb a b)
           | |- context [Qle_bool 0 (resolved ?a ?b)] =>
               destruct (Qle_bool 0 (resolved a b))
           end;
    cbn [bind assert_ _val set__val andb negb];
    repeat match goal with
           | |- context [dge ?a ?b] => destruct (dge a b)
           end; reflexivity.
Qed.

Lemma set_val_closed (DEBUG : bool) (v0 : double) (t : tuple) (v : Q) :
  valid_widths t ->
  Tuple.type t <> d_FLOAT ->
  fits_int64 (scaled_count (Tuple.rounding t) (resolved t v) (Tuple.frac t)) ->
  is_count (quantized_count t v) ->
  _set_val DEBUG (with_bounds v0 t) (Fin v)
  = if DEBUG && negb (checks t v) then Err Abort
    else Ok (set__val (with_bounds v0 t) (of_int (quantized_count t v))).
Proof.
  intros Hw Hty Hfit Hcount.
  pose proof Hw as (Hi & Hf & Hs).
  assert (Hcast : cast (quantized_count t v) = of_int (quantized_count t v))
    by (apply cast_stored; [lia | exact Hfit | exact Hcount]).
  rewrite set_val_general, Hcast, sign_check by assumption.
  change (checks t v)
    with (pre_checks t v && Qle_bool 0 (v * inject_Z (quantized_count t v))).
  destruct DEBUG; [|reflexivity].
  destruct (pre_checks t v); [|reflexivity].
  now destruct (Qle_bool 0 (v * inject_Z (quantized_count t v))).
Qed.

Lemma ctor_general (DEBUG : bool) (t : tuple) (v : Q) :
  valid_widths t ->
  Tuple.type t <> d_FLOAT ->
  fits_int64 (scaled_count (Tuple.rounding t) (resolved t v) (Tuple.frac t)) ->
  FXP_ctor DEBUG (Fin v) t
  = if DEBUG && negb (pre_checks t v) then Err Abort
    else if DEBUG
            && negb (dge (dmul (Fin v) (cast (quantized_count t v))) (of_int 0))
    then Err Abort
    else Ok (with_bounds (cast (quantized_count t v)) t).
Proof.
  intros Hw Hty Hfit. unfold FXP_ctor.
  rewrite set_bounds_closed by assumption. cbn [bind].
  now rewrite set_val_general by assumption.
Qed.

Lemma ctor_closed (DEBUG : bool) (t : tuple) (v : Q) :
  valid_widths t ->
  Tuple.type t <> d_FLOAT ->
  fits_int64 (scaled_count (Tuple.rounding t) (resolved t v) (Tuple.frac t)) ->
  is_count (quantized_count t v) ->
  FXP_ctor DEBUG (Fin v) t
  = if DEBUG && negb (checks t v) then Err Abort
    else Ok (with_bounds (of_int (quantized_count t v)) t).
Proof.
  intros Hw Hty Hfit Hcount. unfold FXP_ctor.
  rewrite set_bounds_closed by assumption. cbn [bind].
  now rewrite set_val_closed by assumption.
Qed.

Lemma Qsquare_nonneg (v : Q) : Qle_bool 0 (v * v) = true.
Proof. apply Qle_bool_iff. nra. Qed.

Lemma ctor_float_closed (DEBUG : bool) (t : tuple) (v : Q) :
  valid_widths t ->
  Tuple.type t = d_FLOAT ->
  FXP_ctor DEBUG (Fin v) t = Ok (with_bounds (Fin v) t).
Proof.
  intros Hw Hty. pose proof Hw as (Hi & Hf & Hs). unfold FXP_ctor.
  rewrite set_bounds_closed by assumption. cbn [bind].
  unfold _set_val. cbn [intg frac type sat pinf ninf with_bounds].
  replace (Tuple.intg t + Tuple.frac t <? 63) with true
    by (symmetry; apply Z.ltb_lt; lia).
  unfold pinf_of, ninf_of. rewrite Hty. cbn [dtype_eqb].
  change (deq (Fin v) inf) with false. cbv iota.
  change (deq (Fin v) (dneg inf)) with false. cbv iota.
  change (dgt (Fin v) PInf) with false. cbv iota.
  change (dlt (Fin v) NInf) with false. cbv iota.
  assert (Hsame : (if Tuple.sat t then Fin v else Fin v) = Fin v)
    by now destruct (Tuple.sat t).
  rewrite Hsame.
  destruct DEBUG; cbn [bind assert_ _val set__val];
    change (dmul (Fin v) (Fin v)) with (Fin (v * v));
    rewrite ?dge_zero, ?Qsquare_nonneg; reflexivity.
Qed.

(** * The bounds on the grid *)

Lemma inject_pow2_pos (f : Z) : 0 <= f -> (0 < inject_Z (2 ^ f))%Q.
Proof.
  intros H. change 0%Q with (inject_Z 0). rewrite <- Zlt_Qlt.
  now apply pow2_pos.
Qed.

Lemma bounds_counts (t : dtype) (i f : Z) :
  0 <= i -> 0 <= f ->
  (pinf_Q i f * inject_Z (2 ^ f) == inject_Z (pinf_count i f))%Q /\
  (ninf_Q t i f * inject_Z (2 ^ f) == inject_Z (ninf_count t i f))%Q /\
  ninf_count t i f <= 0 <= pinf_count i f /\
  (i + f <= 53 -> pinf_count i f < 2 ^ (i + f)) /\
  - 2 ^ (i + f) <= ninf_count t i f /\
  pinf_count i f <= 2 ^ (i + f) /\
  is_count (pinf_count i f).
Proof.
  intros Hi Hf.
  pose proof (inject_pow2_pos f Hf) as HS.
  pose proof (pow2_pos i Hi) as Hpi.
  pose proof (pow2_pos f Hf) as Hpf.
  pose proof (pow2_pos (i + f) ltac:(lia)) as Hpif.
  assert (Hadd : 2 ^ (i + f) = 2 ^ i * 2 ^ f) by (apply Z.pow_add_r; lia).
  destruct (top_count_bounds (i + f) ltac:(lia)) as [Htn Hcn].
  destruct (top_count_bounds i Hi) as [Hti Hci].
  assert (HN : (ninf_Q t i f * inject_Z (2 ^ f) == inject_Z (ninf_count t i f))%Q).
  { unfold ninf_Q, ninf_count, exact_ninf, approx_ninf.
    destruct ((i <? 31) && (f <? 31)); destruct (is_unsigned t);
      rewrite ?inject_Z_opp, ?Hadd, ?inject_Z_mult;
      try reflexivity; try (field; lra); try ring. }
  assert (Hn0 : - 2 ^ (i + f) <= ninf_count t i f <= 0)
    by (unfold ninf_count; destruct (is_unsigned t); lia).
  unfold pinf_Q, pinf_count.
  destruct ((i <? 31) && (f <? 31)).
  - split; [field; lra|]. split; [exact HN|]. split; [lia|].
    split; [intros Hn; rewrite top_count_narrow by exact Hn; lia|].
    split; [lia|]. split; [lia | exact Hcn].
  - split; [now rewrite inject_Z_mult|]. split; [exact HN|].
    split; [nia|].
    split; [intros Hn; rewrite top_count_narrow by lia; nia|].
    split; [lia|]. split; [nia|]. now apply is_count_shift.
Qed.

Lemma bounds_sign (t : dtype) (i f : Z) :
  0 <= i -> 0 <= f -> (ninf_Q t i f <= 0 /\ 0 <= pinf_Q i f)%Q.
Proof.
  intros Hi Hf.
  destruct (bounds_counts t i f Hi Hf) as (HP & HN & (Hn & Hp) & _).
  pose proof (inject_pow2_pos f Hf) as HS.
  rewrite Zle_Qle in Hn, Hp. change (inject_Z 0) with 0%Q in Hn, Hp.
  rewrite <- HN in Hn. rewrite <- HP in Hp.
  set (S := inject_Z (2 ^ f)) in *.
  split; nra.
Qed.

Lemma clamp_between (lo hi v : Q) :
  (lo <= hi)%Q -> (lo <= clamp lo hi v /\ clamp lo hi v <= hi)%Q.
Proof.
  intros H. unfold clamp.
  destruct (Qlt_le_dec hi v);
    match goal with |- context [Qlt_le_dec ?a ?b] => destruct (Qlt_le_dec a b) end;
    split; lra.
Qed.

Lemma clamp_sign (lo hi v : Q) :
  (lo <= 0)%Q -> (0 <= hi)%Q ->
  ((0 <= v -> 0 <= clamp lo hi v) /\ (v <= 0 -> clamp lo hi v <= 0))%Q.
Proof.
  intros Hlo Hhi. unfold clamp.
  destruct (Qlt_le_dec hi v);
    match goal with |- context [Qlt_le_dec ?a ?b] => destruct (Qlt_le_dec a b) end;
    split; intros; lra.
Qed.

Lemma clamp_inside (lo hi v : Q) :
  (lo <= v)%Q -> (v <= hi)%Q -> clamp lo hi v = v.
Proof.
  intros Hlo Hhi. unfold clamp.
  destruct (Qlt_le_dec hi v); [lra|].
  destruct (Qlt_le_dec v lo); [lra | reflexivity].
Qed.



(** * The counts a double holds *)

Lemma stored_is_count (t : dtype) (i f c : Z) :
  0 <= i + f <= 62 -> fits_int64 c -> is_count c ->
  (is_unsigned t = true -> 0 <= c \/ i + f <= 53) ->
  is_count (stored_count t i f c).
Proof.
  intros Hn Hfit Hc Hu.
  destruct (stored_count_spec t i f c Hn Hfit) as [Hr [k Hk]].
  pose proof (pow2_pos (i + f) ltac:(lia)) as Hp.
  destruct (is_unsigned t) eqn:Eu.
  - destruct (Hu eq_refl) as [H0 | Hnar];
      [|apply (narrow_is_count t i f); [lia | exact Hr]].
    unfold in_range, representable_count in *. rewrite Eu in *.
    apply (reduce_is_count c _ (i + f) (i + f) k); try assumption; try lia.
    destruct (Z.lt_ge_cases c (2 ^ (i + f))) as [Hin | Hout]; [left | right; lia].
    apply stored_count_id; [lia|]. unfold in_range. rewrite Eu. lia.
  - unfold in_range, representable_count in *. rewrite Eu in *.
    apply (reduce_is_count c _ (i + f) (i + f + 1) k); try assumption; try lia.
    destruct (Z.lt_ge_cases c (2 ^ (i + f))) as [Hin | Hout]; [|right; lia].
    destruct (Z.lt_ge_cases c (- 2 ^ (i + f))) as [Hlow | Hlow]; [right; lia|].
    left. apply stored_count_id; [lia|]. unfold in_range. rewrite Eu. lia.
Qed.

Lemma scaled_is_count (r : bool) (q : Q) (f : Z) :
  representable q -> 0 <= f <= 62 -> is_count (scaled_count r q f).
Proof.
  intros (m & e & Hm & He & Hq) Hf. unfold scaled_count.
  assert (Hs : (q * inject_Z (2 ^ f) == inject_Z m * 2 ^ (e + f))%Q)
    by (rewrite Hq, Qpow2_add, <- Qpow2_inject by lia; ring).
  destruct (Z.le_gt_cases 0 (e + f)) as [Hpos | Hneg].
  - rewrite (count_of_integer r _ (m * 2 ^ (e + f))).
    + exists m, (e + f). repeat split; [exact Hm | exact Hpos].
    + rewrite Hs, inject_Z_mult, <- Qpow2_inject by lia. reflexivity.
  - apply is_count_small.
    assert (Hsmall : (2 ^ (e + f) <= 1)%Q)
      by (change 1%Q with (2 ^ 0)%Q; apply Qpow2_le; lia).
    pose proof (Qpow2_pos (e + f)) as Hp.
    assert (HmQ : (- inject_Z (2 ^ 53) <= inject_Z m
                   /\ inject_Z m <= inject_Z (2 ^ 53))%Q).
    { rewrite <- inject_Z_opp, <- !Zle_Qle. lia. }
    assert (Hb : - 2 ^ 53 <= count_of r (q * inject_Z (2 ^ f)) <= 2 ^ 53).
    { apply count_of_between; rewrite Hs, ?inject_Z_opp;
        set (M := inject_Z m) in *; set (P := (2 ^ (e + f))%Q) in *;
        set (T := inject_Z (2 ^ 53)) in *; nra. }
    lia.
Qed.

Lemma bounds_representable (t : dtype) (i f : Z) :
  0 <= i -> 0 <= f -> i + f <= 62 ->
  representable (pinf_Q i f) /\ representable (ninf_Q t i f).
Proof.
  intros Hi Hf Hs.
  destruct (bounds_counts t i f Hi Hf)
    as (HP & HN & (Hn0 & Hp0) & _ & Hnl & Hpu & Hcp).
  pose proof (inject_pow2_pos f Hf) as HS.
  pose proof (pow2_pos (i + f) ltac:(lia)) as Hp.
  pose proof (pow2_le (i + f) 62 ltac:(lia)) as Hle.
  pose proof (pow2_lt 62 200 ltac:(lia)) as H200.
  assert (Hinv : (2 ^ (- f) == / inject_Z (2 ^ f))%Q)
    by (rewrite Qpower_opp, Qpow2_inject by lia; reflexivity).
  split.
  - apply (representable_grid (pinf_count i f) (- f));
      [exact Hcp | lia | lia |].
    rewrite Hinv, <- HP. field. lra.
  - apply (representable_grid (ninf_count t i f) (- f)); [| lia | lia |].
    + unfold ninf_count. destruct (is_unsigned t);
        [apply is_count_small; change (2 ^ 53) with 9007199254740992; lia|].
      apply is_count_opp, is_count_pow2. lia.
    + rewrite Hinv, <- HN. field. lra.
Qed.

Lemma resolved_representable (t : tuple) (v : Q) :
  valid_widths t -> representable v -> representable (resolved t v).
Proof.
  intros (Hi & Hf & Hs) Hv.
  destruct (bounds_representable (Tuple.type t) _ _ Hi Hf ltac:(lia))
    as [Hp Hn].
  unfold resolved, clamp. destruct (Tuple.sat t); [|exact Hv].
  destruct (Qlt_le_dec _ v);
    match goal with |- context [Qlt_le_dec ?a ?b] => destruct (Qlt_le_dec a b) end;
    assumption.
Qed.

(** A value inside the bounds is scaled to a count inside the counts of the
    bounds, which the modular reduction leaves alone unless it is the count
    2^(intg+frac) of a positive bound that was rounded up. *)
Lemma inside_count (t : tuple) (q : Q) :
  valid_widths t ->
  (ninf_Q (Tuple.type t) (Tuple.intg t) (Tuple.frac t) <= q)%Q ->
  (q <= pinf_Q (Tuple.intg t) (Tuple.frac t))%Q ->
  let c := scaled_count (Tuple.rounding t) q (Tuple.frac t) in
  ninf_count (Tuple.type t) (Tuple.intg t) (Tuple.frac t) <= c
    <= pinf_count (Tuple.intg t) (Tuple.frac t) /\
  fits_int64 c /\
  (c < 2 ^ (Tuple.intg t + Tuple.frac t) ->
   stored_count (Tuple.type t) (Tuple.intg t) (Tuple.frac t) c = c) /\
  ((0 <= q)%Q -> 0 <= c) /\ ((q <= 0)%Q -> c <= 0).
Proof.
  intros (Hi & Hf & Hs) Hlo Hhi c.
  destruct (bounds_counts (Tuple.type t) _ _ Hi Hf)
    as (HP & HN & (Hn & Hp) & _ & Hnl & Hpu & _).
  pose proof (inject_pow2_pos _ Hf) as HS.
  pose proof (pow2_le (Tuple.intg t + Tuple.frac t) 62 ltac:(lia)) as Hle.
  change (2 ^ 62) with 4611686018427387904 in Hle.
  assert (Hc : ninf_count (Tuple.type t) (Tuple.intg t) (Tuple.frac t) <= c
               <= pinf_count (Tuple.intg t) (Tuple.frac t)).
  { apply count_of_between.
    - rewrite <- HN. apply Qmult_le_compat_r; [assumption | lra].
    - rewrite <- HP. apply Qmult_le_compat_r; [assumption | lra]. }
  split; [exact Hc|]. split.
  { unfold fits_int64. change (2 ^ 63) with 9223372036854775808. lia. }
  split.
  { intros Hlt. apply stored_count_id; [lia|]. unfold in_range.
    unfold ninf_count in *. destruct (is_unsigned (Tuple.type t)); lia. }
  split; intros Hq.
  - apply (count_of_between _ _ 0 (pinf_count (Tuple.intg t) (Tuple.frac t))).
    + change (inject_Z 0) with 0%Q. apply Qmult_le_0_compat; lra.
    + rewrite <- HP. apply Qmult_le_compat_r; [assumption | lra].
  - apply (count_of_between _ _ (ninf_count (Tuple.type t) (Tuple.intg t) (Tuple.frac t)) 0).
    + rewrite <- HN. apply Qmult_le_compat_r; [assumption | lra].
    + change (inject_Z 0) with 0%Q.
      set (S := inject_Z (2 ^ Tuple.frac t)) in *. nra.
Qed.

(** The count between the counts of the bounds is stored between them: as
    it is, or, for the count 2^(intg+frac), as the count of the negative
    bound. *)
Lemma saturated_store (t : dtype) (i f c : Z) :
  0 <= i -> 0 <= f -> i + f < 63 ->
  ninf_count t i f <= c <= pinf_count i f ->
  let s := stored_count t i f c in
  ninf_count t i f <= s <= pinf_count i f /\
  (c < 2 ^ (i + f) -> s = c) /\
  (c = 2 ^ (i + f) -> s = ninf_count t i f).
Proof.
  intros Hi Hf Hs Hc s.
  destruct (bounds_counts t _ _ Hi Hf)
    as (_ & _ & (Hn & Hp) & _ & Hnl & Hpu & _).
  pose proof (pow2_pos (i + f) ltac:(lia)) as Hpos.
  pose proof (pow2_le (i + f) 62 ltac:(lia)) as Hle.
  change (2 ^ 62) with 4611686018427387904 in Hle.
  assert (Hfit : fits_int64 c)
    by (unfold fits_int64; change (2 ^ 63) with 9223372036854775808; lia).
  destruct (stored_count_spec t i f c ltac:(lia) Hfit) as [Hr [k Hk]].
  fold s in Hr, Hk.
  assert (Hid : c < 2 ^ (i + f) -> s = c).
  { intros Hlt. apply stored_count_id; [lia|]. unfold in_range.
    unfold ninf_count in *. destruct (is_unsigned t); lia. }
  assert (Htop : c = 2 ^ (i + f) -> s = ninf_count t i f).
  { intros Hc2. unfold in_range, representable_count, ninf_count in *.
    destruct (is_unsigned t).
    - assert (k = -1) by nia. subst k. lia.
    - rewrite Z.pow_add_r in Hk by lia. change (2 ^ 1) with 2 in Hk.
      assert (k = -1) by nia. subst k. lia. }
  split; [|split; assumption].
  destruct (Z.lt_ge_cases c (2 ^ (i + f))) as [Hlt | Hge].
  - rewrite (Hid Hlt). exact Hc.
  - rewrite Htop by lia. lia.
Qed.




Lemma ninf_Q_unsigned (ty : dtype) (i f : Z) :
  is_unsigned ty = true -> ninf_Q ty i f = 0%Q.
Proof.
  intros E. unfold ninf_Q, exact_ninf, approx_ninf. rewrite E.
  now destruct ((i <? 31) && (f <? 31)).
Qed.




Lemma val_with_bounds (x : Z) (t : tuple) :
  0 <= Tuple.frac t ->
  Tuple.type t <> d_FLOAT ->
  val (with_bounds (of_int x) t)
  = Fin (inject_Z x / inject_Z (2 ^ Tuple.frac t)).
Proof.
  intros Hf Hty. unfold val. cbn [type _val shift with_bounds].
  replace (dtype_eqb (Tuple.type t) d_FLOAT) with false
    by (destruct (Tuple.type t); try reflexivity; congruence).
  unfold of_int at 1. now apply ddiv_pow2.
Qed.

(** * Saturation *)




(** The excepted case of C6: a signed configuration of 60 bits, whose
    positive bound 2^30 - 2^-30 is rounded up to 2^30.  An input above it is
    clamped to 2^30, whose count 2^60 wraps to -2^60: the checked constructor
    aborts, and the unchecked one stores the most negative value. *)
Lemma saturate_wide_counterexample :
  let t := Tuple.Build 30 30 d_FXP FULL true false in
  valid_config t /\ Tuple.sat t = true /\
  deq (pinf_of d_FXP 30 30) (of_int (2 ^ 30)) = true /\
  FXP_ctor true (Fin 2000000000) t = Err Abort /\
  exists r, FXP_ctor false (Fin 2000000000) t = Ok r /\
            deq (val r) (of_int (- 2 ^ 30)) = true.
Proof.
  cbv zeta. split.
  { unfold valid_config, valid_widths; simpl.
    split; [lia | intros [H | H]; discriminate]. }
  split; [reflexivity|].
  split; [vm_compute; reflexivity|].
  split; [vm_compute; reflexivity|].
  eexists. split; [vm_compute; reflexivity | vm_compute; reflexivity].
Qed.

(** * Wraparound *)

Lemma resolved_nosat (t : tuple) (v : Q) :
  Tuple.sat t = false -> resolved t v = v.
Proof. intros H. unfold resolved. now rewrite H. Qed.

Lemma count_of_nonneg (r : bool) (q : Q) : (0 <= q)%Q -> 0 <= count_of r q.
Proof.
  intros H. apply (count_of_between r q 0 (Qceiling q)).
  - exact H.
  - apply Qle_ceiling.
Qed.

Lemma resolved_nonneg (t : tuple) (v : Q) :
  valid_widths t -> (0 <= v)%Q -> (0 <= resolved t v)%Q.
Proof.
  intros (Hi & Hf & _) Hv. unfold resolved. destruct (Tuple.sat t); [|exact Hv].
  destruct (bounds_sign (Tuple.type t) _ _ Hi Hf) as [Hn0 Hp0].
  now apply clamp_sign.
Qed.

Lemma resolved_unsigned_sat (t : tuple) (v : Q) :
  valid_widths t -> is_unsigned (Tuple.type t) = true -> Tuple.sat t = true ->
  (0 <= resolved t v)%Q.
Proof.
  intros (Hi & Hf & _) Hu Hsat. unfold resolved. rewrite Hsat.
  destruct (bounds_sign (Tuple.type t) _ _ Hi Hf) as [Hn0 Hp0].
  destruct (clamp_between _ _ v (Qle_trans _ _ _ Hn0 Hp0)) as [Hlo _].
  rewrite (ninf_Q_unsigned _ _ _ Hu) in Hlo at 1. exact Hlo.
Qed.

(** For the inputs of [stores_exactly] a double holds the count that is
    stored. *)
Lemma stores_is_count (DEBUG : bool) (t : tuple) (v : Q) :
  valid_widths t ->
  Tuple.type t <> d_FLOAT ->
  fits_int64 (scaled_count (Tuple.rounding t) (resolved t v) (Tuple.frac t)) ->
  stores_exactly DEBUG t v ->
  (DEBUG = true -> pre_checks t v = true) ->
  is_count (quantized_count t v).
Proof.
  intros Hw Hty Hfit Hst Hpre. pose proof Hw as (Hi & Hf & Hs).
  unfold quantized_count.
  destruct Hst as [E | [Hn | [Hrep Hu]]]; [congruence | |].
  - apply (narrow_is_count (Tuple.type t) (Tuple.intg t) (Tuple.frac t));
      [lia|]. apply stored_count_spec; [lia | exact Hfit].
  - apply stored_is_count; [lia | exact Hfit | |].
    + apply scaled_is_count; [|lia]. now apply resolved_representable.
    + intros Eu. left. apply count_of_nonneg.
      apply Qmult_le_0_compat;
        [|apply Qlt_le_weak, inject_pow2_pos; exact Hf].
      destruct (Hu Eu) as [Hsat | [Hv | HD]].
      * now apply resolved_unsigned_sat.
      * now apply resolved_nonneg.
      * specialize (Hpre HD). unfold pre_checks in Hpre. rewrite Eu in Hpre.
        apply andb_true_iff in Hpre as [_ Hpre]. now apply Qle_bool_iff.
Qed.

Lemma ctor_closed_Ok (DEBUG : bool) (t : tuple) (v : Q) (r : FXP) :
  valid_widths t ->
  Tuple.type t <> d_FLOAT ->
  fits_int64 (scaled_count (Tuple.rounding t) (resolved t v) (Tuple.frac t)) ->
  stores_exactly DEBUG t v ->
  FXP_ctor DEBUG (Fin v) t = Ok r ->
  r = with_bounds (of_int (quantized_count t v)) t /\
  (DEBUG = true -> checks t v = true).
Proof.
  intros Hw Hty Hfit Hst Hr.
  assert (Hpre : DEBUG = true -> pre_checks t v = true).
  { intros ->. rewrite ctor_general in Hr by assumption.
    destruct (pre_checks t v); [reflexivity | discriminate]. }
  pose proof (stores_is_count DEBUG t v Hw Hty Hfit Hst Hpre) as Hcount.
  rewrite ctor_closed in Hr by assumption.
  destruct DEBUG; destruct (checks t v); cbn [andb negb] in Hr;
    try discriminate; injection Hr as <-; split; auto; discriminate.
Qed.



(** Where C7 fails.  An unsigned kind of 54 bits, asserts compiled out,
    input -1: the count -1 wraps to 2^54 - 1, which the conversion to
    [double] that ends [_to_unsigned] rounds to 2^54, outside the range and
    not congruent to -1.  And an input whose count does not fit [int64_t]:
    the conversion to the integer is undefined. *)
Lemma wraparound_counterexample :
  (let t := Tuple.Build 54 0 d_UINT FULL false false in
   scaled_count false (-1) 0 = -1 /\
   exists r,
     FXP_ctor false (Fin (-1)) t = Ok r /\
     _val r = of_int (2 ^ 54) /\
     ~ count_in_range d_UINT 54 0 (2 ^ 54) /\
     ~ exists k, 2 ^ 54 = -1 + k * representable_count d_UINT 54 0) /\
  (forall DEBUG,
     FXP_ctor DEBUG (Fin (inject_Z (2 ^ 63)))
       (Tuple.Build 2 0 d_INT FULL false false) = Err Undefined).
Proof.
  split.
  - cbv zeta. split; [reflexivity|].
    eexists. split; [vm_compute; reflexivity|].
    split; [reflexivity|]. split.
    + intros [_ H]. unfold in_range in H. simpl in H. lia.
    + intros [k Hk].
      change (representable_count d_UINT 54 0) with 18014398509481984 in Hk.
      change (2 ^ 54) with 18014398509481984 in Hk. lia.
  - intros []; vm_compute; reflexivity.
Qed.

(** * Values on the grid *)

Lemma fits_int64_dec (z : Z) : {fits_int64 z} + {~ fits_int64 z}.
Proof.
  unfold fits_int64.
  destruct (Z_le_dec (- 2 ^ 63) z); destruct (Z_lt_dec z (2 ^ 63));
    (left; lia) || (right; lia).
Qed.

Lemma to_int64_unfit (q : Q) :
  ~ fits_int64 (Qtrunc q) -> to_int64 (Fin q) = Err Undefined.
Proof.
  intros H. unfold to_int64, fits_int64 in *.
  destruct (Z.leb_spec (- 2 ^ 63) (Qtrunc q));
    destruct (Z.ltb_spec (Qtrunc q) (2 ^ 63)); try reflexivity.
  exfalso. apply H. lia.
Qed.

Lemma round_or_floor_unfit {A : Type} (this : FXP) (q : Q) (K : Z -> result A) :
  ~ fits_int64 (count_of (rounding this) q) ->
  (temp <- round_or_floor this (Fin q) ;; t <- to_int64 temp ;; K t)
  = Err Undefined.
Proof.
  unfold round_or_floor, count_of. destruct (rounding this); intros H.
  - cbn [bind round]. unfold of_int. rewrite to_int64_unfit; [reflexivity|].
    now rewrite Qtrunc_inject_Z.
  - destruct (fits_int64_dec (Qtrunc q)) as [Hq | Hq].
    + rewrite fastfloor_floor by assumption. cbn [bind].
      unfold of_int. rewrite to_int64_unfit; [reflexivity|].
      now rewrite Qtrunc_inject_Z.
    + unfold fastfloor. now rewrite to_int64_unfit.
Qed.

Lemma set_val_unfit (DEBUG : bool) (v0 : double) (t : tuple) (v : Q) :
  valid_widths t ->
  Tuple.type t <> d_FLOAT ->
  ~ fits_int64 (scaled_count (Tuple.rounding t) (resolved t v) (Tuple.frac t)) ->
  exists e, _set_val DEBUG (with_bounds v0 t) (Fin v) = Err e.
Proof.
  intros Hw Hty Hfit.
  pose proof Hw as (Hi & Hf & Hs).
  unfold _set_val.
  cbn [intg frac type sat pinf ninf with_bounds].
  rewrite pinf_of_Fin, ninf_of_Fin by assumption.
  rewrite resolve_Fin. fold (resolved t v).
  assert (Hs' : forall q,
             q = resolved t v ->
             _to_signed (with_bounds v0 t) (Fin q) = Err Undefined).
  { intros q ->. unfold _to_signed. cbn [shift with_bounds].
    change (dmul (Fin (resolved t v)) (of_int (2 ^ Tuple.frac t)))
      with (Fin (resolved t v * inject_Z (2 ^ Tuple.frac t))).
    now rewrite round_or_floor_unfit. }
  assert (Hu' : forall q,
             q = resolved t v ->
             _to_unsigned (with_bounds v0 t) (Fin q) = Err Undefined).
  { intros q ->. unfold _to_unsigned. cbn [shift with_bounds].
    change (dmul (Fin (resolved t v)) (of_int (2 ^ Tuple.frac t)))
      with (Fin (resolved t v * inject_Z (2 ^ Tuple.frac t))).
    now rewrite round_or_floor_unfit. }
  destruct (Tuple.type t) eqn:Ety; try congruence;
    rewrite ?Hs', ?Hu' by reflexivity;
    destruct DEBUG;
    replace (Tuple.intg t + Tuple.frac t <? 63) with true
      by (symmetry; apply Z.ltb_lt; lia);
    try destruct (Tuple.frac t =? 0);
    try destruct (dge (Fin (resolved t v)) (of_int 0));
    cbn [bind assert_]; eexists; reflexivity.
Qed.

Lemma ctor_Ok_fits (DEBUG : bool) (t : tuple) (v : Q) (r : FXP) :
  valid_widths t ->
  Tuple.type t <> d_FLOAT ->
  FXP_ctor DEBUG (Fin v) t = Ok r ->
  fits_int64 (scaled_count (Tuple.rounding t) (resolved t v) (Tuple.frac t)).
Proof.
  intros Hw Hty Hr.
  destruct (fits_int64_dec
              (scaled_count (Tuple.rounding t) (resolved t v) (Tuple.frac t)))
    as [H | H]; [assumption | exfalso].
  unfold FXP_ctor in Hr. rewrite set_bounds_closed in Hr by assumption.
  cbn [bind] in Hr.
  destruct (set_val_unfit DEBUG (_val FXP_default) t v Hw Hty H) as [e He].
  rewrite He in Hr. discriminate.
Qed.

(** A value that lies on the grid of the configuration, inside its range
    (and inside its bounds when it saturates), with a count that a double
    holds, is stored as it is. *)
Lemma quantize_on_grid (DEBUG : bool) (t : tuple) (w : Q) (x : Z) :
  valid_widths t ->
  Tuple.type t <> d_FLOAT ->
  (w * inject_Z (2 ^ Tuple.frac t) == inject_Z x)%Q ->
  is_count x ->
  in_range (Tuple.type t) (Tuple.intg t) (Tuple.frac t) x ->
  (Tuple.sat t = true ->
   ninf_count (Tuple.type t) (Tuple.intg t) (Tuple.frac t) <= x
     <= pinf_count (Tuple.intg t) (Tuple.frac t)) ->
  (DEBUG = true ->
   (if is_int_kind (Tuple.type t) then Tuple.frac t =? 0 else true) = true) ->
  FXP_ctor DEBUG (Fin w) t = Ok (with_bounds (of_int x) t).
Proof.
  intros Hw Hty Hgrid Hcount Hrange Hsat Hkind.
  pose proof Hw as (Hi & Hf & Hs).
  pose proof (inject_pow2_pos _ Hf) as HS.
  pose proof (pow2_pos (Tuple.intg t + Tuple.frac t) ltac:(lia)) as Hp.
  pose proof (pow2_le (Tuple.intg t + Tuple.frac t) 62 ltac:(lia)) as Hle.
  change (2 ^ 62) with 4611686018427387904 in Hle.
  destruct (bounds_counts (Tuple.type t) _ _ Hi Hf) as (HP & HN & _).
  assert (Hres : resolved t w = w).
  { unfold resolved. destruct (Tuple.sat t); [|reflexivity].
    destruct (Hsat eq_refl) as [Hlo Hhi]. rewrite Zle_Qle in Hlo, Hhi.
    rewrite <- HN, <- Hgrid in Hlo. rewrite <- HP, <- Hgrid in Hhi.
    apply clamp_inside.
    - apply Qmult_le_r in Hlo; assumption.
    - apply Qmult_le_r in Hhi; assumption. }
  assert (Hc : scaled_count (Tuple.rounding t) (resolved t w) (Tuple.frac t) = x).
  { rewrite Hres. unfold scaled_count. now apply count_of_integer. }
  assert (Hfit : fits_int64 x).
  { unfold fits_int64. change (2 ^ 63) with 9223372036854775808.
    unfold in_range in Hrange.
    destruct (is_unsigned (Tuple.type t)); lia. }
  assert (Hq : quantized_count t w = x).
  { unfold quantized_count. rewrite Hc. apply stored_count_id; [lia | assumption]. }
  rewrite ctor_closed by (rewrite ?Hc, ?Hq; assumption).
  rewrite Hq.
  destruct DEBUG; [|reflexivity].
  assert (Hchk : checks t w = true); [|now rewrite Hchk].
  unfold checks. rewrite Hq, Hres.
  assert (Hx2 : (0 <= w * inject_Z x)%Q).
  { rewrite <- Hgrid. set (S := inject_Z (2 ^ Tuple.frac t)) in *. nra. }
  apply andb_true_iff. split; [apply andb_true_iff; split|].
  - now apply Hkind.
  - destruct (is_unsigned (Tuple.type t)) eqn:E; [|reflexivity].
    apply Qle_bool_iff. unfold in_range in Hrange. rewrite E in Hrange.
    destruct Hrange as [Hx0 _]. rewrite Zle_Qle in Hx0.
    change (inject_Z 0) with 0%Q in Hx0. rewrite <- Hgrid in Hx0.
    set (S := inject_Z (2 ^ Tuple.frac t)) in *. nra.
  - now apply Qle_bool_iff.
Qed.

Lemma quantized_count_facts (t : tuple) (v : Q) :
  valid_widths t ->
  Tuple.type t <> d_FLOAT ->
  fits_int64 (scaled_count (Tuple.rounding t) (resolved t v) (Tuple.frac t)) ->
  in_range (Tuple.type t) (Tuple.intg t) (Tuple.frac t)
    (quantized_count t v) /\
  (Tuple.sat t = true ->
   ninf_count (Tuple.type t) (Tuple.intg t) (Tuple.frac t)
     <= quantized_count t v <= pinf_count (Tuple.intg t) (Tuple.frac t)).
Proof.
  intros Hw Hty Hfit. pose proof Hw as (Hi & Hf & Hs).
  split.
  - unfold quantized_count. apply stored_count_spec; [lia | assumption].
  - intros Hsat.
    destruct (bounds_sign (Tuple.type t) _ _ Hi Hf) as [Hn0 Hp0].
    destruct (clamp_between _ _ v (Qle_trans _ _ _ Hn0 Hp0)) as [Hlo Hhi].
    assert (Hres : resolved t v
                   = clamp (ninf_Q (Tuple.type t) (Tuple.intg t) (Tuple.frac t))
                           (pinf_Q (Tuple.intg t) (Tuple.frac t)) v)
      by (unfold resolved; now rewrite Hsat).
    rewrite <- Hres in Hlo, Hhi.
    destruct (inside_count t (resolved t v) Hw Hlo Hhi) as (Hc & _).
    now apply saturated_store.
Qed.


(** * Idempotence *)



(** The constructor stores a count of the range for the inputs of
    [stores_exactly]. *)
Lemma stores_in_range (DEBUG : bool) (v : Q) (t : tuple) (r : FXP) :
  valid_widths t ->
  Tuple.type t <> d_FLOAT ->
  stores_exactly DEBUG t v ->
  FXP_ctor DEBUG (Fin v) t = Ok r ->
  r = with_bounds (of_int (quantized_count t v)) t /\
  is_count (quantized_count t v) /\
  in_range (Tuple.type t) (Tuple.intg t) (Tuple.frac t) (quantized_count t v) /\
  dlt (_val r) (of_int (2 ^ (Tuple.intg t + Tuple.frac t))) = true.
Proof.
  intros Hw Hty Hst Hr. pose proof Hw as (Hi & Hf & Hs).
  pose proof (ctor_Ok_fits DEBUG t v r Hw Hty Hr) as Hfit.
  assert (Hpre : DEBUG = true -> pre_checks t v = true).
  { intros ->. rewrite ctor_general in Hr by assumption.
    destruct (pre_checks t v); [reflexivity | discriminate]. }
  pose proof (stores_is_count DEBUG t v Hw Hty Hfit Hst Hpre) as Hcount.
  destruct (ctor_closed_Ok DEBUG t v r Hw Hty Hfit Hst Hr) as [-> _].
  destruct (quantized_count_facts t v Hw Hty Hfit) as [Hrange _].
  repeat split; try assumption.
  cbn [_val with_bounds]. unfold of_int. rewrite dlt_Fin.
  destruct (Qlt_le_dec _ _) as [H | H]; [reflexivity | exfalso].
  rewrite <- Zle_Qle in H. unfold in_range in Hrange.
  destruct (is_unsigned (Tuple.type t)); lia.
Qed.




(** Where C8 fails.  An unsigned kind of 54 bits, asserts compiled out,
    input -1: the count wraps to 2^54 - 1 and is stored as the double 2^54,
    so the value read back is 2^54, which quantized again wraps to 0. *)
Lemma quantize_idempotent_counterexample :
  let t := Tuple.Build 54 0 d_UINT FULL false false in
  exists r r',
    FXP_ctor false (Fin (-1)) t = Ok r /\
    val r = of_int (2 ^ 54) /\
    FXP_ctor false (val r) t = Ok r' /\
    val r' = of_int 0 /\
    r' <> r /\ operator_eq r' r = false.
Proof.
  cbv zeta. eexists. eexists.
  split; [vm_compute; reflexivity|].
  split; [vm_compute; reflexivity|].
  split; [vm_compute; reflexivity|].
  split; [vm_compute; reflexivity|].
  split; [discriminate | vm_compute; reflexivity].
Qed.

(** * Overflow *)




(** * Commutativity *)

Lemma dadd_comm (x y : double) : dadd x y = dadd y x.
Proof.
  destruct x as [[a d] | | |], y as [[b e] | | |]; try reflexivity.
  unfold dadd, Qplus. simpl. f_equal. f_equal; [lia | apply Pos.mul_comm].
Qed.

Lemma cmul_comm (a b : comparison) : cmul a b = cmul b a.
Proof. now destruct a, b. Qed.

Lemma dmul_comm (x y : double) : dmul x y = dmul y x.
Proof.
  destruct x as [[a d] | | |], y as [[b e] | | |]; try reflexivity;
    unfold dmul; try (now rewrite cmul_comm).
  unfold Qmult. simpl. f_equal. f_equal; [lia | apply Pos.mul_comm].
Qed.

Lemma add_type_comm (ta tb : dtype) : add_type ta tb = add_type tb ta.
Proof. now destruct ta, tb. Qed.


Lemma fixed_frac_comm (a b : FXP) : fixed_frac a b = fixed_frac b a.
Proof.
  unfold fixed_frac. destruct (type a), (type b); cbn;
    try reflexivity; apply Z.min_comm.
Qed.

Lemma add_widths_comm (a b : FXP) (om : modes) :
  add_widths a b om = add_widths b a om.
Proof.
  unfold add_widths.
  now rewrite (Z.max_comm (intg a)), (Z.max_comm (frac a)), fixed_frac_comm.
Qed.

Lemma mul_widths_comm (a b : FXP) (om : modes) :
  mul_widths a b om = mul_widths b a om.
Proof.
  unfold mul_widths.
  now rewrite (Z.max_comm (intg a)), (Z.add_comm (intg a)),
    (Z.add_comm (frac a)), fixed_frac_comm.
Qed.

Lemma compatible_sym (a b : FXP) : compatible a b -> compatible b a.
Proof. intros (H1 & H2 & H3 & H4). repeat split; auto; apply H4. Qed.

Lemma assert_compatible_ok (DEBUG : bool) (a b : FXP) :
  compatible a b -> assert_compatible DEBUG a b = Ok tt.
Proof.
  intros (H1 & H2 & H3 & H4). unfold assert_compatible.
  rewrite H1, H2, H3.
  replace (modes_eqb (opmode b) (opmode b)) with true
    by now destruct (opmode b).
  rewrite !eqb_reflx.
  assert (Hfl : (dtype_eqb (type a) d_FLOAT && dtype_eqb (type b) d_FLOAT)
                || (negb (dtype_eqb (type a) d_FLOAT)
                    && negb (dtype_eqb (type b) d_FLOAT)) = true).
  { destruct (type a) eqn:Ea, (type b) eqn:Eb; try reflexivity; exfalso;
      destruct H4 as [H4 H5];
      (specialize (H4 eq_refl); discriminate)
      || (specialize (H5 eq_refl); discriminate). }
  rewrite Hfl. now destruct DEBUG.
Qed.

Lemma both_float_comm (a b : FXP) :
  dtype_eqb (type a) d_FLOAT && dtype_eqb (type b) d_FLOAT
  = dtype_eqb (type b) d_FLOAT && dtype_eqb (type a) d_FLOAT.
Proof. apply andb_comm. Qed.

Lemma shifted_of_int_0 (z : Z) :
  fits_int64 z -> is_count z -> shifted (of_int z) 0 = Ok (of_int z).
Proof.
  intros H Hc. unfold shifted. rewrite to_int64_of_int by assumption.
  cbn [bind]. unfold shl64. cbn [Z.leb Z.ltb Z.compare andb].
  rewrite Z.shiftl_0_r, wrap64_small by exact H. cbn [bind].
  now rewrite cast_fits.
Qed.

(** The real sum the two operand orders hand to the constructor. *)
Lemma add_tempval_comm (a b : FXP) :
  well_formed a -> well_formed b -> compatible a b ->
  (if dtype_eqb (type a) d_FLOAT && dtype_eqb (type b) d_FLOAT then
     Ok (d_FLOAT, fl (dadd (_val a) (_val b)))
   else
     if frac b <=? frac a then
       s <- shifted (_val b) (frac a - frac b) ;;
       Ok (add_type (type a) (type b), ddiv (fl (dadd (_val a) s)) (shift a))
     else
       s <- shifted (_val a) (frac b - frac a) ;;
       Ok (add_type (type a) (type b), ddiv (fl (dadd (_val b) s)) (shift b)))
  = (if dtype_eqb (type b) d_FLOAT && dtype_eqb (type a) d_FLOAT then
       Ok (d_FLOAT, fl (dadd (_val b) (_val a)))
     else
       if frac a <=? frac b then
         s <- shifted (_val a) (frac b - frac a) ;;
         Ok (add_type (type b) (type a), ddiv (fl (dadd (_val b) s)) (shift b))
       else
         s <- shifted (_val b) (frac a - frac b) ;;
         Ok (add_type (type b) (type a), ddiv (fl (dadd (_val a) s)) (shift a))).
Proof.
  intros (ta & xa & [Hwa Hka] & -> & _ & Hza) (tb & xb & [Hwb Hkb] & -> & _ & Hzb) Hc.
  cbn [type frac _val shift with_bounds] in *.
  rewrite (andb_comm (dtype_eqb (Tuple.type ta) d_FLOAT)), (dadd_comm xb xa),
    (add_type_comm (Tuple.type tb)).
  destruct (dtype_eqb (Tuple.type tb) d_FLOAT
            && dtype_eqb (Tuple.type ta) d_FLOAT) eqn:Efl;
    [reflexivity|].
  cbv zeta.
  destruct (Z.leb_spec (Tuple.frac tb) (Tuple.frac ta)) as [Hba | Hba];
    destruct (Z.leb_spec (Tuple.frac ta) (Tuple.frac tb)) as [Hab | Hab];
    try reflexivity; [|lia].
  (* equal fractional widths *)
  assert (Hf : Tuple.frac ta = Tuple.frac tb) by lia.
  destruct Hc as (_ & _ & _ & Hfl). cbn [type with_bounds] in Hfl.
  assert (Hna : Tuple.type ta <> d_FLOAT).
  { intros E. pose proof (proj1 Hfl E) as E'. rewrite E, E' in Efl. discriminate. }
  assert (Hnb : Tuple.type tb <> d_FLOAT).
  { intros E. apply Hna. now apply Hfl. }
  destruct (Hza Hna) as (za & -> & Hca & Hra).
  destruct (Hzb Hnb) as (zb & -> & Hcb & Hrb).
  destruct Hwa as (Hia & Hfa & Hsa). destruct Hwb as (Hib & Hfb & Hsb).
  rewrite Hf, Z.sub_diag.
  rewrite !shifted_of_int_0
    by (assumption || (eapply count_fits; [|eassumption]; lia)).
  cbn [bind]. now rewrite (dadd_comm (of_int zb)).
Qed.

Lemma add_comm (DEBUG : bool) (a b : FXP) :
  well_formed a -> well_formed b -> compatible a b ->
  _add DEBUG a b = _add DEBUG b a.
Proof.
  intros Ha Hb Hc. unfold _add.
  rewrite !assert_compatible_ok by (assumption || now apply compatible_sym).
  cbn [bind]. unfold _add5.
  rewrite (add_tempval_comm a b Ha Hb Hc), (add_widths_comm a b).
  destruct Hc as (-> & -> & -> & _). reflexivity.
Qed.

Lemma mul_comm (DEBUG : bool) (a b : FXP) :
  compatible a b -> _mul DEBUG a b = _mul DEBUG b a.
Proof.
  intros Hc. unfold _mul.
  rewrite !assert_compatible_ok by (assumption || now apply compatible_sym).
  cbn [bind]. unfold _mul5.
  rewrite both_float_comm, (dmul_comm (_val a)), (add_type_comm (type a)),
    (Z.add_comm (frac a)), (mul_widths_comm a b).
  destruct Hc as (-> & -> & -> & _). reflexivity.
Qed.

(** * Results are never NaN *)

Lemma shl64_one_nonzero (n s : Z) : shl64 1 n = Ok s -> s <> 0.
Proof.
  intros H. apply shl64_Ok in H as [Hn ->].
  destruct (wrap64_congr (1 * 2 ^ n)) as [k Hk]. rewrite Hk.
  pose proof (pow2_pos n ltac:(lia)).
  pose proof (pow2_le n 63 ltac:(lia)) as Hle.
  change (2 ^ 63) with 9223372036854775808 in Hle.
  change (2 ^ 64) with 18446744073709551616. lia.
Qed.

Lemma shl64_one_cast (n s : Z) : shl64 1 n = Ok s -> cast s = of_int s.
Proof.
  intros H. pose proof (shl64_Ok _ _ _ H) as [Hn _].
  destruct (Z.eq_dec n 63) as [-> | Hne].
  - rewrite shl64_one_63 in H. injection H as <-. apply (cast_opp_pow2 63). lia.
  - rewrite shl64_one in H by lia. injection H as <-. apply cast_pow2. lia.
Qed.

(** The conversion of a 64-bit integer to [double] is finite. *)
Lemma cast_finite (z : Z) : fits_int64 z -> exists z', cast z = of_int z'.
Proof.
  intros [H1 H2]. pose proof (pow2_lt 63 200 ltac:(lia)) as H200.
  destruct (cast_round z ltac:(lia)) as (z' & Hz & _). eauto.
Qed.

Lemma set_bounds_inv (this b : FXP) :
  _set_bounds this = Ok b ->
  type b = type this /\
  (exists s, shift b = of_int s /\ s <> 0) /\
  (type this = d_FLOAT -> pinf b = PInf /\ ninf b = NInf).
Proof.
  unfold _set_bounds. intros H.
  destruct (shl64 1 (frac this)) as [s|] eqn:Es; cbn [bind] in H;
    [|discriminate].
  pose proof (shl64_one_nonzero _ _ Es) as Hs.
  pose proof (shl64_one_cast _ _ Es) as Hc.
  invert_Ok; cbn;
    (split; [reflexivity|]; split; [now exists s|]);
    intros Hfl; try (split; reflexivity);
    cbn in *; rewrite Hfl in *; discriminate.
Qed.











Lemma ddiv_pow2_Fin (a : Q) (n : Z) :
  0 <= n ->
  ddiv (Fin a) (Fin (inject_Z (2 ^ n))) = Fin (a / inject_Z (2 ^ n)).
Proof. apply ddiv_pow2. Qed.


Lemma shifted_inv (x s : double) (n : Z) :
  shifted x n = Ok s -> exists z, s = of_int z.
Proof.
  unfold shifted. intros H. invert_Ok.
  match goal with E : shl64 _ _ = Ok _ |- _ => apply shl64_Ok in E as [_ ->] end.
  apply cast_finite, wrap64_range.
Qed.



Lemma add_type_not_float (ta tb : dtype) : add_type ta tb <> d_FLOAT.
Proof. destruct ta, tb; discriminate. Qed.



(** * Rounding is symmetric *)






Lemma Qeq_bool_comp (a b a' b' : Q) :
  (a == a')%Q -> (b == b')%Q -> Qeq_bool a b = Qeq_bool a' b'.
Proof.
  intros Ha Hb. apply eq_true_iff_eq. rewrite !Qeq_bool_iff.
  now rewrite Ha, Hb.
Qed.


Lemma representable_comp (q q' : Q) :
  (q == q')%Q -> representable q -> representable q'.
Proof. intros H (m & e & Hm & He & Hq). exists m, e. now rewrite <- H. Qed.




(** * The configuration is kept *)

Lemma assert_inv (b : bool) (u : unit) : assert_ true b = Ok u -> b = true.
Proof. unfold assert_. now destruct b. Qed.

Lemma set_bounds_config (this b : FXP) :
  _set_bounds this = Ok b -> as_tuple b = as_tuple this.
Proof. unfold _set_bounds. intros H. invert_Ok; reflexivity. Qed.

Lemma to_signed_config (this c : FXP) (x : double) :
  _to_signed this x = Ok c -> as_tuple c = as_tuple this.
Proof. unfold _to_signed. intros H. invert_Ok. reflexivity. Qed.

Lemma to_unsigned_config (this c : FXP) (x : double) :
  _to_unsigned this x = Ok c -> as_tuple c = as_tuple this.
Proof. unfold _to_unsigned. intros H. invert_Ok. reflexivity. Qed.

Lemma set_val_config (DEBUG : bool) (this c : FXP) (v : double) :
  _set_val DEBUG this v = Ok c -> as_tuple c = as_tuple this.
Proof.
  unfold _set_val. intros H.
  destruct (assert_ DEBUG (intg this + frac this <? 63)); cbn [bind] in H;
    [|discriminate].
  match type of H with
  | bind ?m _ = _ => destruct m as [c'|] eqn:Ec; cbn [bind] in H; [|discriminate]
  end.
  assert (Hc' : c' = c) by (invert_Ok; reflexivity). subst c'. clear H.
  destruct (type this); invert_Ok;
    try (eapply to_signed_config; eassumption);
    try (eapply to_unsigned_config; eassumption);
    reflexivity.
Qed.

Lemma as_tuple_read_template (this : FXP) (t : tuple) :
  as_tuple (_read_template this t) = t.
Proof. now destruct t. Qed.

Lemma ctor_keeps_template_aux (DEBUG : bool) (v : double) (t : tuple) (r : FXP) :
  FXP_ctor DEBUG v t = Ok r -> as_tuple r = t.
Proof.
  unfold FXP_ctor. intros H.
  destruct (_set_bounds (_read_template FXP_default t)) as [b|] eqn:Eb;
    cbn [bind] in H; [|discriminate].
  apply set_val_config in H. apply set_bounds_config in Eb.
  now rewrite H, Eb, as_tuple_read_template.
Qed.

(** * Subtraction *)


Lemma as_tuple_with_bounds (x : double) (t : tuple) :
  as_tuple (with_bounds x t) = t.
Proof. now destruct t. Qed.

Lemma neg_on_grid (DEBUG : bool) (t : tuple) (y : Z) :
  valid_widths t ->
  Tuple.type t <> d_FLOAT ->
  is_count y ->
  in_range (Tuple.type t) (Tuple.intg t) (Tuple.frac t) (- y) ->
  (Tuple.sat t = true ->
   ninf_count (Tuple.type t) (Tuple.intg t) (Tuple.frac t) <= - y
     <= pinf_count (Tuple.intg t) (Tuple.frac t)) ->
  (DEBUG = true ->
   (if is_int_kind (Tuple.type t) then Tuple.frac t =? 0 else true) = true) ->
  operator_neg DEBUG (with_bounds (of_int y) t)
  = Ok (with_bounds (of_int (- y)) t).
Proof.
  intros Hw Hty Hc Hr Hs Hk. pose proof Hw as (Hi & Hf & _).
  pose proof (inject_pow2_pos _ Hf) as HS.
  unfold operator_neg.
  rewrite as_tuple_with_bounds, val_with_bounds by assumption.
  cbn [dneg]. apply quantize_on_grid; try assumption.
  - rewrite inject_Z_opp. field. lra.
  - now apply is_count_opp.
Qed.



Lemma int_kind_frac (t : tuple) :
  valid_config t -> is_int_kind (Tuple.type t) = true -> Tuple.frac t = 0.
Proof.
  intros [_ Hk] H. apply Hk.
  destruct (Tuple.type t); try discriminate; auto.
Qed.

Lemma not_float_eqb (t : dtype) : t <> d_FLOAT -> dtype_eqb t d_FLOAT = false.
Proof. intros H. destruct t; try reflexivity; congruence. Qed.

Lemma sub_type_not_float (ta tb : dtype) : sub_type ta tb <> d_FLOAT.
Proof. destruct ta, tb; discriminate. Qed.




Lemma top_count_lower (n : Z) : 0 <= n -> 2 ^ n - 1 <= top_count n.
Proof.
  intros H. unfold top_count. destruct (n <=? 53); lia.
Qed.














Lemma well_formed_with_bounds (t : tuple) (z : Z) :
  valid_config t -> Tuple.type t <> d_FLOAT ->
  count_in_range (Tuple.type t) (Tuple.intg t) (Tuple.frac t) z ->
  well_formed (with_bounds (of_int z) t).
Proof.
  intros Hv Hty Hr. exists t, (of_int z).
  split; [exact Hv|]. split; [reflexivity|]. split; [congruence|].
  intros _. now exists z.
Qed.







(** * Further facts *)

(** What the constructor returns for a finite value is well formed. *)
Lemma ctor_well_formed (DEBUG : bool) (v : Q) (t : tuple) (a : FXP) :
  valid_config t -> stores_exactly DEBUG t v ->
  FXP_ctor DEBUG (Fin v) t = Ok a -> well_formed a.
Proof.
  intros Hv Hst Ha. pose proof Hv as [Hw _].
  destruct (dtype_eqb (Tuple.type t) d_FLOAT) eqn:Efl.
  - assert (Hty : Tuple.type t = d_FLOAT)
      by (destruct (Tuple.type t); try discriminate; reflexivity).
    rewrite ctor_float_closed in Ha by assumption. injection Ha as <-.
    exists t, (Fin v). repeat split; try apply Hv; eauto. congruence.
  - assert (Hty : Tuple.type t <> d_FLOAT)
      by (intros E; rewrite E in Efl; discriminate).
    destruct (stores_in_range DEBUG v t a Hw Hty Hst Ha) as (-> & Hc & Hr & _).
    apply well_formed_with_bounds; [exact Hv | exact Hty | now split].
Qed.

(** The slip in [operator*(FXP, int)]: a negative literal that is not a
    power of two is promoted to FLOAT beside an operand that is not FLOAT,
    and the product stops at the assert on the mixing of kinds. *)
Example mul_negative_literal_aborts :
  operator_mul_int true var_3 (-3) = Err Abort.
Proof. vm_compute. reflexivity. Qed.

(** The reserved inputs: +infinity saturates a 3-bit signed integer to 7;
    -infinity on an unsigned kind becomes the bound 0 and then fails the
    assert on the sign, the product of an infinity and 0 being no number. *)
Example infinity_saturates :
  exists r,
    FXP_ctor true inf (Tuple.Build 3 0 d_INT FULL true false) = Ok r /\
    val r = Fin (7 / 1).
Proof. eexists. split; vm_compute; reflexivity. Qed.

Example neg_infinity_unsigned_aborts :
  FXP_ctor true (dneg inf) (Tuple.Build 2 0 d_UINT FULL true false) = Err Abort.
Proof. vm_compute. reflexivity. Qed.

(** Example 1 of the specification: -11.123456789 on the (9,5) grid is
    floored to -11.125. *)
Example quantize_9_5 :
  FXP_ctor true (Fin (-11123456789 # 1000000000)) cfg_9_5 = Ok var_3 /\
  deq (val var_3) (Fin (-11125 # 1000)) = true.
Proof. split; vm_compute; reflexivity. Qed.

(** * Binary rendering *)

Lemma int2bin_loop_length (v : Z) (k : nat) (mask : Z) (binary : string) :
  String.length (int2bin_loop v mask binary k)
  = (k + String.length binary)%nat.
Proof.
  revert mask binary. induction k as [|k IH]; intros mask binary; [reflexivity|].
  cbn [int2bin_loop]. rewrite IH.
  destruct (1 <=? Z.land mask v); cbn [String.length]; lia.
Qed.

Lemma int2bin_loop_digits (v : Z) (k : nat) (mask : Z) (binary : string) :
  binary_digits binary -> binary_digits (int2bin_loop v mask binary k).
Proof.
  revert mask binary. induction k as [|k IH]; intros mask binary Hb; [exact Hb|].
  cbn [int2bin_loop]. apply IH.
  destruct (1 <=? Z.land mask v); cbn [binary_digits]; auto.
Qed.

Lemma land_pow2_testbit (j v : Z) :
  0 <= j -> Z.land (2 ^ j) v = Z.b2z (Z.testbit v j) * 2 ^ j.
Proof.
  intros Hj. apply Z.bits_inj'. intros n Hn.
  rewrite Z.land_spec, Z.pow2_bits_eqb by lia.
  destruct (Z.testbit v j) eqn:E; cbn [Z.b2z].
  - rewrite Z.mul_1_l, Z.pow2_bits_eqb by lia.
    destruct (Z.eqb_spec j n) as [-> | Hne]; [now rewrite E | reflexivity].
  - rewrite Z.mul_0_l, Z.bits_0. apply andb_false_iff.
    destruct (Z.eqb_spec j n) as [-> | Hne]; [now right | now left].
Qed.

Lemma mod_pow2_succ (v j : Z) :
  0 <= j ->
  v mod 2 ^ (j + 1) = Z.b2z (Z.testbit v j) * 2 ^ j + v mod 2 ^ j.
Proof.
  intros Hj. pose proof (pow2_pos j Hj) as Hp.
  rewrite Z.pow_add_r by lia. change (2 ^ 1) with 2.
  rewrite Z.rem_mul_r by lia. rewrite Z.testbit_spec' by lia. lia.
Qed.

Lemma int2bin_loop_value (v : Z) (k : nat) :
  forall (j : nat) (mask : Z) (binary : string),
    (j + k <= 63)%nat ->
    (k <> O -> mask = 2 ^ Z.of_nat j) ->
    String.length binary = j ->
    bin_value binary = v mod 2 ^ Z.of_nat j ->
    bin_value (int2bin_loop v mask binary k) = v mod 2 ^ Z.of_nat (j + k).
Proof.
  induction k as [|k IH]; intros j mask binary Hjk Hmask Hlen Hval.
  - cbn [int2bin_loop]. now rewrite Nat.add_0_r.
  - cbn [int2bin_loop]. rewrite (Hmask ltac:(discriminate)).
    replace (j + S k)%nat with (S j + k)%nat by lia.
    pose proof (pow2_pos (Z.of_nat j) ltac:(lia)) as Hp.
    apply IH.
    + lia.
    + intros Hk. rewrite Z.shiftl_mul_pow2 by lia. change (2 ^ 1) with 2.
      replace (Z.of_nat (S j)) with (Z.of_nat j + 1) by lia.
      rewrite Z.pow_add_r by lia. change (2 ^ 1) with 2.
      apply wrap64_small.
      pose proof (pow2_le (Z.of_nat j) 61 ltac:(lia)) as Hle.
      change (2 ^ 61) with 2305843009213693952 in Hle.
      change (2 ^ 63) with 9223372036854775808. lia.
    + destruct (1 <=? Z.land (2 ^ Z.of_nat j) v); cbn [String.length]; lia.
    + replace (Z.of_nat (S j)) with (Z.of_nat j + 1) by lia.
      rewrite mod_pow2_succ, land_pow2_testbit by lia.
      destruct (Z.testbit v (Z.of_nat j)); cbn [Z.b2z].
      * replace (1 <=? 1 * 2 ^ Z.of_nat j) with true
          by (symmetry; apply Z.leb_le; lia).
        cbn [bin_value]. rewrite Hlen, Hval. reflexivity.
      * cbn [Z.mul Z.leb Z.compare bin_value]. rewrite Hlen, Hval. reflexivity.
Qed.

(** X1. [int2bin] writes exactly [n] binary digits, and for a width up to
    63 they are the two's-complement writing of the value: read back as a
    binary number they give the value modulo 2^n. *)
Theorem int2bin_round_trip (v n : Z) :
  0 <= n <= 63 ->
  String.length (int2bin v n) = Z.to_nat n /\
  binary_digits (int2bin v n) /\
  bin_value (int2bin v n) = v mod 2 ^ n.
Proof.
  intros Hn. unfold int2bin. split; [|split].
  - rewrite int2bin_loop_length. cbn [String.length]. lia.
  - apply int2bin_loop_digits. exact I.
  - rewrite (int2bin_loop_value v (Z.to_nat n) 0 1 EmptyString).
    + f_equal. f_equal. lia.
    + lia.
    + reflexivity.
    + reflexivity.
    + cbn [bin_value]. change (2 ^ Z.of_nat 0) with 1. now rewrite Z.mod_1_r.
Qed.

Lemma int2bin_round_trip_witness :
  String.length (int2bin (-51) 7) = Z.to_nat 7 /\
  binary_digits (int2bin (-51) 7) /\
  bin_value (int2bin (-51) 7) = (-51) mod 2 ^ 7.
Proof. apply (int2bin_round_trip (-51) 7). lia. Defined.

Lemma land_sign_mask (v : Z) :
  fits_int64 v -> Z.land (- 2 ^ 63) v <= 0.
Proof.
  intros [Hlo Hhi]. destruct (Z.lt_ge_cases v 0) as [Hneg | Hpos].
  - assert (H : Z.land (- 2 ^ 63) v < 0) by (apply Z.land_neg; lia). lia.
  - rewrite Z.land_comm.
    change (- 2 ^ 63) with (Z.lnot (Z.ones 63)).
    rewrite <- Z.sub_land_same_l, Z.land_ones by lia.
    rewrite Z.mod_small by lia. lia.
Qed.

Lemma int2bin_loop_high (v : Z) (k : nat) :
  fits_int64 v ->
  forall (mask : Z) (binary : string),
    mask = - 2 ^ 63 \/ mask = 0 ->
    bin_value (int2bin_loop v mask binary k) = bin_value binary.
Proof.
  intros Hv. induction k as [|k IH]; intros mask binary Hmask; [reflexivity|].
  cbn [int2bin_loop].
  assert (Htest : (1 <=? Z.land mask v) = false).
  { apply Z.leb_gt. destruct Hmask as [-> | ->].
    - pose proof (land_sign_mask v Hv). lia.
    - rewrite Z.land_0_l. lia. }
  rewrite Htest, IH.
  - cbn [bin_value]. unfold digit. cbn. lia.
  - right. destruct Hmask as [-> | ->]; reflexivity.
Qed.

Lemma int2bin_loop_wide (v : Z) (k : nat) :
  fits_int64 v ->
  forall (j : nat) (binary : string),
    (j < 63)%nat -> (63 <= j + k)%nat ->
    String.length binary = j ->
    bin_value binary = v mod 2 ^ Z.of_nat j ->
    bin_value (int2bin_loop v (2 ^ Z.of_nat j) binary k) = v mod 2 ^ 63.
Proof.
  intros Hv. induction k as [|k IH]; intros j binary Hj Hjk Hlen Hval; [lia|].
  cbn [int2bin_loop].
  pose proof (pow2_pos (Z.of_nat j) ltac:(lia)) as Hp.
  rewrite Z.shiftl_mul_pow2 by lia. change (2 ^ 1) with 2.
  replace (2 ^ Z.of_nat j * 2) with (2 ^ Z.of_nat (S j))
    by (replace (Z.of_nat (S j)) with (Z.of_nat j + 1) by lia;
        rewrite Z.pow_add_r by lia; change (2 ^ 1) with 2; lia).
  set (binary' := if 1 <=? Z.land (2 ^ Z.of_nat j) v
                  then String "1" binary else String "0" binary).
  assert (Hlen' : String.length binary' = S j)
    by (subst binary'; destruct (1 <=? Z.land (2 ^ Z.of_nat j) v);
        cbn [String.length]; lia).
  assert (Hval' : bin_value binary' = v mod 2 ^ Z.of_nat (S j)).
  { subst binary'.
    replace (Z.of_nat (S j)) with (Z.of_nat j + 1) by lia.
    rewrite mod_pow2_succ, land_pow2_testbit by lia.
    destruct (Z.testbit v (Z.of_nat j)); cbn [Z.b2z].
    - replace (1 <=? 1 * 2 ^ Z.of_nat j) with true
        by (symmetry; apply Z.leb_le; lia).
      cbn [bin_value]. rewrite Hlen, Hval. reflexivity.
    - cbn [Z.mul Z.leb Z.compare bin_value]. rewrite Hlen, Hval. reflexivity. }
  destruct (Nat.eq_dec (S j) 63) as [E | E].
  - rewrite E in *. change (wrap64 (2 ^ Z.of_nat 63)) with (- 2 ^ 63).
    rewrite int2bin_loop_high by (assumption || now left). exact Hval'.
  - rewrite wrap64_small.
    + apply IH; (assumption || lia).
    + pose proof (pow2_pos (Z.of_nat (S j)) ltac:(lia)).
      pose proof (pow2_le (Z.of_nat (S j)) 62 ltac:(lia)) as Hle.
      change (2 ^ 62) with 4611686018427387904 in Hle.
      change (2 ^ 63) with 9223372036854775808. lia.
Qed.

(** X2. From the 64th digit on [int2bin] writes only zeros: the mask has
    become negative (then zero) and the test [(mask & val) >= 1] fails, so a
    width of 63 or more shows the value modulo 2^63 and never the sign. *)
Theorem int2bin_drops_sign (v n : Z) :
  fits_int64 v -> 63 <= n ->
  bin_value (int2bin v n) = v mod 2 ^ 63.
Proof.
  intros Hv Hn. unfold int2bin.
  change 1 with (2 ^ Z.of_nat 0).
  apply int2bin_loop_wide; try assumption; try lia; try reflexivity.
  cbn [bin_value]. change (2 ^ Z.of_nat 0) with 1. now rewrite Z.mod_1_r.
Qed.

Lemma int2bin_drops_sign_witness :
  bin_value (int2bin (-1) 64) = (-1) mod 2 ^ 63.
Proof.
  apply (int2bin_drops_sign (-1) 64).
  - unfold fits_int64. lia.
  - lia.
Defined.

Lemma substring_0_all (s : string) (m : nat) :
  (String.length s <= m)%nat -> String.substring 0 m s = s.
Proof.
  revert m. induction s as [|c s IH]; intros m Hm.
  - now destruct m.
  - destruct m as [|m]; cbn in Hm; [lia|]. cbn. f_equal. apply IH. lia.
Qed.

Lemma substring_split (s : string) (n m : nat) :
  (String.substring 0 n s ++ String.substring n m s)%string
  = String.substring 0 (n + m) s.
Proof.
  revert s. induction n as [|n IH]; intros s.
  - destruct s; reflexivity.
  - destruct s as [|c s]; [reflexivity|].
    cbn. f_equal. apply IH.
Qed.

Lemma substring_length (s : string) (n m : nat) :
  (n + m <= String.length s)%nat ->
  String.length (String.substring n m s) = m.
Proof.
  revert n m. induction s as [|c s IH]; intros n m H; cbn in H.
  - assert (n = O /\ m = O) as [-> ->] by lia. reflexivity.
  - destruct n as [|n].
    + destruct m as [|m]; [reflexivity|]. cbn. f_equal. apply IH. lia.
    + cbn. apply IH. lia.
Qed.

Lemma substring_digits (s : string) (n m : nat) :
  binary_digits s -> binary_digits (String.substring n m s).
Proof.
  revert n m. induction s as [|c s IH]; intros n m H.
  - destruct n, m; exact I.
  - destruct H as [Hc Hs]. destruct n as [|n].
    + destruct m as [|m]; [exact I|]. cbn. split; [exact Hc | now apply IH].
    + cbn. now apply IH.
Qed.

Lemma append_digits (s1 s2 : string) :
  binary_digits s1 -> binary_digits s2 -> binary_digits (s1 ++ s2).
Proof.
  induction s1 as [|c s1 IH]; intros H1 H2; [exact H2|].
  destruct H1 as [Hc H1]. cbn. split; [exact Hc | now apply IH].
Qed.

Lemma bin_value_bound (s : string) :
  0 <= bin_value s < 2 ^ Z.of_nat (String.length s).
Proof.
  induction s as [|c s IH]; [cbn; lia|].
  cbn [bin_value String.length].
  replace (Z.of_nat (S (String.length s)))
    with (Z.of_nat (String.length s) + 1) by lia.
  rewrite Z.pow_add_r by lia. change (2 ^ 1) with 2.
  unfold digit. destruct (Ascii.eqb c "1"); lia.
Qed.

(** X3. [to_binary] of a well-formed value that is not FLOAT is the digits
    before the point, a point, and the digits after it: [intg + 1] and
    [frac] digits for a signed kind, which together write the stored count in
    two's complement on [intg + frac + 1] bits, and [intg] and [frac] digits
    for an unsigned kind, which write the stored count itself. *)
Theorem to_binary_round_trip (t : tuple) (x : Z) :
  valid_config t ->
  Tuple.type t <> d_FLOAT ->
  count_in_range (Tuple.type t) (Tuple.intg t) (Tuple.frac t) x ->
  exists hd tl,
    to_binary (with_bounds (of_int x) t) = Ok (hd ++ "." ++ tl)%string /\
    String.length hd
    = Z.to_nat (if is_unsigned (Tuple.type t) then Tuple.intg t
                else Tuple.intg t + 1) /\
    String.length tl = Z.to_nat (Tuple.frac t) /\
    binary_digits (hd ++ tl) /\
    bin_value (hd ++ tl)
    = if is_unsigned (Tuple.type t) then x
      else x mod 2 ^ (Tuple.intg t + Tuple.frac t + 1).
Proof.
  intros [(Hi & Hf & Hs) _] Hty [Hcx Hr].
  assert (Hfit : fits_int64 x) by (eapply count_fits; [|exact Hr]; lia).
  destruct (int2bin_round_trip x (Tuple.intg t + Tuple.frac t + 1) ltac:(lia))
    as (Hlen & Hdig & Hval).
  set (s := int2bin x (Tuple.intg t + Tuple.frac t + 1)) in *.
  unfold to_binary. cbn [type intg frac _val with_bounds].
  rewrite (not_float_eqb _ Hty), to_int64_of_int by assumption.
  cbn [bind]. fold s.
  assert (Htl : substr s (Tuple.intg t + 1) (Tuple.frac t)
                = Ok (String.substring (Z.to_nat (Tuple.intg t + 1))
                        (Z.to_nat (Tuple.frac t)) s)).
  { unfold substr. rewrite Hlen.
    replace (Tuple.intg t + 1 <? 0) with false by (symmetry; apply Z.ltb_ge; lia).
    replace (Z.of_nat (Z.to_nat (Tuple.intg t + Tuple.frac t + 1))
             <? Tuple.intg t + 1) with false by (symmetry; apply Z.ltb_ge; lia).
    replace (Tuple.frac t <? 0) with false by (symmetry; apply Z.ltb_ge; lia).
    reflexivity. }
  rewrite Htl.
  destruct (is_unsigned (Tuple.type t)) eqn:Eu.
  - (* unsigned: the leading digit is dropped *)
    replace (dtype_eqb (Tuple.type t) d_INT || dtype_eqb (Tuple.type t) d_FXP)
      with false by (destruct (Tuple.type t); try discriminate; reflexivity).
    assert (Hhd : substr s 1 (Tuple.intg t)
                  = Ok (String.substring 1 (Z.to_nat (Tuple.intg t)) s)).
    { unfold substr. rewrite Hlen.
      replace (Z.of_nat (Z.to_nat (Tuple.intg t + Tuple.frac t + 1)) <? 1)
        with false by (symmetry; apply Z.ltb_ge; lia).
      replace (Tuple.intg t <? 0) with false by (symmetry; apply Z.ltb_ge; lia).
      reflexivity. }
    rewrite Hhd. cbn [bind]. do 2 eexists. split; [reflexivity|].
    destruct s as [|c s']; [cbn in Hlen; lia|].
    replace (Z.to_nat (Tuple.intg t + 1)) with (S (Z.to_nat (Tuple.intg t)))
      by lia.
    cbn [String.substring]. cbn [String.length] in Hlen.
    rewrite substring_split.
    rewrite !substring_length by lia.
    rewrite substring_0_all by lia.
    destruct Hdig as [_ Hdig].
    split; [reflexivity|]. split; [reflexivity|]. split; [exact Hdig|].
    unfold in_range in Hr. rewrite Eu in Hr.
    cbn [bin_value] in Hval.
    pose proof (bin_value_bound s') as Hb.
    replace (Z.of_nat (String.length s')) with (Tuple.intg t + Tuple.frac t)
      in Hval, Hb by lia.
    pose proof (pow2_pos (Tuple.intg t + Tuple.frac t) ltac:(lia)) as Hp.
    rewrite (Z.pow_add_r 2 (Tuple.intg t + Tuple.frac t) 1) in Hval by lia.
    change (2 ^ 1) with 2 in Hval.
    rewrite Z.mod_small in Hval by lia.
    unfold digit in Hval. destruct (Ascii.eqb c "1"); lia.
  - (* signed *)
    replace (dtype_eqb (Tuple.type t) d_INT || dtype_eqb (Tuple.type t) d_FXP)
      with true
      by (destruct (Tuple.type t); try discriminate; try reflexivity; congruence).
    assert (Hhd : substr s 0 (Tuple.intg t + 1)
                  = Ok (String.substring 0 (Z.to_nat (Tuple.intg t + 1)) s)).
    { unfold substr. rewrite Hlen.
      replace (Z.of_nat (Z.to_nat (Tuple.intg t + Tuple.frac t + 1)) <? 0)
        with false by (symmetry; apply Z.ltb_ge; lia).
      replace (Tuple.intg t + 1 <? 0) with false by (symmetry; apply Z.ltb_ge; lia).
      reflexivity. }
    rewrite Hhd. cbn [bind]. do 2 eexists. split; [reflexivity|].
    rewrite substring_split.
    rewrite !substring_length by lia.
    rewrite substring_0_all by lia.
    split; [reflexivity|]. split; [reflexivity|]. split; assumption.
Qed.

Lemma to_binary_round_trip_witness :
  exists hd tl,
    to_binary var_3 = Ok (hd ++ "." ++ tl)%string /\
    String.length hd = Z.to_nat (9 + 1) /\
    String.length tl = Z.to_nat 5 /\
    binary_digits (hd ++ tl) /\
    bin_value (hd ++ tl) = (-356) mod 2 ^ (9 + 5 + 1).
Proof.
  apply (to_binary_round_trip cfg_9_5 (-356)).
  - unfold valid_config, valid_widths; simpl.
    split; [lia | intros [H | H]; discriminate].
  - simpl; discriminate.
  - small_count.
Defined.

(** * What the constructor guarantees *)

(** X4. Whatever the value and the mode, an object the constructor returns
    carries exactly the configuration of its template. *)
Theorem ctor_keeps_template (DEBUG : bool) (v : double) (t : tuple) (r : FXP) :
  FXP_ctor DEBUG v t = Ok r -> as_tuple r = t.
Proof. apply ctor_keeps_template_aux. Qed.

Lemma ctor_keeps_template_witness : as_tuple var_3 = cfg_9_5.
Proof.
  apply (ctor_keeps_template true (Fin (-11123456789 # 1000000000)) cfg_9_5 var_3).
  vm_compute. reflexivity.
Defined.

Lemma set_val_checked (this c : FXP) (v : double) :
  _set_val true this v = Ok c ->
  intg this + frac this < 63 /\
  (type this = d_INT \/ type this = d_UINT -> frac this = 0) /\
  dge (dmul v (_val c)) (of_int 0) = true /\
  (is_unsigned (type this) = true -> sat this = false ->
   forall q, v = Fin q -> (0 <= q)%Q).
Proof.
  unfold _set_val. intros H.
  destruct (assert_ true (intg this + frac this <? 63)) as [u|] eqn:E63;
    cbn [bind] in H; [|discriminate].
  apply assert_inv, Z.ltb_lt in E63.
  match type of H with
  | bind ?m _ = _ => destruct m as [c'|] eqn:Ec; cbn [bind] in H; [|discriminate]
  end.
  destruct (assert_ true (dge (dmul v (_val c')) (of_int 0))) as [u'|] eqn:Es;
    cbn [bind] in H; [|discriminate].
  injection H as <-. apply assert_inv in Es.
  split; [exact E63|]. split; [|split; [exact Es|]].
  - intros [Ety | Ety]; rewrite Ety in Ec;
      match type of Ec with
      | bind ?m _ = _ => destruct m as [?|] eqn:Ef; cbn [bind] in Ec; [|discriminate]
      end;
      now apply assert_inv, Z.eqb_eq in Ef.
  - intros Hu Hsat q ->. rewrite Hsat in Ec.
    change (deq (Fin q) inf) with false in Ec. cbv iota in Ec.
    change (deq (Fin q) (dneg inf)) with false in Ec. cbv iota in Ec.
    destruct (type this); try discriminate Hu.
    + destruct (assert_ true (frac this =? 0)); cbn [bind] in Ec; [|discriminate].
      destruct (assert_ true (dge (Fin q) (of_int 0))) as [?|] eqn:Eg;
        cbn [bind] in Ec; [|discriminate].
      apply assert_inv in Eg. now apply dge_Fin in Eg.
    + destruct (assert_ true (dge (Fin q) (of_int 0))) as [?|] eqn:Eg;
        cbn [bind] in Ec; [|discriminate].
      apply assert_inv in Eg. now apply dge_Fin in Eg.
Qed.

(** X5. With the asserts compiled in, the constructor never returns an
    object for a combined width of 63 or more, for an integer kind with a
    fraction, for a stored value of the opposite sign to the input, or, on an
    unsigned kind without saturation, for a negative input. *)
Theorem ctor_checked_invariants (v : double) (t : tuple) (r : FXP) :
  FXP_ctor true v t = Ok r ->
  Tuple.intg t + Tuple.frac t < 63 /\
  (Tuple.type t = d_INT \/ Tuple.type t = d_UINT -> Tuple.frac t = 0) /\
  dge (dmul v (_val r)) (of_int 0) = true /\
  (is_unsigned (Tuple.type t) = true -> Tuple.sat t = false ->
   forall q, v = Fin q -> (0 <= q)%Q).
Proof.
  unfold FXP_ctor. intros H.
  destruct (_set_bounds (_read_template FXP_default t)) as [b|] eqn:Eb;
    cbn [bind] in H; [|discriminate].
  apply set_bounds_config in Eb. rewrite as_tuple_read_template in Eb.
  apply set_val_checked in H. subst t. exact H.
Qed.

Lemma ctor_checked_invariants_witness :
  9 + 5 < 63 /\
  (d_FXP = d_INT \/ d_FXP = d_UINT -> 5 = 0) /\
  dge (dmul (Fin (-11123456789 # 1000000000)) (_val var_3)) (of_int 0) = true /\
  (is_unsigned d_FXP = true -> false = false ->
   forall q, Fin (-11123456789 # 1000000000) = Fin q -> (0 <= q)%Q).
Proof.
  apply (ctor_checked_invariants (Fin (-11123456789 # 1000000000)) cfg_9_5 var_3).
  vm_compute. reflexivity.
Defined.



(** * Conversion and copies *)

Lemma set_bounds_set_val (this : FXP) (u : double) :
  _set_bounds (set__val this u)
  = (b <- _set_bounds this ;; Ok (set__val b u)).
Proof.
  unfold _set_bounds.
  cbn [frac intg type shift set__val set_shift set_full_half set_pinf_ninf].
  destruct (shl64 1 (frac this)); cbn [bind]; [|reflexivity].
  cbn [frac intg type shift set__val set_shift set_full_half set_pinf_ninf].
  destruct (is_unsigned (type this));
    repeat (cbn [bind frac intg type shift set__val set_shift set_full_half
                 set_pinf_ninf];
            match goal with
            | |- context [shl64 1 ?n] => destruct (shl64 1 n)
            | |- context [if ?c then _ else _] => destruct c
            end);
    reflexivity.
Qed.

Lemma set_bounds_forgets (this this' : FXP) :
  _val this = _val this' -> as_tuple this = as_tuple this' ->
  _set_bounds this = _set_bounds this'.
Proof.
  destruct this, this'. unfold as_tuple. cbn. intros -> H.
  injection H as -> -> -> -> -> ->.
  unfold _set_bounds.
  cbn [frac intg type shift set_shift set_full_half set_pinf_ninf].
  destruct (shl64 1 frac1); cbn [bind]; [|reflexivity].
  destruct (is_unsigned type1);
    repeat (cbn [bind frac intg type shift set_shift set_full_half
                 set_pinf_ninf];
            match goal with
            | |- context [shl64 1 ?n] => destruct (shl64 1 n)
            | |- context [if ?c then _ else _] => destruct c
            end);
    reflexivity.
Qed.

Lemma read_template_bounds (this : FXP) (templ : tuple) :
  _set_bounds (_read_template this templ)
  = (b <- _set_bounds (_read_template FXP_default templ) ;;
     Ok (set__val b (_val this))).
Proof.
  rewrite <- set_bounds_set_val. apply set_bounds_forgets; reflexivity.
Qed.

Lemma set_val_ignores_val (DEBUG : bool) (this : FXP) (u v : double) :
  _set_val DEBUG (set__val this u) v = _set_val DEBUG this v.
Proof. reflexivity. Qed.

(** X7. [convert(templ)] leaves exactly the object that [copy(templ)], that
    is the constructor applied to [val()] and the template, returns: the old
    configuration and stored value matter only through [val()]. *)
Theorem convert_is_copy (DEBUG : bool) (this : FXP) (templ : tuple) :
  convert DEBUG this templ = copy_templ DEBUG this templ.
Proof.
  unfold convert, copy_templ, FXP_ctor.
  rewrite read_template_bounds.
  destruct (_set_bounds (_read_template FXP_default templ)); reflexivity.
Qed.






(** * Negation and absolute value *)

Lemma valid_config_kind (DEBUG : bool) (t : tuple) :
  valid_config t ->
  DEBUG = true ->
  (if is_int_kind (Tuple.type t) then Tuple.frac t =? 0 else true) = true.
Proof.
  intros Hv _. destruct (is_int_kind (Tuple.type t)) eqn:E; [|reflexivity].
  apply Z.eqb_eq. now apply int_kind_frac.
Qed.

(** X10. Negation is exact whenever the opposite count is representable (in
    range, and inside the bounds under saturation): it stores the opposite
    count, the value read back is the opposite value, and negating twice gives
    the operand back. *)
Theorem neg_exact (DEBUG : bool) (t : tuple) (x : Z) :
  valid_config t ->
  Tuple.type t <> d_FLOAT ->
  count_in_range (Tuple.type t) (Tuple.intg t) (Tuple.frac t) x ->
  count_in_range (Tuple.type t) (Tuple.intg t) (Tuple.frac t) (- x) ->
  (Tuple.sat t = true ->
   - pinf_count (Tuple.intg t) (Tuple.frac t) <= x
     <= pinf_count (Tuple.intg t) (Tuple.frac t)) ->
  let a := with_bounds (of_int x) t in
  let n := with_bounds (of_int (- x)) t in
  operator_neg DEBUG a = Ok n /\
  operator_neg DEBUG n = Ok a /\
  deq (val n) (dneg (val a)) = true.
Proof.
  intros Hv Hty [Hc Hr] [Hcn Hrn] Hsat a n. pose proof Hv as [Hw _].
  pose proof Hw as (Hi & Hf & Hs).
  pose proof (inject_pow2_pos _ Hf) as HS.
  assert (Hlow : forall y, in_range (Tuple.type t) (Tuple.intg t) (Tuple.frac t) y ->
                           ninf_count (Tuple.type t) (Tuple.intg t) (Tuple.frac t) <= y).
  { intros y Hy. unfold in_range, ninf_count in *.
    destruct (is_unsigned (Tuple.type t)); lia. }
  split; [|split].
  - apply neg_on_grid; try assumption.
    + intros Hs'. specialize (Hsat Hs'). specialize (Hlow _ Hrn). lia.
    + now apply valid_config_kind.
  - subst a n.
    replace (with_bounds (of_int x) t) with (with_bounds (of_int (- - x)) t)
      by now rewrite Z.opp_involutive.
    apply neg_on_grid; rewrite ?Z.opp_involutive; try assumption.
    + intros Hs'. specialize (Hsat Hs'). specialize (Hlow _ Hr). lia.
    + now apply valid_config_kind.
  - subst a n. rewrite !val_with_bounds by assumption. cbn [dneg].
    apply deq_Fin. rewrite inject_Z_opp. field. lra.
Qed.

Lemma neg_exact_witness :
  let a := with_bounds (of_int (-356)) cfg_9_5 in
  let n := with_bounds (of_int (- -356)) cfg_9_5 in
  operator_neg true a = Ok n /\
  operator_neg true n = Ok a /\
  deq (val n) (dneg (val a)) = true.
Proof.
  apply (neg_exact true cfg_9_5 (-356)).
  - unfold valid_config, valid_widths; simpl.
    split; [lia | intros [H | H]; discriminate].
  - simpl; discriminate.
  - small_count.
  - small_count.
  - simpl; discriminate.
Defined.

Lemma stored_count_top (t : dtype) (i f : Z) :
  0 <= i + f <= 62 -> is_unsigned t = false ->
  stored_count t i f (2 ^ (i + f)) = - 2 ^ (i + f).
Proof.
  intros Hn Hu.
  pose proof (pow2_pos (i + f) ltac:(lia)) as Hp.
  pose proof (pow2_le (i + f) 62 ltac:(lia)) as Hle.
  change (2 ^ 62) with 4611686018427387904 in Hle.
  assert (Hfit : fits_int64 (2 ^ (i + f)))
    by (unfold fits_int64; change (2 ^ 63) with 9223372036854775808; lia).
  destruct (stored_count_spec t i f _ Hn Hfit) as [Hr [k Hk]].
  unfold in_range, representable_count in *. rewrite Hu in *.
  rewrite (Z.pow_add_r 2 (i + f) 1) in Hk by lia. change (2 ^ 1) with 2 in Hk.
  set (M := 2 ^ (i + f)) in *. set (x := stored_count t i f M) in *.
  assert (k = -1) by nia. lia.
Qed.



Lemma Qabs_grid (x : Z) (S : Q) :
  (0 < S)%Q -> (Qabs (inject_Z x / S) * S == inject_Z (Z.abs x))%Q.
Proof.
  intros HS. destruct (Z.le_gt_cases 0 x) as [Hx | Hx].
  - rewrite Z.abs_eq by assumption.
    rewrite Qabs_pos; [field; lra|].
    rewrite Zle_Qle in Hx. change (inject_Z 0) with 0%Q in Hx.
    apply Qle_shift_div_l; [assumption | lra].
  - rewrite Z.abs_neq by lia.
    rewrite Qabs_neg; [rewrite inject_Z_opp; field; lra|].
    assert (Hx' : x <= 0) by lia.
    rewrite Zle_Qle in Hx'. change (inject_Z 0) with 0%Q in Hx'.
    apply Qle_shift_div_r; [assumption | lra].
Qed.

(** X12. [abs] is exact whenever the magnitude of the count is
    representable (in range, and not above the positive bound under
    saturation): it stores the magnitude, and the value read back is not
    negative. *)
Theorem abs_exact (DEBUG : bool) (t : tuple) (x : Z) :
  valid_config t ->
  Tuple.type t <> d_FLOAT ->
  count_in_range (Tuple.type t) (Tuple.intg t) (Tuple.frac t) (Z.abs x) ->
  (Tuple.sat t = true -> Z.abs x <= pinf_count (Tuple.intg t) (Tuple.frac t)) ->
  abs DEBUG (with_bounds (of_int x) t) = Ok (with_bounds (of_int (Z.abs x)) t) /\
  dge (val (with_bounds (of_int (Z.abs x)) t)) (of_int 0) = true.
Proof.
  intros Hv Hty [Hc Hr] Hsat. pose proof Hv as [Hw _].
  pose proof Hw as (Hi & Hf & Hs).
  pose proof (inject_pow2_pos _ Hf) as HS.
  split.
  - unfold abs. rewrite as_tuple_with_bounds, val_with_bounds by assumption.
    cbn [dabs]. apply quantize_on_grid; try assumption.
    + now apply Qabs_grid.
    + intros Hs'. split; [|now apply Hsat].
      unfold ninf_count.
      pose proof (pow2_pos (Tuple.intg t + Tuple.frac t) ltac:(lia)).
      destruct (is_unsigned (Tuple.type t)); lia.
    + now apply valid_config_kind.
  - rewrite val_with_bounds by assumption. unfold of_int. apply dge_Fin.
    pose proof (Z.abs_nonneg x) as Hx. rewrite Zle_Qle in Hx.
    change (inject_Z 0) with 0%Q in *.
    apply Qle_shift_div_l; [assumption | lra].
Qed.

Lemma abs_exact_witness :
  abs true (with_bounds (of_int (-356)) cfg_9_5)
  = Ok (with_bounds (of_int (Z.abs (-356))) cfg_9_5) /\
  dge (val (with_bounds (of_int (Z.abs (-356))) cfg_9_5)) (of_int 0) = true.
Proof.
  apply (abs_exact true cfg_9_5 (-356)).
  - unfold valid_config, valid_widths; simpl.
    split; [lia | intros [H | H]; discriminate].
  - simpl; discriminate.
  - small_count.
  - simpl; discriminate.
Defined.

(** * Shifts *)

Lemma shl32_one (k : Z) : 0 <= k <= 30 -> shl32 1 k = Ok (2 ^ k).
Proof.
  intros H. unfold shl32.
  replace ((0 <=? k) && (k <? 32)) with true
    by (symmetry; apply andb_true_iff; split; [apply Z.leb_le | apply Z.ltb_lt]; lia).
  rewrite Z.shiftl_1_l, wrap32_small; [reflexivity|].
  pose proof (pow2_pos k ltac:(lia)).
  pose proof (pow2_le k 30 ltac:(lia)) as Hle.
  change (2 ^ 30) with 1073741824 in Hle.
  change (2 ^ 31) with 2147483648. lia.
Qed.

(** X13. A left shift by [k] (up to 30) is exact when the result widths
    [intg + k] and [max (frac - k) 0] stay below the 63-bit ceiling (and, under
    saturation, below 31 each): the stored count is kept, or multiplied by
    2^(k - frac) once the fraction is used up, and the value read back is the
    value of the operand times 2^k. *)
Theorem shl_exact (DEBUG : bool) (t : tuple) (x k : Z) :
  valid_config t ->
  Tuple.type t <> d_FLOAT ->
  count_in_range (Tuple.type t) (Tuple.intg t) (Tuple.frac t) x ->
  0 <= k <= 30 ->
  let T := Tuple.Build (Tuple.intg t + k) (Z.max (Tuple.frac t - k) 0)
             (Tuple.type t) (Tuple.opmode t) (Tuple.sat t) (Tuple.rounding t) in
  Tuple.intg T + Tuple.frac T < 63 ->
  (Tuple.sat t = true -> Tuple.intg T < 31 /\ Tuple.frac T < 31) ->
  let a := with_bounds (of_int x) t in
  let r := with_bounds (of_int (x * 2 ^ Z.max (k - Tuple.frac t) 0)) T in
  operator_shl DEBUG a k = Ok r /\
  deq (val r) (dmul (val a) (of_int (2 ^ k))) = true.
Proof.
  intros Hv Hty [Hcx Hr] Hk T HsT Hexact a r. pose proof Hv as [Hw Hkind].
  pose proof Hw as (Hi & Hf & Hs).
  set (F := Z.max (Tuple.frac t - k) 0) in *.
  set (e := Z.max (k - Tuple.frac t) 0) in *.
  assert (HF : 0 <= F) by (subst F; lia).
  assert (He : 0 <= e) by (subst e; lia).
  assert (Hke : k + F = Tuple.frac t + e) by (subst F e; lia).
  pose proof (inject_pow2_pos _ Hf) as HS.
  pose proof (inject_pow2_pos _ HF) as HSF.
  assert (Hpow : 2 ^ k * 2 ^ F = 2 ^ Tuple.frac t * 2 ^ e).
  { rewrite <- !Z.pow_add_r by lia. now rewrite Hke. }
  assert (HpowQ : (inject_Z (2 ^ k) * inject_Z (2 ^ F)
                   == inject_Z (2 ^ Tuple.frac t) * inject_Z (2 ^ e))%Q).
  { rewrite <- !inject_Z_mult. now rewrite Hpow. }
  assert (HwT : valid_widths T).
  { unfold valid_widths. cbn [Tuple.intg Tuple.frac T] in *. lia. }
  assert (Hgrid : (inject_Z x / inject_Z (2 ^ Tuple.frac t) * inject_Z (2 ^ k)
                   * inject_Z (2 ^ Tuple.frac T) == inject_Z (x * 2 ^ e))%Q).
  { cbn [Tuple.frac T]. rewrite inject_Z_mult.
    set (S := inject_Z (2 ^ Tuple.frac t)) in *.
    set (K := inject_Z (2 ^ k)) in *. set (SF := inject_Z (2 ^ F)) in *.
    set (E := inject_Z (2 ^ e)) in *.
    transitivity (inject_Z x / S * (K * SF))%Q; [ring|].
    rewrite HpowQ. field. lra. }
  assert (HcT : is_count (x * 2 ^ e)) by now apply is_count_shift.
  assert (Hrep : representable
                   (inject_Z x / inject_Z (2 ^ Tuple.frac t) * inject_Z (2 ^ k))).
  { apply (representable_grid x (k - Tuple.frac t)); [exact Hcx | | lia |].
    - assert (Hfx : fits_int64 x) by (eapply count_fits; [|exact Hr]; lia).
      destruct Hfx as [H1 H2]. pose proof (pow2_lt 63 200 ltac:(lia)). lia.
    - unfold Z.sub. rewrite Qpow2_add, Qpower_opp, !Qpow2_inject by lia.
      field. lra. }
  assert (HrT : in_range (Tuple.type T) (Tuple.intg T) (Tuple.frac T)
                  (x * 2 ^ e)).
  { unfold in_range in *. cbn [Tuple.type Tuple.intg Tuple.frac T].
    replace (Tuple.intg t + k + F) with (Tuple.intg t + Tuple.frac t + e) by lia.
    rewrite (Z.pow_add_r 2 (Tuple.intg t + Tuple.frac t) e) by lia.
    pose proof (pow2_pos e He).
    destruct (is_unsigned (Tuple.type t)); nia. }
  assert (Hres : operator_shl DEBUG a k = Ok r).
  { unfold operator_shl. rewrite shl32_one by assumption. cbn [bind].
    subst a. rewrite val_with_bounds by assumption.
    cbn [type intg frac opmode sat rounding with_bounds].
    change (dmul (Fin (inject_Z x / inject_Z (2 ^ Tuple.frac t))) (of_int (2 ^ k)))
      with (Fin (inject_Z x / inject_Z (2 ^ Tuple.frac t) * inject_Z (2 ^ k))).
    rewrite fl_exact by exact Hrep.
    fold F. fold T. apply quantize_on_grid; try assumption.
    - intros Hsat. destruct (Hexact Hsat) as [H1 H2].
      unfold in_range in HrT. unfold ninf_count, pinf_count.
      replace ((Tuple.intg T <? 31) && (Tuple.frac T <? 31)) with true
        by (symmetry; apply andb_true_iff; split; apply Z.ltb_lt; assumption).
      pose proof (top_count_lower (Tuple.intg T + Tuple.frac T)
                    ltac:(cbn [Tuple.intg Tuple.frac T]; lia)).
      destruct (is_unsigned (Tuple.type T)); lia.
    - intros _. cbn [Tuple.type Tuple.frac T].
      destruct (is_int_kind (Tuple.type t)) eqn:E; [|reflexivity].
      apply Z.eqb_eq. subst F. rewrite (int_kind_frac t Hv E). lia. }
  split; [exact Hres|].
  subst a r. rewrite !val_with_bounds by (assumption || exact HF).
  change (dmul (Fin (inject_Z x / inject_Z (2 ^ Tuple.frac t))) (of_int (2 ^ k)))
    with (Fin (inject_Z x / inject_Z (2 ^ Tuple.frac t) * inject_Z (2 ^ k))).
  apply deq_Fin. rewrite <- Hgrid. cbn [Tuple.frac T]. field. lra.
Qed.

Lemma shl_exact_witness :
  let T := Tuple.Build (7 + 3) (Z.max (1 - 3) 0) d_FXP FIXEDFRAC false false in
  let a := with_bounds (of_int 79) cfg_7_1 in
  let r := with_bounds (of_int (79 * 2 ^ Z.max (3 - 1) 0)) T in
  operator_shl true a 3 = Ok r /\
  deq (val r) (dmul (val a) (of_int (2 ^ 3))) = true.
Proof.
  apply (shl_exact true cfg_7_1 79 3).
  - unfold valid_config, valid_widths; simpl.
    split; [lia | intros [H | H]; discriminate].
  - simpl; discriminate.
  - small_count.
  - lia.
  - simpl; lia.
  - simpl; discriminate.
Defined.

(** X14. Whenever a right shift by [k] returns a value, its integer width
    is [min (intg - k) 0], hence never positive, and its fractional width is
    [frac + k]; kind, mode and policies are those of the operand. *)
Theorem shr_result_widths (DEBUG : bool) (a r : FXP) (k : Z) :
  operator_shr DEBUG a k = Ok r ->
  intg r = Z.min (intg a - k) 0 /\ intg r <= 0 /\ frac r = frac a + k /\
  type r = type a /\ opmode r = opmode a /\
  sat r = sat a /\ rounding r = rounding a.
Proof.
  unfold operator_shr. intros H.
  destruct (shl32 1 k) as [p|]; cbn [bind] in H; [|discriminate].
  apply ctor_keeps_template_aux in H.
  unfold as_tuple in H. injection H as H1 H2 H3 H4 H5 H6.
  repeat split; try assumption. lia.
Qed.

Lemma shr_result_widths_witness :
  let r := with_bounds (of_int 15)
             (Tuple.Build 0 4 d_FXP FIXEDFRAC false false) in
  intg r = Z.min (intg (with_bounds (of_int 79) cfg_7_1) - 3) 0 /\
  intg r <= 0 /\
  frac r = frac (with_bounds (of_int 79) cfg_7_1) + 3 /\
  type r = type (with_bounds (of_int 79) cfg_7_1) /\
  opmode r = opmode (with_bounds (of_int 79) cfg_7_1) /\
  sat r = sat (with_bounds (of_int 79) cfg_7_1) /\
  rounding r = rounding (with_bounds (of_int 79) cfg_7_1).
Proof.
  apply (shr_result_widths true (with_bounds (of_int 79) cfg_7_1) _ 3).
  vm_compute. reflexivity.
Defined.

(** * Exact arithmetic in FULL mode *)

Lemma add_type_facts (ta tb : dtype) :
  ta <> d_FLOAT -> tb <> d_FLOAT ->
  add_type ta tb <> d_FLOAT /\
  (is_unsigned (add_type ta tb) = true ->
   is_unsigned ta = true /\ is_unsigned tb = true) /\
  (is_int_kind (add_type ta tb) = true ->
   is_int_kind ta = true /\ is_int_kind tb = true).
Proof.
  intros Ha Hb. destruct ta, tb; try congruence; cbn;
    (split; [discriminate|]); split; intros H; try discriminate; auto.
Qed.

Lemma compatible_with_bounds (xa xb : double) (ta tb : tuple) :
  Tuple.opmode ta = Tuple.opmode tb -> Tuple.sat ta = Tuple.sat tb ->
  Tuple.rounding ta = Tuple.rounding tb ->
  Tuple.type ta <> d_FLOAT -> Tuple.type tb <> d_FLOAT ->
  compatible (with_bounds xa ta) (with_bounds xb tb).
Proof.
  intros H1 H2 H3 Ha Hb. unfold compatible.
  cbn [opmode sat rounding type with_bounds].
  repeat split; try assumption; intros H; congruence.
Qed.




(** A real value that scales to the count 2^(intg+frac), one past the
    largest count of a signed configuration without saturation: it wraps to
    the most negative count, and the sign assert refuses it. *)
Lemma ctor_top_wraps (t : tuple) (w : Q) :
  valid_widths t ->
  Tuple.type t <> d_FLOAT ->
  is_unsigned (Tuple.type t) = false ->
  Tuple.sat t = false ->
  (w * inject_Z (2 ^ Tuple.frac t)
   == inject_Z (2 ^ (Tuple.intg t + Tuple.frac t)))%Q ->
  FXP_ctor false (Fin w) t
  = Ok (with_bounds (of_int (- 2 ^ (Tuple.intg t + Tuple.frac t))) t) /\
  FXP_ctor true (Fin w) t = Err Abort.
Proof.
  intros Hw Hty Hu Hsat Hgrid. pose proof Hw as (Hi & Hf & Hs).
  pose proof (inject_pow2_pos _ Hf) as HS.
  pose proof (pow2_pos (Tuple.intg t + Tuple.frac t) ltac:(lia)) as Hp.
  pose proof (pow2_le (Tuple.intg t + Tuple.frac t) 62 ltac:(lia)) as Hle.
  change (2 ^ 62) with 4611686018427387904 in Hle.
  set (n := Tuple.intg t + Tuple.frac t) in *.
  assert (H2n : (0 < inject_Z (2 ^ n))%Q).
  { change 0%Q with (inject_Z 0). now rewrite <- Zlt_Qlt. }
  assert (Hres : resolved t w = w) by now apply resolved_nosat.
  assert (Hc : scaled_count (Tuple.rounding t) (resolved t w) (Tuple.frac t)
               = 2 ^ n).
  { rewrite Hres. unfold scaled_count. now apply count_of_integer. }
  assert (Hq : quantized_count t w = - 2 ^ n).
  { unfold quantized_count. rewrite Hc. apply stored_count_top; [lia | exact Hu]. }
  assert (Hchk : checks t w = false).
  { unfold checks. rewrite Hq. apply andb_false_iff. right.
    destruct (Qle_bool 0 (w * inject_Z (- 2 ^ n))) eqn:E; [|reflexivity].
    apply Qle_bool_iff in E. rewrite inject_Z_opp in E.
    set (S := inject_Z (2 ^ Tuple.frac t)) in *.
    set (Y := inject_Z (2 ^ n)) in *.
    assert (0 < w)%Q by nra. nra. }
  assert (Hcount : is_count (quantized_count t w)).
  { rewrite Hq. apply is_count_opp, is_count_pow2. lia. }
  rewrite !ctor_closed; try assumption;
    try (rewrite Hc; unfold fits_int64;
         change (2 ^ 63) with 9223372036854775808; lia).
  rewrite Hchk, Hq. cbn [andb negb]. split; reflexivity.
Qed.

(** X16. The one FULL-mode product that does not fit: the most negative
    value times the most negative value.  Without saturation the count 2^n
    wraps to -2^n, so the unchecked product is the most negative value of the
    result configuration, of the wrong sign, and the checked product aborts. *)
Theorem mul_most_negative (ta tb : tuple) :
  valid_config ta -> valid_config tb ->
  Tuple.type ta <> d_FLOAT -> Tuple.type tb <> d_FLOAT ->
  is_unsigned (Tuple.type ta) = false -> is_unsigned (Tuple.type tb) = false ->
  Tuple.opmode ta = FULL -> Tuple.opmode tb = FULL ->
  Tuple.sat ta = false -> Tuple.sat tb = false ->
  Tuple.rounding ta = Tuple.rounding tb ->
  let T := Tuple.Build (Tuple.intg ta + Tuple.intg tb)
             (Tuple.frac ta + Tuple.frac tb)
             (add_type (Tuple.type ta) (Tuple.type tb)) FULL
             false (Tuple.rounding ta) in
  Tuple.intg T + Tuple.frac T < 63 ->
  let a := with_bounds (of_int (- 2 ^ (Tuple.intg ta + Tuple.frac ta))) ta in
  let b := with_bounds (of_int (- 2 ^ (Tuple.intg tb + Tuple.frac tb))) tb in
  operator_mul false a b
  = Ok (with_bounds (of_int (- 2 ^ (Tuple.intg T + Tuple.frac T))) T) /\
  operator_mul true a b = Err Abort.
Proof.
  intros Hva Hvb Hna Hnb Hua Hub Hma Hmb Hsa Hsb Hrnd T HsT a b.
  pose proof Hva as [(Hia & Hfa & _) _].
  pose proof Hvb as [(Hib & Hfb & _) _].
  cbn [Tuple.intg Tuple.frac T] in HsT.
  destruct (add_type_facts _ _ Hna Hnb) as (HtyT & HuT & _).
  assert (HuT' : is_unsigned (Tuple.type T) = false).
  { cbn [Tuple.type T]. destruct (is_unsigned (add_type _ _)) eqn:E; [|reflexivity].
    destruct (HuT eq_refl) as [E' _]. congruence. }
  assert (HwT : valid_widths T) by (unfold valid_widths; cbn; lia).
  assert (Hrep : representable
                   (inject_Z (- 2 ^ (Tuple.intg ta + Tuple.frac ta))
                    * inject_Z (- 2 ^ (Tuple.intg tb + Tuple.frac tb)))).
  { pose proof (pow2_pos (Tuple.intg ta + Tuple.frac ta) ltac:(lia)) as HA.
    pose proof (pow2_pos (Tuple.intg tb + Tuple.frac tb) ltac:(lia)) as HB.
    assert (E : 2 ^ (Tuple.intg ta + Tuple.frac ta)
                * 2 ^ (Tuple.intg tb + Tuple.frac tb)
                = 2 ^ (Tuple.intg ta + Tuple.intg tb
                       + (Tuple.frac ta + Tuple.frac tb))).
    { rewrite <- Z.pow_add_r by lia. f_equal. lia. }
    apply (representable_comp
             (inject_Z (2 ^ (Tuple.intg ta + Tuple.intg tb
                             + (Tuple.frac ta + Tuple.frac tb))))).
    - rewrite <- E, !inject_Z_opp, inject_Z_mult. ring.
    - apply is_count_representable; [apply is_count_pow2; lia|].
      pose proof (pow2_pos (Tuple.intg ta + Tuple.intg tb
                            + (Tuple.frac ta + Tuple.frac tb)) ltac:(lia)).
      pose proof (pow2_lt (Tuple.intg ta + Tuple.intg tb
                           + (Tuple.frac ta + Tuple.frac tb)) 200 ltac:(lia)).
      lia. }
  assert (Hall : forall D,
             operator_mul D a b
             = FXP_ctor D
                 (Fin (inject_Z (- 2 ^ (Tuple.intg ta + Tuple.frac ta))
                       * inject_Z (- 2 ^ (Tuple.intg tb + Tuple.frac tb))
                       / inject_Z (2 ^ (Tuple.frac ta + Tuple.frac tb)))) T).
  { intros D. unfold operator_mul, _mul.
    rewrite assert_compatible_ok
      by (apply compatible_with_bounds; congruence).
    cbn [bind]. unfold _mul5. subst a b.
    cbn [type intg frac _val opmode sat rounding with_bounds].
    rewrite (not_float_eqb _ Hna). cbn [andb].
    rewrite shl64_one by lia. cbn [bind].
    change (dmul (of_int ?p) (of_int ?q)) with (Fin (inject_Z p * inject_Z q)).
    rewrite fl_exact, cast_pow2 by (lia || exact Hrep).
    rewrite ddiv_pow2 by lia. rewrite Hma, Hsa. cbn [mul_widths]. reflexivity. }
  rewrite !Hall.
  apply ctor_top_wraps; try assumption; try reflexivity.
  cbn [Tuple.intg Tuple.frac T].
  replace (Tuple.intg ta + Tuple.intg tb + (Tuple.frac ta + Tuple.frac tb))
    with ((Tuple.intg ta + Tuple.frac ta) + (Tuple.intg tb + Tuple.frac tb)) by lia.
  rewrite (Z.pow_add_r 2 (Tuple.intg ta + Tuple.frac ta)) by lia.
  rewrite !inject_Z_opp, !inject_Z_mult.
  pose proof (inject_pow2_pos (Tuple.frac ta + Tuple.frac tb) ltac:(lia)).
  field. lra.
Qed.

Lemma mul_most_negative_witness :
  let ta := Tuple.Build 3 0 d_INT FULL false false in
  let T := Tuple.Build (3 + 3) (0 + 0) (add_type d_INT d_INT) FULL false false in
  let a := with_bounds (of_int (- 2 ^ (3 + 0))) ta in
  operator_mul false a a
  = Ok (with_bounds (of_int (- 2 ^ (Tuple.intg T + Tuple.frac T))) T) /\
  operator_mul true a a = Err Abort.
Proof.
  apply (mul_most_negative (Tuple.Build 3 0 d_INT FULL false false)
           (Tuple.Build 3 0 d_INT FULL false false)).
  - unfold valid_config, valid_widths; simpl. split; [lia | reflexivity].
  - unfold valid_config, valid_widths; simpl. split; [lia | reflexivity].
  - simpl; discriminate.
  - simpl; discriminate.
  - reflexivity.
  - reflexivity.
  - reflexivity.
  - reflexivity.
  - reflexivity.
  - reflexivity.
  - reflexivity.
  - simpl; lia.
Defined.









(** * The configuration of a result *)

Lemma both_float (ta tb : dtype) :
  dtype_eqb ta d_FLOAT && dtype_eqb tb d_FLOAT = true <->
  ta = d_FLOAT /\ tb = d_FLOAT.
Proof.
  destruct ta, tb; cbn; split; intros H; try discriminate; auto;
    destruct H; discriminate.
Qed.

Lemma result_config (DEBUG : bool) (v : double) (w : Z * Z) (ty : dtype)
    (m : modes) (s rd : bool) (r : FXP) :
  (let '(i, f) := w in FXP_ctor DEBUG v (Tuple.Build i f ty m s rd)) = Ok r ->
  (intg r, frac r) = w /\ type r = ty /\
  opmode r = m /\ sat r = s /\ rounding r = rd.
Proof.
  destruct w as [i f]. intros H. apply ctor_keeps_template_aux in H.
  unfold as_tuple in H. injection H as -> -> -> -> -> ->. repeat split.
Qed.

Lemma add_sub_widths (DEBUG : bool) (a b r : FXP) :
  _add DEBUG a b = Ok r \/ _sub DEBUG a b = Ok r ->
  (intg r, frac r) = add_widths a b (opmode a) /\
  opmode r = opmode a /\ sat r = sat a /\ rounding r = rounding a /\
  (type r = d_FLOAT <-> type a = d_FLOAT /\ type b = d_FLOAT).
Proof.
  intros [H | H]; [unfold _add, _add5 in H | unfold _sub, _sub5 in H];
    (destruct (assert_compatible DEBUG a b); cbn [bind] in H; [|discriminate]);
    (destruct (dtype_eqb (type a) d_FLOAT && dtype_eqb (type b) d_FLOAT) eqn:Efl;
     [ cbn [bind] in H
     | match type of H with
       | bind ?m _ = _ => destruct m as [[ty tv]|] eqn:Et; cbn [bind] in H;
                            [|discriminate]
       end ]);
    apply result_config in H as (Hw & Hty & Hm & Hs & Hr);
    (split; [exact Hw|]); (split; [exact Hm|]); (split; [exact Hs|]);
    (split; [exact Hr|]).
  1,3: apply both_float in Efl; split; auto.
  all: assert (Hnf : ty <> d_FLOAT)
         by (destruct (frac b <=? frac a);
             (destruct (shifted _ _); cbn [bind] in Et; [|discriminate]);
             injection Et as <- _;
             (apply add_type_not_float || apply sub_type_not_float)).
  all: split; [intros E; congruence|].
  all: intros E; apply both_float in E; congruence.
Qed.

Lemma mul_result_widths (DEBUG : bool) (a b r : FXP) :
  _mul DEBUG a b = Ok r ->
  (intg r, frac r) = mul_widths a b (opmode a) /\
  opmode r = opmode a /\ sat r = sat a /\ rounding r = rounding a /\
  (type r = d_FLOAT <-> type a = d_FLOAT /\ type b = d_FLOAT).
Proof.
  intros H. unfold _mul, _mul5 in H.
  destruct (assert_compatible DEBUG a b); cbn [bind] in H; [|discriminate].
  destruct (dtype_eqb (type a) d_FLOAT && dtype_eqb (type b) d_FLOAT) eqn:Efl.
  - cbn [bind] in H. apply result_config in H as (Hw & Hty & Hm & Hs & Hr).
    apply both_float in Efl.
    split; [exact Hw|]. split; [exact Hm|]. split; [exact Hs|].
    split; [exact Hr|]. split; auto.
  - destruct (shl64 1 (frac a + frac b)); cbn [bind] in H; [|discriminate].
    apply result_config in H as (Hw & Hty & Hm & Hs & Hr).
    split; [exact Hw|]. split; [exact Hm|]. split; [exact Hs|].
    split; [exact Hr|]. split.
    + intros E. rewrite E in Hty. symmetry in Hty.
      now apply add_type_not_float in Hty.
    + intros E. apply both_float in E. congruence.
Qed.

(** The three-way rule of the two fixed modes for the fractional width. *)
Lemma fixed_frac_cases (a b : FXP) :
  let int_kind t := t = d_UINT \/ t = d_INT in
  let fxp_kind t := t = d_UFXP \/ t = d_FXP in
  (int_kind (type a) -> fxp_kind (type b) -> fixed_frac a b = frac b) /\
  (fxp_kind (type a) -> int_kind (type b) -> fixed_frac a b = frac a) /\
  (~ (int_kind (type a) /\ fxp_kind (type b)) ->
   ~ (fxp_kind (type a) /\ int_kind (type b)) ->
   fixed_frac a b = Z.min (frac a) (frac b)).
Proof.
  unfold fixed_frac, is_int_kind, is_fxp_kind.
  destruct (type a), (type b); cbn;
    (split; [|split]); intros H1 H2;
    try reflexivity;
    try (destruct H1; discriminate); try (destruct H2; discriminate);
    try (exfalso; apply H1; split; auto; fail);
    try (exfalso; apply H2; split; auto; fail).
Qed.

(** X19. Whatever the operands hold, a sum or difference that is returned
    keeps the mode, overflow and rounding policies of the left operand and is
    FLOAT exactly when both operands are. Its integer width is the larger
    operand width plus one in FULL and FIXEDFRAC mode, the larger operand
    width in FIXEDWIDTH mode and 0 in MANUAL mode. Its fractional width is
    the larger one in FULL mode and 0 in MANUAL mode; in the two fixed modes
    it is the fractional width of the fixed-point operand when the other
    operand is of an integer kind, and the smaller of the two otherwise. *)
Theorem add_sub_result_config (DEBUG : bool) (a b r : FXP) :
  _add DEBUG a b = Ok r \/ _sub DEBUG a b = Ok r ->
  opmode r = opmode a /\ sat r = sat a /\ rounding r = rounding a /\
  (type r = d_FLOAT <-> type a = d_FLOAT /\ type b = d_FLOAT) /\
  intg r = match opmode a with
           | FULL | FIXEDFRAC => Z.max (intg a) (intg b) + 1
           | FIXEDWIDTH => Z.max (intg a) (intg b)
           | MANUAL => 0
           end /\
  (opmode a = FULL -> frac r = Z.max (frac a) (frac b)) /\
  (opmode a = MANUAL -> frac r = 0) /\
  (opmode a = FIXEDFRAC \/ opmode a = FIXEDWIDTH ->
   let int_kind t := t = d_UINT \/ t = d_INT in
   let fxp_kind t := t = d_UFXP \/ t = d_FXP in
   (int_kind (type a) -> fxp_kind (type b) -> frac r = frac b) /\
   (fxp_kind (type a) -> int_kind (type b) -> frac r = frac a) /\
   (~ (int_kind (type a) /\ fxp_kind (type b)) ->
    ~ (fxp_kind (type a) /\ int_kind (type b)) ->
    frac r = Z.min (frac a) (frac b))).
Proof.
  intros H. apply add_sub_widths in H as (Hw & Hm & Hs & Hr & Hty).
  split; [exact Hm|]. split; [exact Hs|]. split; [exact Hr|].
  split; [exact Hty|].
  pose proof (fixed_frac_cases a b) as Hff. cbv zeta in Hff |- *.
  unfold add_widths in Hw.
  destruct (opmode a); injection Hw as -> ->;
    (split; [reflexivity|]); (split; [|split]);
    try (intros E; discriminate E); try (intros _; reflexivity);
    try (intros [E | E]; discriminate E); intros _; exact Hff.
Qed.

Lemma add_sub_result_config_witness :
  let a := with_bounds (of_int 3) (Tuple.Build 3 0 d_INT FIXEDFRAC false false) in
  let b := half_1_1 FIXEDFRAC in
  let r := with_bounds (of_int 7) (Tuple.Build 4 1 d_FXP FIXEDFRAC false false) in
  _add true a b = Ok r /\
  opmode r = FIXEDFRAC /\ intg r = Z.max 3 1 + 1 /\ frac r = frac b.
Proof.
  assert (H : _add true
                (with_bounds (of_int 3)
                   (Tuple.Build 3 0 d_INT FIXEDFRAC false false))
                (half_1_1 FIXEDFRAC)
              = Ok (with_bounds (of_int 7)
                      (Tuple.Build 4 1 d_FXP FIXEDFRAC false false)))
    by (vm_compute; reflexivity).
  destruct (add_sub_result_config true _ _ _ (or_introl H))
    as (Hm & _ & _ & _ & Hi & _ & _ & Hf).
  destruct (Hf (or_introl eq_refl)) as (Hf1 & _ & _).
  split; [exact H|]. split; [exact Hm|]. split; [exact Hi|].
  apply Hf1; [right | right]; reflexivity.
Defined.

(** X20. Whatever the operands hold, a product that is returned keeps the
    mode, overflow and rounding policies of the left operand and is FLOAT
    exactly when both operands are. Its integer width is the sum of the
    operand widths in FULL and FIXEDFRAC mode, the larger operand width in
    FIXEDWIDTH mode and 0 in MANUAL mode. Its fractional width is the sum of
    the two in FULL mode and 0 in MANUAL mode; in the two fixed modes it is
    the fractional width of the fixed-point operand when the other operand is
    of an integer kind, and the smaller of the two otherwise. *)
Theorem mul_result_config (DEBUG : bool) (a b r : FXP) :
  _mul DEBUG a b = Ok r ->
  opmode r = opmode a /\ sat r = sat a /\ rounding r = rounding a /\
  (type r = d_FLOAT <-> type a = d_FLOAT /\ type b = d_FLOAT) /\
  intg r = match opmode a with
           | FULL | FIXEDFRAC => intg a + intg b
           | FIXEDWIDTH => Z.max (intg a) (intg b)
           | MANUAL => 0
           end /\
  (opmode a = FULL -> frac r = frac a + frac b) /\
  (opmode a = MANUAL -> frac r = 0) /\
  (opmode a = FIXEDFRAC \/ opmode a = FIXEDWIDTH ->
   let int_kind t := t = d_UINT \/ t = d_INT in
   let fxp_kind t := t = d_UFXP \/ t = d_FXP in
   (int_kind (type a) -> fxp_kind (type b) -> frac r = frac b) /\
   (fxp_kind (type a) -> int_kind (type b) -> frac r = frac a) /\
   (~ (int_kind (type a) /\ fxp_kind (type b)) ->
    ~ (fxp_kind (type a) /\ int_kind (type b)) ->
    frac r = Z.min (frac a) (frac b))).
Proof.
  intros H. apply mul_result_widths in H as (Hw & Hm & Hs & Hr & Hty).
  split; [exact Hm|]. split; [exact Hs|]. split; [exact Hr|].
  split; [exact Hty|].
  pose proof (fixed_frac_cases a b) as Hff. cbv zeta in Hff |- *.
  unfold mul_widths in Hw.
  destruct (opmode a); injection Hw as -> ->;
    (split; [reflexivity|]); (split; [|split]);
    try (intros E; discriminate E); try (intros _; reflexivity);
    try (intros [E | E]; discriminate E); intros _; exact Hff.
Qed.

Lemma mul_result_config_witness :
  let a := with_bounds (of_int 3) (Tuple.Build 3 1 d_FXP FIXEDWIDTH false false) in
  let b := half_1_1 FIXEDWIDTH in
  let r := with_bounds (of_int 1) (Tuple.Build 3 1 d_FXP FIXEDWIDTH false false) in
  _mul true a b = Ok r /\
  opmode r = FIXEDWIDTH /\ intg r = Z.max 3 1 /\ frac r = Z.min 1 1.
Proof.
  assert (H : _mul true
                (with_bounds (of_int 3)
                   (Tuple.Build 3 1 d_FXP FIXEDWIDTH false false))
                (half_1_1 FIXEDWIDTH)
              = Ok (with_bounds (of_int 1)
                      (Tuple.Build 3 1 d_FXP FIXEDWIDTH false false)))
    by (vm_compute; reflexivity).
  destruct (mul_result_config true _ _ _ H)
    as (Hm & _ & _ & _ & Hi & _ & _ & Hf).
  destruct (Hf (or_intror eq_refl)) as (_ & _ & Hf3).
  split; [exact H|]. split; [exact Hm|]. split; [exact Hi|].
  apply Hf3; [intros [[E | E] _] | intros [_ [E | E]]]; discriminate E.
Defined.

(** * MANUAL mode *)

Lemma add_as_ctor (DEBUG : bool) (a b r : FXP) :
  _add DEBUG a b = Ok r ->
  exists v ty,
    (let '(i, f) := add_widths a b (opmode a) in
     FXP_ctor DEBUG v
       (Tuple.Build i f ty (opmode a) (sat a) (rounding a))) = Ok r /\
    (dtype_eqb (type a) d_FLOAT && dtype_eqb (type b) d_FLOAT = false ->
     ty <> d_FLOAT).
Proof.
  intros H. unfold _add, _add5 in H.
  invert_Ok;
    eexists _, _; (split; [exact H|]); intros E';
    (congruence || apply add_type_not_float).
Qed.

Lemma sub_as_ctor (DEBUG : bool) (a b r : FXP) :
  _sub DEBUG a b = Ok r ->
  exists v ty,
    (let '(i, f) := add_widths a b (opmode a) in
     FXP_ctor DEBUG v
       (Tuple.Build i f ty (opmode a) (sat a) (rounding a))) = Ok r /\
    (dtype_eqb (type a) d_FLOAT && dtype_eqb (type b) d_FLOAT = false ->
     ty <> d_FLOAT).
Proof.
  intros H. unfold _sub, _sub5 in H.
  invert_Ok;
    eexists _, _; (split; [exact H|]); intros E';
    (congruence || apply sub_type_not_float).
Qed.

Lemma mul_as_ctor (DEBUG : bool) (a b r : FXP) :
  _mul DEBUG a b = Ok r ->
  exists v ty,
    (let '(i, f) := mul_widths a b (opmode a) in
     FXP_ctor DEBUG v
       (Tuple.Build i f ty (opmode a) (sat a) (rounding a))) = Ok r /\
    (dtype_eqb (type a) d_FLOAT && dtype_eqb (type b) d_FLOAT = false ->
     ty <> d_FLOAT).
Proof.
  intros H. unfold _mul, _mul5 in H.
  invert_Ok;
    eexists _, _; (split; [exact H|]); intros E';
    (congruence || apply add_type_not_float).
Qed.

(** On the (0,0) grid every input the constructor accepts, the two
    infinities included, is stored as -1 or 0. *)
Lemma manual_ctor (DEBUG : bool) (v : double) (ty : dtype) (s rd : bool) (r : FXP) :
  ty <> d_FLOAT ->
  FXP_ctor DEBUG v (Tuple.Build 0 0 ty MANUAL s rd) = Ok r ->
  intg r = 0 /\ frac r = 0 /\ exists x, _val r = of_int x /\ -1 <= x <= 0.
Proof.
  intros Hty H.
  destruct v as [q | | |].
  - set (T := Tuple.Build 0 0 ty MANUAL s rd) in *.
    assert (Hw : valid_widths T) by (unfold valid_widths; cbn; lia).
    pose proof (ctor_Ok_fits DEBUG T q r Hw Hty H) as Hfit.
    assert (Hst : stores_exactly DEBUG T q) by (right; left; cbn; lia).
    destruct (ctor_closed_Ok DEBUG T q r Hw Hty Hfit Hst H) as [-> _].
    destruct (quantized_count_facts T q Hw Hty Hfit) as [Hr _].
    cbn [intg frac _val with_bounds Tuple.intg Tuple.frac T].
    split; [reflexivity|]. split; [reflexivity|].
    exists (quantized_count T q). split; [reflexivity|].
    unfold in_range in Hr. cbn [Tuple.type Tuple.intg Tuple.frac T] in Hr.
    change (2 ^ (0 + 0)) with 1 in Hr.
    destruct (is_unsigned ty); lia.
  - destruct ty, s, rd, DEBUG; try congruence; vm_compute in H;
      try discriminate H; injection H as <-;
      (split; [reflexivity|]); (split; [reflexivity|]);
      first [ exists 0; split; [reflexivity | lia]
            | exists (-1); split; [reflexivity | lia] ].
  - destruct ty, s, rd, DEBUG; try congruence; vm_compute in H;
      try discriminate H; injection H as <-;
      (split; [reflexivity|]); (split; [reflexivity|]);
      first [ exists 0; split; [reflexivity | lia]
            | exists (-1); split; [reflexivity | lia] ].
  - destruct ty, s, rd, DEBUG; try congruence; vm_compute in H;
      discriminate H.
Qed.

(** X21. The MANUAL mode assigns no widths: a sum, difference or product of
    two well-formed operands that are not both FLOAT, when it is returned in
    MANUAL mode, has integer and fractional width 0 and holds -1 or 0,
    whatever the operands were. *)
Theorem manual_mode_collapses (DEBUG : bool) (a b r : FXP) :
  well_formed a -> well_formed b ->
  opmode a = MANUAL ->
  type a <> d_FLOAT \/ type b <> d_FLOAT ->
  _add DEBUG a b = Ok r \/ _sub DEBUG a b = Ok r \/ _mul DEBUG a b = Ok r ->
  intg r = 0 /\ frac r = 0 /\ exists x, _val r = of_int x /\ -1 <= x <= 0.
Proof.
  intros Ha Hb Hm Hnf H.
  assert (Efl : dtype_eqb (type a) d_FLOAT && dtype_eqb (type b) d_FLOAT = false).
  { destruct (dtype_eqb (type a) d_FLOAT && dtype_eqb (type b) d_FLOAT) eqn:E;
      [|reflexivity].
    apply both_float in E. destruct E, Hnf; congruence. }
  destruct H as [H | [H | H]];
    [ apply add_as_ctor in H as (q & ty & H & Hty)
    | apply sub_as_ctor in H as (q & ty & H & Hty)
    | apply mul_as_ctor in H as (q & ty & H & Hty) ];
    rewrite Hm in H; cbn [add_widths mul_widths] in H;
    exact (manual_ctor DEBUG q ty _ _ r (Hty Efl) H).
Qed.

Lemma manual_mode_collapses_witness :
  let r := with_bounds (of_int (-1)) (Tuple.Build 0 0 d_FXP MANUAL false false) in
  intg r = 0 /\ frac r = 0 /\ exists x, _val r = of_int x /\ -1 <= x <= 0.
Proof.
  apply (manual_mode_collapses false (half_1_1 MANUAL) (half_1_1 MANUAL)
           (with_bounds (of_int (-1))
              (Tuple.Build 0 0 d_FXP MANUAL false false))).
  - exists (cfg_1_1 MANUAL), (of_int 1).
    split; [unfold valid_config, valid_widths; simpl;
            split; [lia | intros [H | H]; discriminate]|].
    split; [reflexivity|]. split; [simpl; discriminate|].
    intros _. exists 1. split; [reflexivity|].
    small_count.
  - exists (cfg_1_1 MANUAL), (of_int 1).
    split; [unfold valid_config, valid_widths; simpl;
            split; [lia | intros [H | H]; discriminate]|].
    split; [reflexivity|]. split; [simpl; discriminate|].
    intros _. exists 1. split; [reflexivity|].
    small_count.
  - reflexivity.
  - left. simpl. discriminate.
  - left. vm_compute. reflexivity.
Defined.

(** * Integer literals and unsigned operands *)







(** * Comparisons *)

Lemma Qcompare_inject_Z (x y : Z) : (inject_Z x ?= inject_Z y)%Q = (x ?= y).
Proof. unfold Qcompare, inject_Z. simpl. now rewrite !Z.mul_1_r. Qed.

Lemma grid_compare (za zb fa fb : Z) :
  0 <= fa -> 0 <= fb ->
  (inject_Z za / inject_Z (2 ^ fa) ?= inject_Z zb / inject_Z (2 ^ fb))%Q
  = (za * 2 ^ fb ?= zb * 2 ^ fa).
Proof.
  intros Hfa Hfb. rewrite <- Qcompare_inject_Z, !inject_Z_mult.
  pose proof (inject_pow2_pos fa Hfa) as HSa.
  pose proof (inject_pow2_pos fb Hfb) as HSb.
  set (Sa := inject_Z (2 ^ fa)) in *. set (Sb := inject_Z (2 ^ fb)) in *.
  set (X := (inject_Z za / Sa)%Q). set (Y := (inject_Z zb / Sb)%Q).
  assert (HP : (0 < Sa * Sb)%Q) by nra.
  assert (HA : (inject_Z za * Sb == X * (Sa * Sb))%Q) by (subst X; field; lra).
  assert (HB : (inject_Z zb * Sa == Y * (Sa * Sb))%Q) by (subst Y; field; lra).
  set (A := (inject_Z za * Sb)%Q) in *. set (B := (inject_Z zb * Sa)%Q) in *.
  set (P := (Sa * Sb)%Q) in *.
  destruct (Qcompare_spec X Y); destruct (Qcompare_spec A B);
    try reflexivity; exfalso; nra.
Qed.

(** X24. The six comparison operators compare the values, not the stored
    counts: for two operands that are not FLOAT, on whatever grids and of
    whatever kinds and widths, each is the integer comparison of the two
    counts brought to the common grid [za * 2^fb] against [zb * 2^fa]. *)
Theorem compare_on_grids (ta tb : tuple) (za zb : Z) :
  0 <= Tuple.frac ta -> 0 <= Tuple.frac tb ->
  Tuple.type ta <> d_FLOAT -> Tuple.type tb <> d_FLOAT ->
  let a := with_bounds (of_int za) ta in
  let b := with_bounds (of_int zb) tb in
  let ca := za * 2 ^ Tuple.frac tb in
  let cb := zb * 2 ^ Tuple.frac ta in
  operator_lt a b = (ca <? cb) /\ operator_le a b = (ca <=? cb) /\
  operator_gt a b = (cb <? ca) /\ operator_ge a b = (cb <=? ca) /\
  operator_eq a b = (ca =? cb) /\ operator_ne a b = negb (ca =? cb).
Proof.
  intros Hfa Hfb Hna Hnb a b ca cb.
  unfold operator_lt, operator_le, operator_gt, operator_ge, operator_eq,
    operator_ne, dlt, dle, dgt, dge, deq. subst a b.
  rewrite !val_with_bounds by assumption. cbn [dcompare].
  rewrite grid_compare by assumption. fold ca cb.
  destruct (Z.compare_spec ca cb);
    destruct (Z.eqb_spec ca cb), (Z.ltb_spec ca cb), (Z.leb_spec ca cb),
      (Z.ltb_spec cb ca), (Z.leb_spec cb ca);
    try (exfalso; lia); repeat split.
Qed.

Lemma compare_on_grids_witness :
  let a := with_bounds (of_int 1) (cfg_1_1 FULL) in
  let b := with_bounds (of_int 3) (cfg_uint3 false false) in
  let ca := 1 * 2 ^ 0 in
  let cb := 3 * 2 ^ 1 in
  operator_lt a b = (ca <? cb) /\ operator_le a b = (ca <=? cb) /\
  operator_gt a b = (cb <? ca) /\ operator_ge a b = (cb <=? ca) /\
  operator_eq a b = (ca =? cb) /\ operator_ne a b = negb (ca =? cb).
Proof.
  apply (compare_on_grids (cfg_1_1 FULL) (cfg_uint3 false false) 1 3).
  - simpl; lia.
  - simpl; lia.
  - simpl; discriminate.
  - simpl; discriminate.
Defined.

(** * The reserved inputs *)





Lemma to_signed_NaN (this : FXP) : _to_signed this NaN = Err Undefined.
Proof. unfold _to_signed, round_or_floor. now destruct (rounding this). Qed.

Lemma to_unsigned_NaN (this : FXP) : _to_unsigned this NaN = Err Undefined.
Proof. unfold _to_unsigned, round_or_floor. now destruct (rounding this). Qed.

Lemma set_val_NaN (DEBUG : bool) (this r : FXP) :
  _set_val DEBUG this NaN = Ok r ->
  DEBUG = false /\ type this = d_FLOAT /\ r = set__val this NaN.
Proof.
  unfold _set_val.
  change (deq NaN inf) with false. cbv iota.
  change (deq NaN (dneg inf)) with false. cbv iota.
  change (dgt NaN (pinf this)) with false. cbv iota.
  change (dlt NaN (ninf this)) with false. cbv iota.
  replace (if sat this then NaN else NaN) with NaN by now destruct (sat this).
  intros H.
  destruct (assert_ DEBUG (intg this + frac this <? 63)); cbn [bind] in H;
    [|discriminate].
  destruct (type this);
    repeat match type of H with
           | context [assert_ DEBUG ?c] =>
               destruct (assert_ DEBUG c) eqn:?; cbn [bind] in H; [|discriminate]
           end;
    rewrite ?to_signed_NaN, ?to_unsigned_NaN in H; cbn [bind] in H;
    try discriminate.
  destruct DEBUG; cbn in H; [discriminate|]. injection H as <-. auto.
Qed.

(** X26. A NaN is never quantized: the only way the constructor returns an
    object for a NaN is as a FLOAT with the asserts compiled out, which stores
    it as it is; the result then differs from itself under [==].  In every
    other case no object is returned: the conversion of a NaN to an integer
    is undefined, and the checked constructor stops at an assert. *)
Theorem nan_only_unchecked_float (DEBUG : bool) (t : tuple) (r : FXP) :
  FXP_ctor DEBUG NaN t = Ok r ->
  DEBUG = false /\ Tuple.type t = d_FLOAT /\ val r = NaN /\
  operator_eq r r = false /\ operator_ne r r = true.
Proof.
  unfold FXP_ctor. intros H.
  destruct (_set_bounds (_read_template FXP_default t)) as [b|] eqn:Eb;
    cbn [bind] in H; [|discriminate].
  apply set_bounds_inv in Eb as (Hty & _ & _).
  apply set_val_NaN in H as (HD & Hfl & ->).
  assert (Hval : val (set__val b NaN) = NaN)
    by (unfold val; cbn [type _val set__val]; now rewrite Hfl).
  split; [exact HD|]. split; [rewrite Hty in Hfl; exact Hfl|].
  split; [exact Hval|].
  unfold operator_eq, operator_ne. rewrite Hval. split; reflexivity.
Qed.

Lemma nan_only_unchecked_float_witness :
  let t := Tuple.Build 7 1 d_FLOAT FIXEDFRAC false false in
  false = false /\ Tuple.type t = d_FLOAT /\ val (with_bounds NaN t) = NaN /\
  operator_eq (with_bounds NaN t) (with_bounds NaN t) = false /\
  operator_ne (with_bounds NaN t) (with_bounds NaN t) = true.
Proof.
  apply (nan_only_unchecked_float false
           (Tuple.Build 7 1 d_FLOAT FIXEDFRAC false false)
           (with_bounds NaN (Tuple.Build 7 1 d_FLOAT FIXEDFRAC false false))).
  vm_compute. reflexivity.
Defined.

(** * Integer literals in FULL mode *)





